(** * Revolt voice-chat relay: the connection registry and its handlers

    A shallow embedding of [server/index.js]: the registry
    [activeConnections], the per-connection handlers installed on the
    client socket and on the upstream (Gemini) socket, the idle sweep and
    the shutdown handlers.  JavaScript objects that are shared by
    reference (the two sockets of a connection) live in a heap indexed by
    handles; the registry records hold handles, as the source records hold
    references. *)

From Stdlib Require Import ZArith List Strings.Byte Ascii String.
From stdpp Require Import base gmap strings list fin_maps pretty.

Local Open Scope Z_scope.
Local Open Scope string_scope.

Set Warnings "-register-all".

(** ** JavaScript values that cross the wire *)

Module Js.

(** A parsed JSON document.  Numbers are kept as integers: the handlers
    only test numbers for truthiness and only print the integers 300 and
    1000.  The members of an object have different names, as [JSON.parse]
    keeps one value per name. *)
Inductive JsonValue :=
| JNull
| JBool (b : bool)
| JNumber (n : Z)
| JString (s : string)
| JArray (items : list JsonValue)
| JObject (members : list (string * JsonValue)).

(** [undefined] is not a JSON value: a missing property reads as [None]. *)
Definition JsValue := option JsonValue.

(** Result of evaluating an expression or statement: a value, or a thrown
    exception that unwinds to the nearest [try]/[catch]. *)
Inductive JsError := TypeError | SyntaxError | SocketError.

Inductive Outcome (A : Type) :=
| Ok (a : A)
| Throw (e : JsError).
Arguments Ok {A} a.
Arguments Throw {A} e.

(** JavaScript truthiness, as used by [if (x)], [!x] and [a && b]. *)
Definition truthy (v : JsValue) : bool :=
  match v with
  | None => false
  | Some JNull => false
  | Some (JBool b) => b
  | Some (JNumber n) => negb (n =? 0)%Z
  | Some (JString s) => negb (String.eqb s EmptyString)
  | Some (JArray _) => true
  | Some (JObject _) => true
  end.

Fixpoint assoc (k : string) (ms : list (string * JsonValue)) : JsValue :=
  match ms with
  | [] => None
  | (k', v) :: ms' => if String.eqb k k' then Some v else assoc k ms'
  end.

(** [v.k] for a property name [k] that no prototype defines.  Reading a
    property of [null] or [undefined] throws; primitives and arrays have
    no such own property. *)
Definition get (v : JsValue) (k : string) : Outcome JsValue :=
  match v with
  | None => Throw TypeError
  | Some JNull => Throw TypeError
  | Some (JObject ms) => Ok (assoc k ms)
  | Some _ => Ok None
  end.

(** [s.startsWith(p)] *)
Fixpoint startsWith (s p : string) : bool :=
  match p with
  | EmptyString => true
  | String c p' =>
      match s with
      | EmptyString => false
      | String d s' => if Ascii.eqb c d then startsWith s' p' else false
      end
  end.

(** *** JSON.stringify *)

Definition dquote : string := String (ascii_of_nat 34) EmptyString.
Definition backslash : string := String (ascii_of_nat 92) EmptyString.

Definition hex_digit (n : N) : ascii :=
  match String.get (N.to_nat n) "0123456789abcdef" with
  | Some c => c
  | None => "0"%char
  end.

Definition escape_char (c : ascii) : string :=
  let n := N_of_ascii c in
  if (n =? 34)%N then backslash +:+ dquote
  else if (n =? 92)%N then backslash +:+ backslash
  else if (n =? 8)%N then backslash +:+ "b"
  else if (n =? 12)%N then backslash +:+ "f"
  else if (n =? 10)%N then backslash +:+ "n"
  else if (n =? 13)%N then backslash +:+ "r"
  else if (n =? 9)%N then backslash +:+ "t"
  else if (n <? 32)%N then
    backslash +:+ "u00" +:+ String (hex_digit (n / 16)) (String (hex_digit (n mod 16)) EmptyString)
  else String c EmptyString.

Fixpoint escape (s : string) : string :=
  match s with
  | EmptyString => EmptyString
  | String c s' => escape_char c +:+ escape s'
  end.

Definition quote (s : string) : string := dquote +:+ escape s +:+ dquote.

Fixpoint join (sep : string) (l : list string) : string :=
  match l with
  | [] => EmptyString
  | [x] => x
  | x :: l' => x +:+ sep +:+ join sep l'
  end.

Fixpoint JSON_stringify (v : JsonValue) : string :=
  match v with
  | JNull => "null"
  | JBool true => "true"
  | JBool false => "false"
  | JNumber n => pretty n
  | JString s => quote s
  | JArray items => "[" +:+ join "," (List.map JSON_stringify items) +:+ "]"
  | JObject members =>
      "{" +:+ join "," (List.map (fun m => quote (fst m) +:+ ":" +:+ JSON_stringify (snd m)) members) +:+ "}"
  end.

End Js.

(** ** Node buffers *)

Module Buffer.

Abbreviation t := (list byte).

Definition alphabet : string :=
  "ABCDEFGHIJKLMNOPQRSTUVWXYZabcdefghijklmnopqrstuvwxyz0123456789+/".

Definition sextet (n : N) : ascii :=
  match String.get (N.to_nat n) alphabet with
  | Some c => c
  | None => "="%char
  end.

(** [buf.toString("base64")]: RFC 4648 with the standard alphabet and
    [=] padding. *)
Fixpoint toString_base64 (b : t) : string :=
  match b with
  | [] => EmptyString
  | [x] =>
      let n := Byte.to_N x in
      String (sextet (n / 4)) (String (sextet ((n mod 4) * 16)) "==")
  | [x; y] =>
      let n := (Byte.to_N x * 256 + Byte.to_N y)%N in
      String (sextet (n / 1024))
        (String (sextet ((n / 16) mod 64))
           (String (sextet ((n mod 16) * 4)) "="))
  | x :: y :: z :: b' =>
      let n := (Byte.to_N x * 65536 + Byte.to_N y * 256 + Byte.to_N z)%N in
      String (sextet (n / 262144))
        (String (sextet ((n / 4096) mod 64))
           (String (sextet ((n / 64) mod 64))
              (String (sextet (n mod 64)) (toString_base64 b'))))
  end.

(** [buf.toString("hex")] *)
Fixpoint toString_hex (b : t) : string :=
  match b with
  | [] => EmptyString
  | x :: b' =>
      let n := Byte.to_N x in
      String (Js.hex_digit (n / 16)) (String (Js.hex_digit (n mod 16)) (toString_hex b'))
  end.

(** Value of a base64 character; Node also accepts the URL-safe [-] and
    [_]. *)
Definition unbase64 (c : ascii) : option N :=
  let n := N_of_ascii c in
  if ((65 <=? n) && (n <=? 90))%N then Some (n - 65)%N
  else if ((97 <=? n) && (n <=? 122))%N then Some (n - 71)%N
  else if ((48 <=? n) && (n <=? 57))%N then Some (n + 4)%N
  else if ((n =? 43) || (n =? 45))%N then Some 62%N
  else if ((n =? 47) || (n =? 95))%N then Some 63%N
  else None.

(** The sextets of a base64 text: decoding stops at the first [=], and
    characters outside the alphabet (white space, line breaks) are
    skipped. *)
Fixpoint sextets (s : string) : list N :=
  match s with
  | EmptyString => []
  | String c s' =>
      if Ascii.eqb c "="%char then []
      else match unbase64 c with
           | Some n => n :: sextets s'
           | None => sextets s'
           end
  end.

Definition byte_of (n : N) : byte :=
  match Byte.of_N (n mod 256) with
  | Some b => b
  | None => x00
  end.

Fixpoint pack (l : list N) : t :=
  match l with
  | a :: b :: c :: d :: l' =>
      let n := (a * 262144 + b * 4096 + c * 64 + d)%N in
      byte_of (n / 65536) :: byte_of (n / 256) :: byte_of n :: pack l'
  | [a; b; c] =>
      let n := (a * 4096 + b * 64 + c)%N in
      [byte_of (n / 1024); byte_of (n / 4)]
  | [a; b] => [byte_of ((a * 64 + b) / 16)]
  | _ => []
  end.

(** [Buffer.from(s, "base64")] *)
Definition from_base64 (s : string) : t := pack (sextets s).

End Buffer.

(** ** WebSocket objects (the [ws] package) *)

Module WS.

Inductive ReadyState := CONNECTING | OPEN | CLOSING | CLOSED.

#[global] Instance ReadyState_eq_dec : EqDecision ReadyState.
Proof. solve_decision. Defined.

Inductive Frame :=
| Text (s : string)
| Binary (b : Buffer.t).

(** The listeners installed on a socket are closures over the connection
    id of the connection they were created for. *)
Inductive Listeners :=
| ClientListeners (connectionId : string)
| GeminiListeners (connectionId : string).

(** [sent] holds the frames handed to [send] while the socket was open,
    oldest first: what the peer receives.  [closeCalls] counts the calls
    of [close]. *)
Record WebSocket := {
  readyState : ReadyState;
  sent : list Frame;
  closeCalls : nat;
  listeners : Listeners
}.

Definition with_readyState (st : ReadyState) (w : WebSocket) : WebSocket :=
  {| readyState := st; sent := sent w; closeCalls := closeCalls w; listeners := listeners w |}.

Definition push (f : Frame) (w : WebSocket) : WebSocket :=
  {| readyState := readyState w; sent := sent w ++ [f]; closeCalls := closeCalls w;
     listeners := listeners w |}.

(** [close()] starts the closing handshake of a socket that is open or
    still connecting and does nothing on one that is closing or closed. *)
Definition closed_by_call (w : WebSocket) : WebSocket :=
  {| readyState := match readyState w with
                   | CONNECTING | OPEN => CLOSING
                   | st => st
                   end;
     sent := sent w; closeCalls := S (closeCalls w); listeners := listeners w |}.

End WS.

Export WS.

(** ** The server state *)

Abbreviation handle := nat.

(** The object stored in [activeConnections] (index.js, lines 93-99). *)
Record Connection := {
  clientWs : handle;
  geminiWs : handle;
  connected : bool;
  lastActivity : Z;
  isGenerating : bool
}.

Definition set_connected (b : bool) (c : Connection) : Connection :=
  {| clientWs := clientWs c; geminiWs := geminiWs c; connected := b;
     lastActivity := lastActivity c; isGenerating := isGenerating c |}.

Definition set_lastActivity (t : Z) (c : Connection) : Connection :=
  {| clientWs := clientWs c; geminiWs := geminiWs c; connected := connected c;
     lastActivity := t; isGenerating := isGenerating c |}.

Definition set_isGenerating (b : bool) (c : Connection) : Connection :=
  {| clientWs := clientWs c; geminiWs := geminiWs c; connected := connected c;
     lastActivity := lastActivity c; isGenerating := b |}.

Record Server := {
  activeConnections : gmap string Connection;
  heap : gmap handle WebSocket
}.

Definition init : Server := {| activeConnections := ∅; heap := ∅ |}.

Definition with_connections (f : gmap string Connection → gmap string Connection)
    (s : Server) : Server :=
  {| activeConnections := f (activeConnections s); heap := heap s |}.

Definition with_heap (f : gmap handle WebSocket → gmap handle WebSocket)
    (s : Server) : Server :=
  {| activeConnections := activeConnections s; heap := f (heap s) |}.

(** State of a socket; a handle that was never allocated reads as closed. *)
Definition readyState_of (h : handle) (s : Server) : ReadyState :=
  match heap s !! h with
  | Some w => readyState w
  | None => CLOSED
  end.

Definition sent_of (h : handle) (s : Server) : list Frame :=
  match heap s !! h with
  | Some w => sent w
  | None => []
  end.

Definition closeCalls_of (h : handle) (s : Server) : nat :=
  match heap s !! h with
  | Some w => closeCalls w
  | None => 0%nat
  end.

(** ** Handlers run as state transformers that may throw *)

Import Js.

Definition M (A : Type) : Type := Server → Outcome A * Server.

Definition ret {A} (a : A) : M A := fun s => (Ok a, s).

Definition throw {A} (e : JsError) : M A := fun s => (Throw e, s).

Definition bind {A B} (m : M A) (k : A → M B) : M B :=
  fun s => match m s with
           | (Ok a, s') => k a s'
           | (Throw e, s') => (Throw e, s')
           end.

Definition lift {A} (o : Outcome A) : M A := fun s => (o, s).

Definition gets {A} (f : Server → A) : M A := fun s => (Ok (f s), s).

Definition modify (f : Server → Server) : M unit := fun s => (Ok tt, f s).

(** [try { body } catch (error) { handler }] *)
Definition try_catch (body handler : M unit) : M unit :=
  fun s => match body s with
           | (Ok a, s') => (Ok a, s')
           | (Throw _, s') => handler s'
           end.

Definition when (b : bool) (m : M unit) : M unit := if b then m else ret tt.

Declare Scope js_scope.
Delimit Scope js_scope with js.
Notation "'let*' x := m 'in' k" := (bind m (fun x => k))
  (at level 10, x name, m at level 100, k at level 200) : js_scope.
Notation "m ;; k" := (bind m (fun _ => k))
  (at level 100, k at level 200, right associativity) : js_scope.
Local Open Scope js_scope.

(** State reached by a handler when control returns to the event loop.
    An exception that reaches the event loop is not followed further; in
    the states the server can reach none does ([no_exception_escapes]
    below). *)
Definition exec (m : M unit) (s : Server) : Server := snd (m s).

(** [ws.send(frame)] without callback: transmits on an open socket,
    throws on one that is still connecting, and transmits nothing once the
    socket is closing or closed. *)
Definition send (h : handle) (f : Frame) : M unit :=
  fun s => match heap s !! h with
           | Some w =>
               match readyState w with
               | CONNECTING => (Throw SocketError, s)
               | OPEN => (Ok tt, with_heap (insert h (push f w)) s)
               | _ => (Ok tt, s)
               end
           | None => (Ok tt, s)
           end.

(** [ws.close()] *)
Definition close (h : handle) : M unit :=
  modify (with_heap (alter closed_by_call h)).

(** A socket object that did not exist before. *)
Definition alloc (st : ReadyState) (l : Listeners) : M handle :=
  fun s =>
    let h := fresh (dom (heap s)) in
    (Ok h, with_heap (insert h {| readyState := st; sent := []; closeCalls := 0;
                                  listeners := l |}) s).

Definition is_open (h : handle) : M bool :=
  gets (fun s => bool_decide (readyState_of h s = OPEN)).

(** [connection.field = value] on the record registered under [id]. *)
Definition update (id : string) (f : Connection → Connection) : M unit :=
  modify (with_connections (alter f id)).

Definition text (v : JsonValue) : Frame := Text (JSON_stringify v).

(** ** index.js *)

Definition systemInstruction : string :=
"You are Rev, the AI assistant for Revolt Motors, an innovative electric vehicle company. 
                
Key information about Revolt Motors:
- Leading manufacturer of electric motorcycles and scooters
- Founded with a mission to revolutionize urban mobility
- Known for high-performance, eco-friendly electric vehicles
- Offers smart connectivity features and IoT integration
- Focuses on sustainable transportation solutions

Your personality:
- Friendly, knowledgeable, and enthusiastic about electric vehicles
- Speak naturally and conversationally
- Keep responses concise but informative
- Show passion for sustainable transportation and innovation

Guidelines:
- Always stay in character as Rev from Revolt Motors
- Provide helpful information about electric vehicles, sustainability, and Revolt Motors
- If asked about competitors, be respectful but highlight Revolt's unique advantages
- For technical questions outside your expertise, acknowledge limitations
- Encourage interest in electric mobility and environmental consciousness

Remember: You're having a voice conversation, so speak naturally and avoid overly formal language.".

Section Relay.

(** [process.env.GEMINI_API_KEY || process.env.GOOGLE_API_KEY ||
    process.env.API_KEY] and [process.env.GEMINI_MODEL ||
    "gemini-2.0-flash-live-001"] (lines 9-10). An unset variable is
    [None]. *)
Variable GEMINI_API_KEY : option string.
Variable GEMINI_MODEL : string.

Definition setupMessage : JsonValue :=
  JObject [("setup", JObject [
    ("model", JString ("models/" +:+ GEMINI_MODEL));
    ("generationConfig", JObject [
       ("responseModalities", JArray [JString "AUDIO"]);
       ("speechConfig", JObject [
          ("voiceConfig", JObject [
             ("prebuiltVoiceConfig", JObject [("voiceName", JString "Aoede")])])])]);
    ("systemInstruction", JObject [
       ("parts", JArray [JObject [("text", JString systemInstruction)]])]);
    ("realtimeInputConfig", JObject [
       ("automaticActivityDetection", JObject [
          ("disabled", JBool false);
          ("startOfSpeechSensitivity", JString "START_SENSITIVITY_HIGH");
          ("endOfSpeechSensitivity", JString "END_SENSITIVITY_HIGH");
          ("prefixPaddingMs", JNumber 300);
          ("silenceDurationMs", JNumber 1000)]);
       ("activityHandling", JString "START_OF_ACTIVITY_INTERRUPTS")])])].

Definition missingKeyError : JsonValue :=
  JObject [("type", JString "error");
           ("message", JString "Server is missing Gemini API key. Ask the administrator to set GEMINI_API_KEY.")].

Definition connectFailedError : JsonValue :=
  JObject [("type", JString "error"); ("message", JString "Failed to connect to Gemini Live API")].

(** [async function initializeGeminiSession(connectionId, clientWs)]
    (lines 68-207).  [now] is the value of [Date.now()] at line 97.  The
    listeners of lines 101-197 are installed on the new socket; they are
    [gemini_on_open] and the three handlers after it.  [new WebSocket] of
    line 83 is taken to return a socket: the credential is taken to be a
    legal header value (with one that is not, the constructor throws, the
    [catch] of lines 198-206 tells the client, and no record is made). *)
Definition initializeGeminiSession (connectionId : string) (clientWs : handle) (now : Z)
  : M unit :=
  try_catch
    (if negb (truthy (JString <$> GEMINI_API_KEY)) then
       let* o := is_open clientWs in
       when o (send clientWs (text missingKeyError))
     else
       let* geminiWs := alloc CONNECTING (GeminiListeners connectionId) in
       modify (with_connections (insert connectionId
         {| clientWs := clientWs; geminiWs := geminiWs; connected := false;
            lastActivity := now; isGenerating := false |})))
    (send clientWs (text connectFailedError)).

Definition connectedStatus (connectionId : string) : JsonValue :=
  JObject [("type", JString "connection"); ("status", JString "connected");
           ("connectionId", JString connectionId)].

Definition generationCompleteEvent : JsonValue := JObject [("type", JString "generation_complete")].
Definition interruptedEvent : JsonValue := JObject [("type", JString "interrupted")].
Definition turnCompleteEvent : JsonValue := JObject [("type", JString "turn_complete")].

(** Body of the loop of lines 231-237 for one [part].  [Buffer.from] is
    applied to string data only; for any other value it is taken to throw,
    as it does for [undefined], [null], numbers and booleans. *)
Definition forwardPart (client : handle) (part : JsonValue) : M unit :=
  let* inlineData := lift (get (Some part) "inlineData") in
  if truthy inlineData then
    let* mimeType := lift (get inlineData "mimeType") in
    match mimeType with
    | Some (JString mime) =>
        if startsWith mime "audio/" then
          let* data := lift (get inlineData "data") in
          match data with
          | Some (JString d) => send client (Binary (Buffer.from_base64 d))
          | _ => throw TypeError
          end
        else ret tt
    | _ => throw TypeError
    end
  else ret tt.

Fixpoint forEach {A} (body : A → M unit) (l : list A) : M unit :=
  match l with
  | [] => ret tt
  | x :: l' => body x;; forEach body l'
  end.

(** [for (const part of parts)] over a truthy [parts]: an array yields its
    elements; a string yields one-character strings, none of which has an
    [inlineData]; any other value is not iterable. *)
Definition forOfParts (client : handle) (parts : JsValue) : M unit :=
  match parts with
  | Some (JArray items) => forEach (forwardPart client) items
  | Some (JString _) => ret tt
  | _ => throw TypeError
  end.

(** [function handleGeminiMessage(connectionId, message)] (lines 210-268) *)
Definition handleGeminiMessage (connectionId : string) (message : JsonValue) : M unit :=
  let* connection := gets (fun s => activeConnections s !! connectionId) in
  match connection with
  | None => ret tt
  | Some connection =>
      let* o := is_open (clientWs connection) in
      if negb o then ret tt else
      let* setupComplete := lift (get (Some message) "setupComplete") in
      when (truthy setupComplete)
        (update connectionId (set_connected true);;
         send (clientWs connection) (text (connectedStatus connectionId)));;
      let* content := lift (get (Some message) "serverContent") in
      if truthy content then
        let* modelTurn := lift (get content "modelTurn") in
        (if truthy modelTurn then
           let* parts := lift (get modelTurn "parts") in
           when (truthy parts) (forOfParts (clientWs connection) parts)
         else ret tt);;
        let* generationComplete := lift (get content "generationComplete") in
        when (truthy generationComplete)
          (update connectionId (set_isGenerating false);;
           send (clientWs connection) (text generationCompleteEvent));;
        let* interrupted := lift (get content "interrupted") in
        when (truthy interrupted)
          (update connectionId (set_isGenerating false);;
           send (clientWs connection) (text interruptedEvent));;
        let* turnComplete := lift (get content "turnComplete") in
        when (truthy turnComplete)
          (update connectionId (set_isGenerating false);;
           send (clientWs connection) (text turnCompleteEvent))
      else ret tt
  end.

Definition audioInput (audioData : Buffer.t) : JsonValue :=
  JObject [("realtimeInput", JObject [
    ("audio", JObject [("mimeType", JString "audio/pcm");
                       ("data", JString (Buffer.toString_base64 audioData))])])].

(** [async function handleAudioInput(connectionId, audioData)] (lines
    271-291); [now] is [Date.now()] at line 278. *)
Definition handleAudioInput (connectionId : string) (audioData : Buffer.t) (now : Z)
  : M unit :=
  let* connection := gets (fun s => activeConnections s !! connectionId) in
  match connection with
  | None => ret tt
  | Some connection =>
      if negb (connected connection) then ret tt else
      let* o := is_open (geminiWs connection) in
      if negb o then ret tt else
      update connectionId (set_lastActivity now);;
      send (geminiWs connection) (text (audioInput audioData))
  end.

Definition pong : JsonValue := JObject [("type", JString "pong")].

Definition interruptMessage : JsonValue :=
  JObject [("realtimeInput", JObject [("activityStart", JObject [])])].

Definition endMessage : JsonValue :=
  JObject [("realtimeInput", JObject [("audioStreamEnd", JBool true)])].

(** [async function handleClientMessage(connectionId, message)] (lines
    294-330) *)
Definition handleClientMessage (connectionId : string) (message : JsonValue) : M unit :=
  let* connection := gets (fun s => activeConnections s !! connectionId) in
  match connection with
  | None => ret tt
  | Some connection =>
      let* type := lift (get (Some message) "type") in
      match type with
      | Some (JString ty) =>
          if String.eqb ty "ping" then send (clientWs connection) (text pong)
          else if String.eqb ty "interrupt" then
            let* o := is_open (geminiWs connection) in
            when o (send (geminiWs connection) (text interruptMessage))
          else if String.eqb ty "audio_stream_end" then
            let* o := is_open (geminiWs connection) in
            when o (send (geminiWs connection) (text endMessage))
          else ret tt
      | _ => ret tt
      end
  end.

(** [function cleanupConnection(connectionId)] (lines 333-341) *)
Definition cleanupConnection (connectionId : string) : M unit :=
  let* connection := gets (fun s => activeConnections s !! connectionId) in
  match connection with
  | Some connection =>
      let* o := is_open (geminiWs connection) in
      when o (close (geminiWs connection));;
      modify (with_connections (delete connectionId))
  | None => ret tt
  end.

(** [function generateConnectionId()] (lines 344-346), from the values of
    [Date.now()] and [crypto.randomBytes(4)]. *)
Definition generateConnectionId (now : Z) (randomBytes : Buffer.t) : string :=
  "conn_" +:+ pretty now +:+ "_" +:+ Buffer.toString_hex randomBytes.

(** *** Listeners *)

(** What arrives in a client [message] event, told apart by
    [data instanceof Buffer] (line 42): a [Buffer], which line 44 hands
    to [handleAudioInput], or anything else, which lines 47-48 take to be
    the text of a message; text is given by what [JSON.parse] makes of it
    ([None] when it throws).  Which frames of a client arrive as [Buffer]s
    is the [ws] package's doing: see [deliver]. *)
Inductive ClientData :=
| BinaryData (audio : Buffer.t)
| TextData (parsed : option JsonValue).

Definition processError : JsonValue :=
  JObject [("type", JString "error"); ("message", JString "Failed to process message")].

(** [ws.on("message", ...)] (lines 40-54) *)
Definition client_on_message (connectionId : string) (ws : handle) (data : ClientData)
    (now : Z) : M unit :=
  try_catch
    match data with
    | BinaryData audio => handleAudioInput connectionId audio now
    | TextData None => throw SyntaxError
    | TextData (Some message) => handleClientMessage connectionId message
    end
    (send ws (text processError)).

(** [geminiWs.on("open", ...)] (lines 101-161) *)
Definition gemini_on_open (geminiWs : handle) : M unit :=
  send geminiWs (text setupMessage).

(** [geminiWs.on("message", ...)] (lines 163-170) *)
Definition gemini_on_message (connectionId : string) (payload : option JsonValue) : M unit :=
  try_catch
    match payload with
    | None => throw SyntaxError
    | Some message => handleGeminiMessage connectionId message
    end
    (ret tt).

Definition disconnectedStatus : JsonValue :=
  JObject [("type", JString "connection"); ("status", JString "disconnected");
           ("message", JString "Gemini session ended")].

Definition geminiFailedError : JsonValue :=
  JObject [("type", JString "error"); ("message", JString "Gemini connection failed")].

(** Lines 174-183 and 188-196: tell the client, if it is still there. *)
Definition notifyClient (connectionId : string) (v : JsonValue) : M unit :=
  let* connection := gets (fun s => activeConnections s !! connectionId) in
  match connection with
  | Some connection =>
      let* o := is_open (clientWs connection) in
      when o (send (clientWs connection) (text v))
  | None => ret tt
  end.

(** [geminiWs.on("close", ...)] (lines 172-184) *)
Definition gemini_on_close (connectionId : string) : M unit :=
  notifyClient connectionId disconnectedStatus.

(** [geminiWs.on("error", ...)] (lines 186-197) *)
Definition gemini_on_error (connectionId : string) : M unit :=
  notifyClient connectionId geminiFailedError.

(** [wss.on("connection", ...)] (lines 33-65).  The client socket exists
    and is open when the server hands it over. *)
Definition on_connection (now : Z) (randomBytes : Buffer.t) (now' : Z) : M unit :=
  let connectionId := generateConnectionId now randomBytes in
  let* ws := alloc OPEN (ClientListeners connectionId) in
  initializeGeminiSession connectionId ws now'.

(** The sweep of lines 376-386.  Deleting entries of a [Map] while
    iterating over it is allowed, and an entry is visited once. *)
Definition timeout : Z := 5 * 60 * 1000.

Definition sweep (now : Z) : M unit :=
  let* entries := gets (fun s => map_to_list (activeConnections s)) in
  forEach (fun e : string * Connection =>
             when (now - lastActivity (snd e) >? timeout) (cleanupConnection (fst e)))
          entries.

(** The loop of the [SIGTERM] and [SIGINT] handlers (lines 408-430).
    [server.close] and [process.exit] end the process; that events keep
    arriving afterwards only adds runs. *)
Definition shutdown : M unit :=
  let* entries := gets (fun s => map_to_list (activeConnections s)) in
  forEach (fun e : string * Connection => cleanupConnection (fst e)) entries.


(** [activeConnections.size], as reported by [/health] and [/stats]. *)
Definition totalConnections (s : Server) : nat := size (activeConnections s).

(** ** The event loop *)

Inductive Signal := SIGTERM | SIGINT.

(** One event delivered by the runtime.  Socket events name the socket
    that emits them; clock readings and random bytes come with the event
    that consumes them. *)
Inductive Event :=
| Connect (now : Z) (r0 r1 r2 r3 : byte) (now' : Z)
| ClientMessage (ws : handle) (data : ClientData) (now : Z)
| ClientClose (ws : handle)
| ClientError (ws : handle)
| GeminiOpen (geminiWs : handle)
| GeminiMessage (geminiWs : handle) (payload : option JsonValue)
| GeminiClose (geminiWs : handle)
| GeminiError (geminiWs : handle)
| Tick (now : Z)
| Kill (sig : Signal).

Definition set_readyState (h : handle) (st : ReadyState) : M unit :=
  modify (with_heap (alter (with_readyState st) h)).

(** The listeners of the socket that emits an event. *)
Definition listeners_of (h : handle) (s : Server) : option Listeners :=
  listeners <$> heap s !! h.

(** The handler of one event, run to completion.  The socket's state is
    the one the [ws] package has given it when the listener runs: open
    after [open], closed after [close], closing after [error]. *)
Definition handler (e : Event) : M unit :=
  match e with
  | Connect now r0 r1 r2 r3 now' => on_connection now [r0; r1; r2; r3] now'
  | ClientMessage ws data now =>
      let* l := gets (listeners_of ws) in
      match l with
      | Some (ClientListeners id) => client_on_message id ws data now
      | _ => ret tt
      end
  | ClientClose ws =>
      let* l := gets (listeners_of ws) in
      match l with
      | Some (ClientListeners id) => set_readyState ws CLOSED;; cleanupConnection id
      | _ => ret tt
      end
  | ClientError ws =>
      let* l := gets (listeners_of ws) in
      match l with
      | Some (ClientListeners id) => set_readyState ws CLOSING;; cleanupConnection id
      | _ => ret tt
      end
  | GeminiOpen g =>
      let* l := gets (listeners_of g) in
      let* st := gets (readyState_of g) in
      match l, st with
      | Some (GeminiListeners _), CONNECTING => set_readyState g OPEN;; gemini_on_open g
      | _, _ => ret tt
      end
  | GeminiMessage g payload =>
      let* l := gets (listeners_of g) in
      match l with
      | Some (GeminiListeners id) => gemini_on_message id payload
      | _ => ret tt
      end
  | GeminiClose g =>
      let* l := gets (listeners_of g) in
      match l with
      | Some (GeminiListeners id) => set_readyState g CLOSED;; gemini_on_close id
      | _ => ret tt
      end
  | GeminiError g =>
      let* l := gets (listeners_of g) in
      match l with
      | Some (GeminiListeners id) => set_readyState g CLOSING;; gemini_on_error id
      | _ => ret tt
      end
  | Tick now => sweep now
  | Kill _ => shutdown
  end.

Definition step (s : Server) (e : Event) : Server := exec (handler e) s.

Definition run (s : Server) (es : list Event) : Server := foldl step s es.

End Relay.
(** * Properties *)

(** How the flag [connected] of a record may change from one state to a
    later one, per connection id. *)
Definition evolves (P : string → bool → bool → Prop) (s s' : Server) : Prop :=
  (∀ h w, heap s !! h = Some w →
          ∃ w', heap s' !! h = Some w' ∧ listeners w' = listeners w)
  ∧ (∀ id c', activeConnections s' !! id = Some c' →
       (heap s !! geminiWs c' = None ∧ is_Some (heap s' !! geminiWs c'))
       ∨ (∃ c, activeConnections s !! id = Some c ∧ geminiWs c' = geminiWs c
               ∧ clientWs c' = clientWs c ∧ P id (connected c) (connected c'))).

Definition preserves {A} (R : Server → Server → Prop) (m : M A) : Prop :=
  ∀ s, R s (snd (m s)).


(** [flips Q id b b']: the flag is unchanged, or goes from false to true
    and [Q id] holds. *)
Definition flips (Q : string → Prop) (id : string) (b b' : bool) : Prop :=
  b = b' ∨ (b = false ∧ b' = true ∧ Q id).

(** A message carrying a truthy [setupComplete]. *)
Definition setupComplete_in (m : JsonValue) : Prop :=
  ∃ v, get (Some m) "setupComplete" = Ok v ∧ truthy v = true.

(** [e] delivers such a message on an upstream socket whose listeners
    belong to connection [id]. *)
Definition setup_for (s : Server) (e : Event) (id : string) : Prop :=
  ∃ g m, e = GeminiMessage g (Some m)
         ∧ listeners_of g s = Some (GeminiListeners id) ∧ setupComplete_in m.

Definition setup_among (s : Server) (es : list Event) (id : string) : Prop :=
  ∃ e, e ∈ es ∧ setup_for s e id.

(** The state after an audio frame was forwarded. *)
Definition forwarded (id : string) (c : Connection) (audio : Buffer.t) (now : Z)
    (s : Server) : Server :=
  {| activeConnections := alter (set_lastActivity now) id (activeConnections s);
     heap := alter (push (text (audioInput audio))) (geminiWs c) (heap s) |}.


(** The client message events that deliver the binary frames [frames],
    each with the time at which it is handled. *)
Definition audioFrames (ws : handle) (frames : list (Buffer.t * Z)) : list Event :=
  (fun f => ClientMessage ws (BinaryData (fst f)) (snd f)) <$> frames.


(** An upstream message that carries the single signal [k]. *)
Definition signal (k : string) : option JsonValue :=
  Some (JObject [("serverContent", JObject [(k, JBool true)])]).



(** ** A server without credential *)

Definition is_client (w : WebSocket) : bool :=
  match listeners w with
  | ClientListeners _ => true
  | GeminiListeners _ => false
  end.





(** ** Reading back hexadecimal text *)

Definition unhex_digit (c : ascii) : N :=
  let n := N_of_ascii c in
  if (n <? 58)%N then (n - 48)%N else (n - 87)%N.

Fixpoint from_hex (s : string) : Buffer.t :=
  match s with
  | String hi (String lo s') =>
      Buffer.byte_of (unhex_digit hi * 16 + unhex_digit lo) :: from_hex s'
  | _ => []
  end.


(** ** Audio on an upstream socket *)

(** How the text of an audio-input envelope begins. *)
Definition audioPrefix : string :=
  "{" +:+ dquote +:+ "realtimeInput" +:+ dquote +:+ ":{" +:+ dquote +:+ "audio" +:+ dquote +:+ ":".

Definition is_audio_envelope (f : Frame) : bool :=
  match f with
  | Text s => startsWith s audioPrefix
  | Binary _ => false
  end.

(** The audio-input envelopes sent on socket [g] so far, oldest first. *)
Definition audio_sent (g : handle) (s : Server) : list Frame :=
  filter (fun f => is_audio_envelope f = true) (sent_of g s).

(** No audio-input envelope is added on [g]. *)
Definition quiet (g : handle) (s s' : Server) : Prop := audio_sent g s' = audio_sent g s.

(** The payload of [e], if [e] is a binary frame of a client whose record
    is ready and owns the open upstream socket [g]. *)
Definition forwards_to (g : handle) (s : Server) (e : Event) : list Buffer.t :=
  match e with
  | ClientMessage ws (BinaryData audio) _ =>
      match listeners_of ws s with
      | Some (ClientListeners id) =>
          match activeConnections s !! id with
          | Some c =>
              if connected c && bool_decide (readyState_of (geminiWs c) s = OPEN)
                 && bool_decide (geminiWs c = g)
              then [audio] else []
          | None => []
          end
      | _ => []
      end
  | _ => []
  end.

(** The binary frames of a run that are forwarded to the upstream socket
    [g], in the order of arrival. *)
Fixpoint forwarded_frames (key : option string) (model : string) (g : handle)
    (s : Server) (es : list Event) : list Buffer.t :=
  match es with
  | [] => []
  | e :: es' => forwards_to g s e ++ forwarded_frames key model g (step key model s e) es'
  end.

(** Every record owns an upstream socket that exists, and no two records
    own the same one. *)
Definition distinct_upstreams (s : Server) : Prop :=
  (∀ id c, activeConnections s !! id = Some c → is_Some (heap s !! geminiWs c))
  ∧ (∀ id1 id2 c1 c2,
       activeConnections s !! id1 = Some c1 → activeConnections s !! id2 = Some c2 →
       geminiWs c1 = geminiWs c2 → id1 = id2).

Definition keeps_distinct (s s' : Server) : Prop :=
  distinct_upstreams s → distinct_upstreams s'.

(** The record under [id] is ready and owns the open upstream socket [g]. *)
Definition ready (id : string) (g : handle) (s : Server) : bool :=
  match activeConnections s !! id with
  | Some c =>
      connected c && bool_decide (geminiWs c = g) && bool_decide (readyState_of g s = OPEN)
  | None => false
  end.

(** ... before every event of the run [es] from [s]. *)
Fixpoint ready_throughout (key : option string) (model : string) (id : string) (g : handle)
    (s : Server) (es : list Event) : bool :=
  match es with
  | [] => true
  | e :: es' => ready id g s && ready_throughout key model id g (step key model s e) es'
  end.

(** The payload of [e], if [e] is a binary frame on a client socket whose
    listeners belong to connection [id]. *)
Definition audio_from (id : string) (s : Server) (e : Event) : list Buffer.t :=
  match e with
  | ClientMessage ws (BinaryData audio) _ =>
      match listeners_of ws s with
      | Some (ClientListeners id') => if bool_decide (id' = id) then [audio] else []
      | _ => []
      end
  | _ => []
  end.

(** The binary frames that the clients of connection [id] send in the run
    [es] from [s], in the order of arrival. *)
Fixpoint client_audio (key : option string) (model : string) (id : string)
    (s : Server) (es : list Event) : list Buffer.t :=
  match es with
  | [] => []
  | e :: es' => audio_from id s e ++ client_audio key model id (step key model s e) es'
  end.

(** ** Exceptions *)

(** No client socket is still connecting. *)
Definition clients_connected (s : Server) : Prop :=
  ∀ h w, heap s !! h = Some w → is_client w = true → readyState w ≠ CONNECTING.

Definition keeps_clients_connected (s s' : Server) : Prop :=
  clients_connected s → clients_connected s'.

(** [m] returns normally from [s]. *)
Definition returns (m : M unit) (s : Server) : Prop := fst (m s) = Ok tt.


(** ** What a client sends and what the listener is handed *)

(** A frame as a client puts it on the wire: a binary frame with its
    bytes, or a text frame with its characters (as UTF-8 bytes) and what
    [JSON.parse] makes of them ([None] when it throws). *)
Inductive ClientFrame :=
| BinaryFrame (bytes : Buffer.t)
| TextFrame (chars : string) (parsed : option JsonValue).

(** How the [ws] package hands a frame to the [message] listener.  Up to
    version 7 a text frame arrives as a string and a binary frame as a
    [Buffer]; from version 8 on every frame arrives as a [Buffer], together
    with a flag [isBinary] that the listener of line 40 does not take.
    [server/index.js] requires the package without saying which version. *)
Inductive Delivery := Strings | Buffers.

(** The value that line 42 tests with [data instanceof Buffer]. *)
Definition deliver (d : Delivery) (f : ClientFrame) : ClientData :=
  match f with
  | BinaryFrame bytes => BinaryData bytes
  | TextFrame chars parsed =>
      match d with
      | Strings => TextData parsed
      | Buffers => BinaryData (list_byte_of_string chars)
      end
  end.


(** The [ping] message and the text frame that carries it. *)
Definition pingMessage : JsonValue := JObject [("type", JString "ping")].

Definition pingFrame : ClientFrame := TextFrame (JSON_stringify pingMessage) (Some pingMessage).

(** The text that [JSON.stringify] makes of the object of lines 281-288,
    around the text [data] of its [data] member. *)
Definition audioInputText (data : string) : string :=
  "{" +:+ dquote +:+ "realtimeInput" +:+ dquote +:+ ":{"
  +:+ dquote +:+ "audio" +:+ dquote +:+ ":{"
  +:+ dquote +:+ "mimeType" +:+ dquote +:+ ":" +:+ dquote +:+ "audio/pcm" +:+ dquote +:+ ","
  +:+ dquote +:+ "data" +:+ dquote +:+ ":" +:+ dquote +:+ data +:+ dquote +:+ "}}}".

(** ** The ready flag *)

(** No socket has been created. *)
Definition keeps_sockets (s s' : Server) : Prop :=
  ∀ h, heap s !! h = None → heap s' !! h = None.

(** The record under [id] is ready and its sockets are [ws] and [g]. *)
Definition ready_record (id : string) (ws g : handle) (s : Server) : Prop :=
  ∃ c, activeConnections s !! id = Some c
       ∧ connected c = true ∧ geminiWs c = g ∧ clientWs c = ws.

Definition keeps_ready (id : string) (ws g : handle) (s s' : Server) : Prop :=
  ready_record id ws g s → ready_record id ws g s'.

(** ** The idle sweep and shutdown *)

(** A record that the sweep at time [now] removes (line 381). *)
Definition expired (now : Z) (c : Connection) : bool := now - lastActivity c >? timeout.

(** ** Control messages and upstream events *)

(** The control types that are passed on upstream, with the envelope each
    is turned into (lines 303-325). *)
Definition control (ty : string) (v : JsonValue) : Prop :=
  (ty = "interrupt" ∧ v = interruptMessage) ∨ (ty = "audio_stream_end" ∧ v = endMessage).

(** [message.type] is one of the three types of the [switch] at line 298. *)
Definition known_type (v : JsValue) : bool :=
  match v with
  | Some (JString ty) =>
      String.eqb ty "ping" || String.eqb ty "interrupt" || String.eqb ty "audio_stream_end"
  | _ => false
  end.

(** A [modelTurn] part with inline data of the given MIME type. *)
Definition inlinePart (p : string * string) : JsonValue :=
  JObject [("inlineData", JObject [("mimeType", JString (fst p)); ("data", JString (snd p))])].

(** An upstream content message with the given parts and further members. *)
Definition contentMessage (parts : list JsonValue) (others : list (string * JsonValue))
  : JsonValue :=
  JObject [("serverContent",
            JObject (("modelTurn", JObject [("parts", JArray parts)]) :: others))].

(** The binary frames that the parts [ps] give rise to: the decoded data of
    those whose MIME type starts with [audio/]. *)
Definition audioOut (ps : list (string * string)) : list Frame :=
  (fun p => Binary (Buffer.from_base64 (snd p)))
    <$> List.filter (fun p => startsWith (fst p) "audio/") ps.

(** The socket [g] exists and no record owns it as its upstream socket. *)
Definition orphan (g : handle) (s : Server) : Prop :=
  is_Some (heap s !! g) ∧ ∀ id c, activeConnections s !! id = Some c → geminiWs c ≠ g.

Definition stays_orphan (g : handle) (s s' : Server) : Prop :=
  orphan g s → orphan g s' ∧ closeCalls_of g s' = closeCalls_of g s.

(** ** Invariants of the reachable states *)

(** The sockets that a record holds are the ones whose listeners were
    created for the record's id. *)
Definition wired (s : Server) : Prop :=
  ∀ id c, activeConnections s !! id = Some c →
    listeners_of (clientWs c) s = Some (ClientListeners id)
    ∧ listeners_of (geminiWs c) s = Some (GeminiListeners id).

Definition keeps_wired (s s' : Server) : Prop := wired s → wired s'.

(** [close] has been called at most once on a socket, never on a client
    socket, and a socket on which it has been called is closing or closed.
    The upstream socket of a record is not a client socket. *)
Definition closed_once (w : WebSocket) : Prop :=
  (closeCalls w ≤ 1)%nat
  ∧ (closeCalls w = 0%nat ∨ is_client w = false)
  ∧ (closeCalls w = 0%nat ∨ readyState w = CLOSING ∨ readyState w = CLOSED).

Definition close_discipline (s : Server) : Prop :=
  map_Forall (fun _ w => closed_once w) (heap s)
  ∧ (∀ id c, activeConnections s !! id = Some c →
       ∃ w, heap s !! geminiWs c = Some w ∧ is_client w = false).

Definition keeps_close_discipline (s s' : Server) : Prop :=
  close_discipline s → close_discipline s'.

(** How the text of the set-up message begins. *)
Definition setupPrefix : string := "{" +:+ dquote +:+ "setup" +:+ dquote +:+ ":".

Definition is_setup (f : Frame) : bool :=
  match f with
  | Text s => startsWith s setupPrefix
  | Binary _ => false
  end.

(** What has been sent on a socket, with respect to the set-up message: a
    client socket has never been sent one; an upstream socket has been sent
    nothing as long as it has not opened, and after that the set-up message
    first and no second one. *)
Definition handshake (model : string) (w : WebSocket) : Prop :=
  if is_client w then Forall (fun f => is_setup f = false) (sent w)
  else (sent w = [] ∧ readyState w ≠ OPEN)
       ∨ (∃ rest, sent w = text (setupMessage model) :: rest
                  ∧ Forall (fun f => is_setup f = false) rest
                  ∧ readyState w ≠ CONNECTING).

Definition handshaken (model : string) (s : Server) : Prop :=
  map_Forall (fun _ w => handshake model w) (heap s).

Definition keeps_handshaken (model : string) (s s' : Server) : Prop :=
  handshaken model s → handshaken model s'.


(** ** What counts as activity *)

(** The events that can write the [lastActivity] of the record under [id]:
    a [Buffer] handed to the message listener (line 278), and a new
    connection that is given the same id (line 97). *)
Definition refreshes (id : string) (e : Event) : bool :=
  match e with
  | Connect now r0 r1 r2 r3 _ => bool_decide (generateConnectionId now [r0; r1; r2; r3] = id)
  | ClientMessage _ (BinaryData _) _ => true
  | _ => false
  end.

(** The record under [id], if there is one, was last active at [t]. *)
Definition activity_is (id : string) (t : Z) (s : Server) : Prop :=
  ∀ c, activeConnections s !! id = Some c → lastActivity c = t.

Definition keeps_activity (id : string) (t : Z) (s s' : Server) : Prop :=
  activity_is id t s → activity_is id t s'.

(** ** Connections side by side *)

(** The socket on which an event is emitted. *)
Definition socket_of (e : Event) : option handle :=
  match e with
  | ClientMessage ws _ _ | ClientClose ws | ClientError ws => Some ws
  | GeminiOpen g | GeminiMessage g _ | GeminiClose g | GeminiError g => Some g
  | Connect _ _ _ _ _ _ | Tick _ | Kill _ => None
  end.

(** The connection id that the listeners of a socket were created with. *)
Definition id_of (l : Listeners) : string :=
  match l with
  | ClientListeners id | GeminiListeners id => id
  end.

(** The socket [h] and the two sockets of the record under [id]. *)
Definition touched (id : string) (h : handle) (s : Server) (h' : handle) : Prop :=
  h' = h ∨ ∃ c, activeConnections s !! id = Some c ∧ (h' = clientWs c ∨ h' = geminiWs c).

(** From [s] to [s'] no record other than the one under [id] and no socket
    outside [H] has changed. *)
Definition confined (H : handle → Prop) (id : string) (s s' : Server) : Prop :=
  (∀ id', id' ≠ id → activeConnections s' !! id' = activeConnections s !! id')
  ∧ (∀ h, ¬ H h → heap s' !! h = heap s !! h).

(** ** Sanity checks of the wire formats *)

Example stringify_pong :
  JSON_stringify pong
  = "{" +:+ dquote +:+ "type" +:+ dquote +:+ ":" +:+ dquote +:+ "pong" +:+ dquote +:+ "}".
Proof. reflexivity. Qed.

Example stringify_escapes :
  JSON_stringify (JArray [JString (String (ascii_of_nat 10) "a"); JNumber (-3); JNull])
  = "[" +:+ dquote +:+ backslash +:+ "na" +:+ dquote +:+ ",-3,null]".
Proof. reflexivity. Qed.

Example base64_Man : Buffer.toString_base64 ["M"%byte; "a"%byte; "n"%byte] = "TWFu".
Proof. reflexivity. Qed.

Example base64_Ma : Buffer.toString_base64 ["M"%byte; "a"%byte] = "TWE=".
Proof. reflexivity. Qed.

Example base64_M : Buffer.toString_base64 ["M"%byte] = "TQ==".
Proof. reflexivity. Qed.

Example from_base64_Ma : Buffer.from_base64 "TWE=" = ["M"%byte; "a"%byte].
Proof. reflexivity. Qed.

Example hex_deadbeef : Buffer.toString_hex [xde; xad; xbe; xef] = "deadbeef".
Proof. reflexivity. Qed.

Example connection_id :
  generateConnectionId 1700000000000 [x00; x01; xfe; xff] = "conn_1700000000000_0001feff".
Proof. reflexivity. Qed.

Ltac unfold_js :=
  cbv beta iota zeta delta
    [exec bind ret throw lift gets modify when try_catch is_open update close set_readyState].

Section Preservation.
Variable R : Server → Server → Prop.
Hypothesis R_refl : ∀ s, R s s.
Hypothesis R_trans : ∀ s1 s2 s3, R s1 s2 → R s2 s3 → R s1 s3.

Lemma preserves_ret {A} (a : A) : preserves R (ret a).
Proof. intros s. apply R_refl. Qed.

Lemma preserves_throw {A} e : preserves R (@throw A e).
Proof. intros s. apply R_refl. Qed.

Lemma preserves_lift {A} (o : Outcome A) : preserves R (lift o).
Proof. intros s. apply R_refl. Qed.

Lemma preserves_gets {A} (f : Server → A) : preserves R (gets f).
Proof. intros s. apply R_refl. Qed.

Lemma preserves_is_open h : preserves R (is_open h).
Proof. apply preserves_gets. Qed.

Lemma preserves_bind {A B} (m : M A) (k : A → M B) :
  preserves R m → (∀ a, preserves R (k a)) → preserves R (bind m k).
Proof.
  intros Hm Hk s. unfold bind. specialize (Hm s).
  destruct (m s) as [[a|e] s1]; simpl in *; [|done].
  eapply R_trans; [exact Hm|apply Hk].
Qed.

Lemma preserves_try_catch (body handler : M unit) :
  preserves R body → preserves R handler → preserves R (try_catch body handler).
Proof.
  intros Hb Hh s. unfold try_catch. specialize (Hb s).
  destruct (body s) as [[a|e] s1]; simpl in *; [done|].
  eapply R_trans; [exact Hb|apply Hh].
Qed.

Lemma preserves_when b (m : M unit) : preserves R m → preserves R (when b m).
Proof. intros Hm. destruct b; [exact Hm|apply preserves_ret]. Qed.

Lemma preserves_forEach {A} (body : A → M unit) l :
  (∀ x, preserves R (body x)) → preserves R (forEach body l).
Proof.
  intros Hb. induction l as [|x l IH]; simpl.
  - apply preserves_ret.
  - apply preserves_bind; [apply Hb|intros _; exact IH].
Qed.
End Preservation.

Section Evolves.
Variable P : string → bool → bool → Prop.
Hypothesis P_refl : ∀ id b, P id b b.
Hypothesis P_trans : ∀ id b1 b2 b3, P id b1 b2 → P id b2 b3 → P id b1 b3.

Lemma evolves_refl s : evolves P s s.
Proof.
  split; [eauto|]. intros id c' Hc. right. exists c'. eauto.
Qed.

Lemma evolves_trans s1 s2 s3 : evolves P s1 s2 → evolves P s2 s3 → evolves P s1 s3.
Proof.
  intros [Hh1 Hr1] [Hh2 Hr2]. split.
  - intros h w Hw. destruct (Hh1 _ _ Hw) as (w' & Hw' & El).
    destruct (Hh2 _ _ Hw') as (w'' & Hw'' & El'). exists w''. split; [done|congruence].
  - intros id c3 Hc3. destruct (Hr2 _ _ Hc3) as [[Hn Hs]|(c2 & Hc2 & Eg & Ec & HP)].
    + left. split; [|done].
      destruct (heap s1 !! geminiWs c3) as [w|] eqn:E; [|done].
      destruct (Hh1 _ _ E) as (w' & Hw' & _). congruence.
    + destruct (Hr1 _ _ Hc2) as [[Hn Hs]|(c1 & Hc1 & Eg1 & Ec1 & HP1)].
      * left. rewrite Eg. split; [done|].
        destruct Hs as [w Hw]. destruct (Hh2 _ _ Hw) as (w' & Hw' & _). eauto.
      * right. exists c1. split_and!; [done|congruence|congruence|eauto].
Qed.

Lemma evolves_heap_only s f :
  (∀ h w, heap s !! h = Some w → ∃ w', f (heap s) !! h = Some w' ∧ listeners w' = listeners w) →
  evolves P s (with_heap f s).
Proof.
  intros Hf. split; [exact Hf|]. intros id c' Hc. right. exists c'. eauto.
Qed.

Lemma preserves_send h f : preserves (evolves P) (send h f).
Proof.
  intros s. unfold send. destruct (heap s !! h) as [w|] eqn:E; [|apply evolves_refl].
  destruct (readyState w); try apply evolves_refl. simpl.
  apply evolves_heap_only. intros h' w' Hw'.
  destruct (decide (h = h')) as [->|Hne].
  - rewrite lookup_insert_eq. eexists; split; [done|]. simpl. congruence.
  - rewrite lookup_insert_ne by done. eauto.
Qed.

Lemma preserves_alter_socket (g : WebSocket → WebSocket) h :
  (∀ w, listeners (g w) = listeners w) →
  preserves (evolves P) (modify (with_heap (alter g h))).
Proof.
  intros Hg s. simpl. apply evolves_heap_only. intros h' w' Hw'.
  rewrite lookup_alter. case_decide; subst; rewrite Hw'; simpl; eauto.
Qed.

Lemma preserves_close h : preserves (evolves P) (close h).
Proof. by apply preserves_alter_socket. Qed.

Lemma preserves_set_readyState h st : preserves (evolves P) (set_readyState h st).
Proof. by apply preserves_alter_socket. Qed.

Lemma preserves_alloc st l : preserves (evolves P) (alloc st l).
Proof.
  intros s. simpl. apply evolves_heap_only. intros h w Hw.
  rewrite lookup_insert_ne; [eauto|].
  intros <-. pose proof (is_fresh (dom (heap s))) as Hf.
  apply Hf, elem_of_dom. eauto.
Qed.

Lemma preserves_update id (f : Connection → Connection) :
  (∀ c, geminiWs (f c) = geminiWs c ∧ clientWs (f c) = clientWs c
        ∧ P id (connected c) (connected (f c))) →
  preserves (evolves P) (update id f).
Proof.
  intros Hf s. simpl. split; [eauto|]. intros id' c'. simpl.
  rewrite lookup_alter. case_decide; subst.
  - destruct (activeConnections s !! id') as [c|] eqn:E; simpl; [|done].
    intros [= <-]. right. exists c. destruct (Hf c) as (?&?&?). done.
  - intros Hc. right. exists c'. eauto.
Qed.

Lemma preserves_delete id :
  preserves (evolves P) (modify (with_connections (delete id))).
Proof.
  intros s. simpl. split; [eauto|]. intros id' c'. simpl.
  rewrite lookup_delete. case_decide; [done|]. intros Hc. right. exists c'. eauto.
Qed.

Lemma preserves_bind_lift {A B} R (o : Outcome A) (k : A → M B) :
  (∀ s, R s s) → (∀ a, o = Ok a → preserves R (k a)) → preserves R (bind (lift o) k).
Proof.
  intros Hrefl Hk s. unfold bind, lift. destruct o as [a|e]; [by apply Hk|apply Hrefl].
Qed.

Local Ltac step_preserves :=
  first
    [ apply preserves_ret, evolves_refl
    | apply preserves_throw, evolves_refl
    | apply preserves_lift, evolves_refl
    | apply preserves_gets, evolves_refl
    | apply preserves_is_open, evolves_refl
    | apply preserves_send
    | apply preserves_close
    | apply preserves_set_readyState
    | apply preserves_alloc
    | apply preserves_delete
    | apply preserves_update; intros ?; split_and!; [reflexivity|reflexivity|apply P_refl]
    | apply preserves_bind; [exact evolves_trans| |intros ?]
    | apply preserves_try_catch; [exact evolves_trans| |]
    | apply preserves_when; [exact evolves_refl|]
    | apply preserves_forEach; [exact evolves_refl|exact evolves_trans|intros ?]
    | match goal with
      | |- preserves _ (if ?x then _ else _) => destruct x
      | |- preserves _ (match ?x with _ => _ end) => destruct x
      end ].

Local Ltac solve_preserves := repeat step_preserves.

Lemma preserves_forwardPart client part : preserves (evolves P) (forwardPart client part).
Proof. unfold forwardPart. solve_preserves. Qed.

Lemma preserves_forOfParts client parts : preserves (evolves P) (forOfParts client parts).
Proof.
  unfold forOfParts. solve_preserves.
Qed.

Lemma preserves_handleGeminiMessage id m :
  (∀ v b, get (Some m) "setupComplete" = Ok v → truthy v = true → P id b true) →
  preserves (evolves P) (handleGeminiMessage id m).
Proof.
  intros Hsetup. unfold handleGeminiMessage.
  apply preserves_bind; [exact evolves_trans|solve_preserves|intros [c|]];
    [|solve_preserves].
  apply preserves_bind; [exact evolves_trans|solve_preserves|intros o].
  destruct o; simpl; [|solve_preserves].
  apply preserves_bind_lift; [exact evolves_refl|intros sc Hsc].
  apply preserves_bind; [exact evolves_trans| |intros _].
  - destruct (truthy sc) eqn:Ht; simpl; [|solve_preserves].
    apply preserves_bind; [exact evolves_trans| |intros _; solve_preserves].
    apply preserves_update. intros c0. split_and!; [done|done|]. simpl. eauto.
  - solve_preserves; apply preserves_forOfParts.
Qed.

Lemma preserves_handleAudioInput id audio now :
  preserves (evolves P) (handleAudioInput id audio now).
Proof. unfold handleAudioInput. solve_preserves. Qed.

Lemma preserves_handleClientMessage id m :
  preserves (evolves P) (handleClientMessage id m).
Proof. unfold handleClientMessage. solve_preserves. Qed.

Lemma preserves_cleanupConnection id : preserves (evolves P) (cleanupConnection id).
Proof. unfold cleanupConnection. solve_preserves. Qed.

Lemma preserves_client_on_message id ws data now :
  preserves (evolves P) (client_on_message id ws data now).
Proof.
  unfold client_on_message. solve_preserves.
Qed.

Lemma preserves_notifyClient id v : preserves (evolves P) (notifyClient id v).
Proof. unfold notifyClient. solve_preserves. Qed.

Lemma preserves_sweep now : preserves (evolves P) (sweep now).
Proof. unfold sweep. solve_preserves. Qed.

Lemma preserves_shutdown : preserves (evolves P) shutdown.
Proof. unfold shutdown. solve_preserves. Qed.

Lemma preserves_initializeGeminiSession key id ws now :
  preserves (evolves P) (initializeGeminiSession key id ws now).
Proof.
  unfold initializeGeminiSession.
  apply preserves_try_catch; [exact evolves_trans| |solve_preserves].
  destruct (negb _); [solve_preserves|].
  intros s. unfold bind, alloc, modify. simpl.
  pose proof (is_fresh (dom (heap s))) as Hf. rewrite elem_of_dom in Hf.
  split; simpl.
  - intros h w Hw. rewrite lookup_insert_ne; [eauto|]. intros <-. eauto.
  - intros id' c'. rewrite lookup_insert. case_decide; subst.
    + intros [= <-]. left. simpl. rewrite lookup_insert_eq.
      split; [|eauto]. by apply eq_None_not_Some.
    + intros Hc. right. exists c'. eauto.
Qed.

Lemma preserves_on_connection key now rnd now' :
  preserves (evolves P) (on_connection key now rnd now').
Proof.
  unfold on_connection.
  apply preserves_bind; [exact evolves_trans|apply preserves_alloc|intros ws].
  apply preserves_initializeGeminiSession.
Qed.
End Evolves.

(** ** The flag [connected] along a run *)

Lemma flips_refl Q id b : flips Q id b b.
Proof. by left. Qed.

Lemma flips_trans Q id b1 b2 b3 : flips Q id b1 b2 → flips Q id b2 b3 → flips Q id b1 b3.
Proof. unfold flips. intros [->|(->&->&?)] [->|(?&->&?)]; eauto. Qed.

Lemma evolves_weaken (P Q : string → bool → bool → Prop) s s' :
  (∀ id b b', P id b b' → Q id b b') → evolves P s s' → evolves Q s s'.
Proof.
  intros HPQ [Hh Hr]. split; [done|]. intros id c' Hc'.
  destruct (Hr _ _ Hc') as [?|(c & ? & ? & ? & ?)]; [by left|].
  right. exists c. eauto.
Qed.

Lemma evolves_listeners P s s' h l :
  evolves P s s' → listeners_of h s = Some l → listeners_of h s' = Some l.
Proof.
  intros [Hh _]. unfold listeners_of. destruct (heap s !! h) as [w|] eqn:E; [|done].
  destruct (Hh _ _ E) as (w' & -> & El). simpl. congruence.
Qed.

Section Steps.
Variable key : option string.
Variable model : string.

Lemma step_evolves s e : evolves (flips (setup_for s e)) s (step key model s e).
Proof.
  pose proof (flips_refl (setup_for s e)) as Hr.
  pose proof (flips_trans (setup_for s e)) as Ht.
  pose proof (evolves_refl _ Hr) as ER.
  pose proof (evolves_trans _ Ht) as ET.
  unfold step, exec.
  destruct e as [now r0 r1 r2 r3 now'|ws data now|ws|ws|g|g payload|g|g|now|sig];
    simpl; match goal with |- evolves ?Q _ _ => set (P := Q) in * end.
  - by apply (preserves_on_connection P).
  - unfold bind at 1, gets at 1.
    destruct (listeners_of ws s) as [[id|id]|]; try apply ER.
    by apply (preserves_client_on_message P).
  - unfold bind at 1, gets at 1.
    destruct (listeners_of ws s) as [[id|id]|]; try apply ER.
    apply (preserves_bind (evolves P)); [exact ET|by apply preserves_set_readyState|].
    intros _. by apply preserves_cleanupConnection.
  - unfold bind at 1, gets at 1.
    destruct (listeners_of ws s) as [[id|id]|]; try apply ER.
    apply (preserves_bind (evolves P)); [exact ET|by apply preserves_set_readyState|].
    intros _. by apply preserves_cleanupConnection.
  - unfold bind at 1, gets at 1. unfold bind at 1, gets at 1.
    destruct (listeners_of g s) as [[id|id]|]; try apply ER.
    destruct (readyState_of g s); try apply ER.
    apply (preserves_bind (evolves P)); [exact ET|by apply preserves_set_readyState|].
    intros _. by apply preserves_send.
  - unfold bind at 1, gets at 1.
    destruct (listeners_of g s) as [[id|id]|] eqn:El; try apply ER.
    apply (preserves_try_catch (evolves P)); [exact ET| |by apply preserves_ret].
    destruct payload as [m|]; [|by apply preserves_throw].
    apply preserves_handleGeminiMessage; [done|done|].
    intros v b Hv Htr. destruct b; [by left|]. right. split_and!; [done..|].
    exists g, m. split_and!; [done..|]. by exists v.
  - unfold bind at 1, gets at 1.
    destruct (listeners_of g s) as [[id|id]|]; try apply ER.
    apply (preserves_bind (evolves P)); [exact ET|by apply preserves_set_readyState|].
    intros _. by apply preserves_notifyClient.
  - unfold bind at 1, gets at 1.
    destruct (listeners_of g s) as [[id|id]|]; try apply ER.
    apply (preserves_bind (evolves P)); [exact ET|by apply preserves_set_readyState|].
    intros _. by apply preserves_notifyClient.
  - by apply (preserves_sweep P).
  - by apply (preserves_shutdown P).
Qed.

Lemma run_evolves es s :
  evolves (flips (setup_among (run key model s es) es)) s (run key model s es).
Proof.
  revert s. induction es as [|e es IH]; intros s.
  - apply evolves_refl, flips_refl.
  - change (run key model s (e :: es)) with (run key model (step key model s e) es).
    pose proof (step_evolves s e) as H1. specialize (IH (step key model s e)).
    eapply evolves_trans; [apply flips_trans| |].
    + eapply evolves_weaken; [|exact H1]. intros id b b' [->|(->&->&HQ)]; [by left|].
      right. split_and!; [done..|]. exists e. split; [by left|].
      destruct HQ as (g & m & -> & Hl & Hm). exists g, m. split_and!; [done| |done].
      eapply evolves_listeners; [exact IH|]. eapply evolves_listeners; [exact H1|done].
    + eapply evolves_weaken; [|exact IH]. intros id b b' [->|(->&->&(e' & Hin & HQ))]; [by left|].
      right. split_and!; [done..|]. exists e'. split; [by right|done].
Qed.

(** Every registered record owns an upstream socket that exists. *)
Lemma run_init_upstream_allocated es id c :
  activeConnections (run key model init es) !! id = Some c →
  is_Some (heap (run key model init es) !! geminiWs c).
Proof.
  intros Hc. destruct (run_evolves es init) as [_ Hr].
  destruct (Hr _ _ Hc) as [[_ ?]|(c0 & Hc0 & _)]; [done|].
  simpl in Hc0. by rewrite lookup_empty in Hc0.
Qed.

End Steps.

(** ** Registration *)

Lemma run_app key model s es es' :
  run key model s (es ++ es') = run key model (run key model s es) es'.
Proof. apply foldl_app. Qed.

Lemma run_snoc key model s es e :
  run key model s (es ++ [e]) = step key model (run key model s es) e.
Proof. by rewrite run_app. Qed.

(** With a credential, a new connection gets two new sockets and a record
    that is not ready. *)
Lemma step_Connect_configured key model s now r0 r1 r2 r3 now' :
  truthy (JString <$> key) = true →
  let id := generateConnectionId now [r0; r1; r2; r3] in
  let ws := fresh (dom (heap s)) in
  let g := fresh ({[ws]} ∪ dom (heap s)) in
  step key model s (Connect now r0 r1 r2 r3 now') =
    {| activeConnections :=
         <[id := {| clientWs := ws; geminiWs := g; connected := false;
                    lastActivity := now'; isGenerating := false |}]> (activeConnections s);
       heap :=
         <[g := {| readyState := CONNECTING; sent := []; closeCalls := 0;
                   listeners := GeminiListeners id |}]>
           (<[ws := {| readyState := OPEN; sent := []; closeCalls := 0;
                       listeners := ClientListeners id |}]> (heap s)) |}.
Proof.
  intros Hkey id ws g. unfold step, exec, handler, on_connection, initializeGeminiSession.
  unfold_js. rewrite Hkey. simpl. unfold with_connections, with_heap. simpl.
  by rewrite dom_insert_L.
Qed.

(** ** What the client handlers do to a registered connection *)

Lemma send_open h f s w :
  heap s !! h = Some w → readyState w = OPEN →
  send h f s = (Ok tt, with_heap (insert h (push f w)) s).
Proof. intros Hw Ho. unfold send. by rewrite Hw, Ho. Qed.

Lemma readyState_of_open h s :
  readyState_of h s = OPEN → ∃ w, heap s !! h = Some w ∧ readyState w = OPEN.
Proof. unfold readyState_of. destruct (heap s !! h) as [w|]; [eauto|done]. Qed.

Lemma handleAudioInput_registered id audio now s c :
  activeConnections s !! id = Some c →
  handleAudioInput id audio now s =
    (Ok tt, if connected c && bool_decide (readyState_of (geminiWs c) s = OPEN)
            then forwarded id c audio now s else s).
Proof.
  intros Hc. unfold handleAudioInput. unfold_js. rewrite Hc.
  destruct (connected c); simpl; [|done].
  case_bool_decide as Ho; simpl; [|done].
  destruct (readyState_of_open _ _ Ho) as (w & Hw & Hst).
  unfold send, with_connections. simpl. rewrite Hw, Hst. unfold forwarded, with_heap. simpl.
  do 2 f_equal. apply map_eq. intros h. rewrite lookup_insert, lookup_alter.
  case_decide; subst; [by rewrite Hw|done].
Qed.

Lemma handleAudioInput_unregistered id audio now s :
  activeConnections s !! id = None → handleAudioInput id audio now s = (Ok tt, s).
Proof. intros Hc. unfold handleAudioInput. unfold_js. by rewrite Hc. Qed.

Lemma step_ClientMessage key model s ws id data now :
  listeners_of ws s = Some (ClientListeners id) →
  step key model s (ClientMessage ws data now) = exec (client_on_message id ws data now) s.
Proof. intros Hl. unfold step, exec, handler. unfold bind at 1, gets at 1. by rewrite Hl. Qed.

Lemma step_binary_registered key model s ws id c audio now :
  listeners_of ws s = Some (ClientListeners id) →
  activeConnections s !! id = Some c →
  step key model s (ClientMessage ws (BinaryData audio) now) =
    if connected c && bool_decide (readyState_of (geminiWs c) s = OPEN)
    then forwarded id c audio now s else s.
Proof.
  intros Hl Hc. rewrite (step_ClientMessage _ _ _ _ _ _ _ Hl).
  unfold exec, client_on_message, try_catch.
  by rewrite (handleAudioInput_registered _ _ _ _ _ Hc).
Qed.

Lemma forwarded_sent id c audio now s :
  is_Some (heap s !! geminiWs c) →
  sent_of (geminiWs c) (forwarded id c audio now s)
  = (sent_of (geminiWs c) s ++ [text (audioInput audio)])%list.
Proof.
  intros [w Hw]. unfold sent_of, forwarded. simpl.
  by rewrite lookup_alter_eq, Hw.
Qed.

Lemma forwarded_readyState id c audio now s h :
  readyState_of h (forwarded id c audio now s) = readyState_of h s.
Proof.
  unfold readyState_of, forwarded. simpl. rewrite lookup_alter.
  case_decide; subst; by destruct (heap s !! _).
Qed.

Lemma forwarded_listeners id c audio now s h :
  listeners_of h (forwarded id c audio now s) = listeners_of h s.
Proof.
  unfold listeners_of, forwarded. simpl. rewrite lookup_alter.
  case_decide; subst; by destruct (heap s !! _).
Qed.

(** C1. On a registered connection whose record is not ready, or whose
    upstream socket is not open, a binary frame from the client changes
    nothing: nothing is sent upstream, the frame is kept nowhere, and the
    server goes on exactly as if the frame had not arrived. *)
Theorem C1_audio_dropped_unless_ready key model s ws id c audio now :
  listeners_of ws s = Some (ClientListeners id) →
  activeConnections s !! id = Some c →
  connected c = false ∨ readyState_of (geminiWs c) s ≠ OPEN →
  handleAudioInput id audio now s = (Ok tt, s)
  ∧ step key model s (ClientMessage ws (BinaryData audio) now) = s
  ∧ sent_of (geminiWs c) (step key model s (ClientMessage ws (BinaryData audio) now))
    = sent_of (geminiWs c) s
  ∧ ∀ es, run key model (step key model s (ClientMessage ws (BinaryData audio) now)) es
          = run key model s es.
Proof.
  intros Hl Hc Hnot.
  assert (connected c && bool_decide (readyState_of (geminiWs c) s = OPEN) = false) as Hg.
  { destruct Hnot as [->|Hn]; [done|]. rewrite bool_decide_eq_false_2 by done.
    apply andb_false_r. }
  rewrite (step_binary_registered _ _ _ _ _ _ _ _ Hl Hc).
  rewrite (handleAudioInput_registered _ _ _ _ _ Hc), Hg. done.
Qed.

Lemma C1_audio_dropped_unless_ready_witness :
  let key := Some "k" in
  let s := run key "m" init [Connect 1700000000000 x00 x01 xfe xff 1700000000001;
                             GeminiOpen 1%nat] in
  let e := ClientMessage 0%nat (BinaryData ["M"%byte; "a"%byte]) 1700000000500 in
  step key "m" s e = s ∧ sent_of 1%nat (step key "m" s e) = sent_of 1%nat s.
Proof.
  pose proof (C1_audio_dropped_unless_ready (Some "k") "m"
    (run (Some "k") "m" init [Connect 1700000000000 x00 x01 xfe xff 1700000000001;
                              GeminiOpen 1%nat])
    0%nat (generateConnectionId 1700000000000 [x00; x01; xfe; xff])
    {| clientWs := 0; geminiWs := 1; connected := false;
       lastActivity := 1700000000001; isGenerating := false |}
    ["M"%byte; "a"%byte] 1700000000500) as H.
  destruct H as (_ & H1 & H2 & _); [vm_compute; reflexivity..|by left|].
  split; [exact H1|exact H2].
Defined.

(** C3, as the code has it. A binary frame on a registered connection
    sets [lastActivity] to the time of receipt exactly when the frame is
    forwarded (record ready, upstream socket open); a frame that is dropped
    leaves [lastActivity] as it was. *)
Theorem C3_activity_updated_when_forwarded key model s ws id c audio now :
  listeners_of ws s = Some (ClientListeners id) →
  activeConnections s !! id = Some c →
  lastActivity <$>
    activeConnections (step key model s (ClientMessage ws (BinaryData audio) now)) !! id
  = Some (if connected c && bool_decide (readyState_of (geminiWs c) s = OPEN)
          then now else lastActivity c).
Proof.
  intros Hl Hc. rewrite (step_binary_registered _ _ _ _ _ _ _ _ Hl Hc).
  destruct (connected c && _); simpl; [|by rewrite Hc].
  by rewrite lookup_alter_eq, Hc.
Qed.

Lemma C3_activity_updated_when_forwarded_witness :
  let key := Some "k" in
  let id := generateConnectionId 1700000000000 [x00; x01; xfe; xff] in
  let s := run key "m" init [Connect 1700000000000 x00 x01 xfe xff 1700000000001;
                             GeminiOpen 1%nat;
                             GeminiMessage 1%nat (Some (JObject [("setupComplete", JBool true)]))] in
  lastActivity <$>
    activeConnections
      (step key "m" s (ClientMessage 0%nat (BinaryData ["M"%byte]) 1700000000500)) !! id
  = Some 1700000000500.
Proof.
  apply (C3_activity_updated_when_forwarded (Some "k") "m"
    (run (Some "k") "m" init [Connect 1700000000000 x00 x01 xfe xff 1700000000001;
                              GeminiOpen 1%nat;
                              GeminiMessage 1%nat (Some (JObject [("setupComplete", JBool true)]))])
    0%nat (generateConnectionId 1700000000000 [x00; x01; xfe; xff])
    {| clientWs := 0; geminiWs := 1; connected := true;
       lastActivity := 1700000000001; isGenerating := false |}
    ["M"%byte] 1700000000500); vm_compute; reflexivity.
Defined.

(** C3, as the claim has it, fails: a frame that arrives at a registered
    connection before the upstream set-up is complete is dropped and does
    not touch [lastActivity]. *)
Lemma C3_dropped_frame_keeps_lastActivity :
  let key := Some "k" in
  let id := generateConnectionId 1700000000000 [x00; x01; xfe; xff] in
  let s := run key "m" init [Connect 1700000000000 x00 x01 xfe xff 1700000000001;
                             GeminiOpen 1%nat] in
  let s' := step key "m" s (ClientMessage 0%nat (BinaryData ["M"%byte]) 1700000000500) in
  listeners_of 0%nat s = Some (ClientListeners id)
  ∧ is_Some (activeConnections s !! id)
  ∧ lastActivity <$> activeConnections s' !! id = Some 1700000000001
  ∧ lastActivity <$> activeConnections s' !! id ≠ Some 1700000000500.
Proof. vm_compute. split_and!; [reflexivity|eauto|reflexivity|discriminate]. Qed.

(** Frames that arrive one after the other at a ready record with an open
    upstream socket are all that is sent upstream meanwhile: one envelope
    per frame, in the order of arrival. *)
Lemma audio_frames_forwarded key model frames :
  ∀ s ws id c,
    listeners_of ws s = Some (ClientListeners id) →
    activeConnections s !! id = Some c →
    connected c = true →
    readyState_of (geminiWs c) s = OPEN →
    sent_of (geminiWs c) (run key model s (audioFrames ws frames))
    = (sent_of (geminiWs c) s ++ ((fun f => text (audioInput (fst f))) <$> frames))%list.
Proof.
  induction frames as [|[audio now] frames IH]; intros s ws id c Hl Hc Hr Ho.
  - simpl. by rewrite app_nil_r.
  - change (run key model s (audioFrames ws ((audio, now) :: frames)))
      with (run key model (step key model s (ClientMessage ws (BinaryData audio) now))
              (audioFrames ws frames)).
    rewrite (step_binary_registered _ _ _ _ _ _ _ _ Hl Hc), Hr.
    rewrite bool_decide_eq_true_2 by done. simpl andb. cbv iota.
    destruct (readyState_of_open _ _ Ho) as (w & Hw & _).
    specialize (IH (forwarded id c audio now s) ws id (set_lastActivity now c)).
    simpl geminiWs in IH. rewrite IH.
    + rewrite forwarded_sent by eauto. by rewrite <- app_assoc.
    + by rewrite forwarded_listeners.
    + unfold forwarded. simpl. by rewrite lookup_alter_eq, Hc.
    + done.
    + by rewrite forwarded_readyState.
Qed.

(** ** Control messages *)

Lemma handleClientMessage_ping id m s c :
  activeConnections s !! id = Some c →
  get (Some m) "type" = Ok (Some (JString "ping")) →
  handleClientMessage id m s = send (clientWs c) (text pong) s.
Proof.
  intros Hc Hty. unfold handleClientMessage. unfold_js. by rewrite Hc, Hty.
Qed.

(** C9, as the code has it. A [ping] from a client whose record is in the
    registry, handed to the listener as a string, is answered by one [pong]
    on that client's socket; no other socket, the upstream socket among
    them, is touched, and the registry is unchanged.  Without a record the
    [ping] changes nothing, however it is handed over; and handed over as a
    [Buffer] it is taken for audio, so that nothing at all is sent to the
    client. *)
Theorem C9_ping_pong_registered key model s ws id chars m now :
  listeners_of ws s = Some (ClientListeners id) →
  get (Some m) "type" = Ok (Some (JString "ping")) →
  let ping := TextFrame chars (Some m) in
  (∀ c, activeConnections s !! id = Some c →
        clientWs c = ws → geminiWs c ≠ ws → readyState_of ws s = OPEN →
        let s' := step key model s (ClientMessage ws (deliver Strings ping) now) in
        sent_of ws s' = (sent_of ws s ++ [text pong])%list
        ∧ sent_of (geminiWs c) s' = sent_of (geminiWs c) s
        ∧ (∀ h, h ≠ ws → heap s' !! h = heap s !! h)
        ∧ activeConnections s' = activeConnections s)
  ∧ (activeConnections s !! id = None →
     ∀ d, step key model s (ClientMessage ws (deliver d ping) now) = s)
  ∧ (∀ c, activeConnections s !! id = Some c → geminiWs c ≠ ws →
          sent_of ws (step key model s (ClientMessage ws (deliver Buffers ping) now))
          = sent_of ws s).
Proof.
  intros Hl Hty ping. subst ping. split_and!.
  - intros c Hc Hws Hg Ho s'. subst s'. unfold deliver.
    rewrite (step_ClientMessage _ _ _ _ _ _ _ Hl).
    unfold exec, client_on_message, try_catch.
    rewrite (handleClientMessage_ping _ _ _ _ Hc Hty), Hws.
    destruct (readyState_of_open _ _ Ho) as (w & Hw & Hst).
    rewrite (send_open _ _ _ _ Hw Hst). simpl. unfold sent_of. simpl.
    rewrite lookup_insert_eq, Hw, lookup_insert_ne by done. simpl.
    split_and!; [done|done| |done].
    intros h Hne. by rewrite lookup_insert_ne.
  - intros Hc d. rewrite (step_ClientMessage _ _ _ _ _ _ _ Hl).
    unfold exec, client_on_message, try_catch. destruct d; unfold deliver.
    + unfold handleClientMessage. unfold_js. by rewrite Hc.
    + by rewrite (handleAudioInput_unregistered _ _ _ _ Hc).
  - intros c Hc Hg. unfold deliver.
    rewrite (step_binary_registered _ _ _ _ _ _ _ _ Hl Hc).
    destruct (connected c && _); [|done].
    unfold sent_of, forwarded. simpl. by rewrite lookup_alter_ne.
Qed.

Lemma C9_ping_pong_registered_witness :
  let key := Some "k" in
  let s := run key "m" init [Connect 1700000000000 x00 x01 xfe xff 1700000000001] in
  let s' := step key "m" s (ClientMessage 0%nat (deliver Strings pingFrame) 1700000000500) in
  let s'' := step key "m" s (ClientMessage 0%nat (deliver Buffers pingFrame) 1700000000500) in
  sent_of 0%nat s' = (sent_of 0%nat s ++ [text pong])%list
  ∧ sent_of 1%nat s' = sent_of 1%nat s
  ∧ sent_of 0%nat s'' = sent_of 0%nat s.
Proof.
  pose proof (C9_ping_pong_registered (Some "k") "m"
    (run (Some "k") "m" init [Connect 1700000000000 x00 x01 xfe xff 1700000000001])
    0%nat (generateConnectionId 1700000000000 [x00; x01; xfe; xff])
    (JSON_stringify pingMessage) pingMessage 1700000000500) as H.
  destruct H as (H1 & _ & H3); [vm_compute; reflexivity..|].
  pose proof (H1 {| clientWs := 0; geminiWs := 1; connected := false;
                    lastActivity := 1700000000001; isGenerating := false |}) as H1'.
  destruct H1' as (H11 & H12 & _);
    [vm_compute; reflexivity|vm_compute; reflexivity|simpl; lia|vm_compute; reflexivity|].
  split_and!; [exact H11|exact H12|].
  apply (H3 {| clientWs := 0; geminiWs := 1; connected := false;
               lastActivity := 1700000000001; isGenerating := false |});
    [vm_compute; reflexivity|simpl; lia].
Defined.

(** C9, as the claim has it, fails: with no credential configured the
    connection has no record, and its [ping] gets no answer, whichever way
    the frame is handed to the listener. *)
Lemma C9_ping_without_record_unanswered :
  let s := run None "m" init [Connect 1700000000000 x00 x01 xfe xff 1700000000001] in
  listeners_of 0%nat s
    = Some (ClientListeners (generateConnectionId 1700000000000 [x00; x01; xfe; xff]))
  ∧ readyState_of 0%nat s = OPEN
  ∧ ∀ d, let s' := step None "m" s (ClientMessage 0%nat (deliver d pingFrame) 1700000000500) in
         sent_of 0%nat s' = sent_of 0%nat s ∧ text pong ∉ sent_of 0%nat s'.
Proof.
  split_and!; [vm_compute; reflexivity..|].
  intros d. destruct d; vm_compute; (split; [reflexivity|]);
    intros H; apply list_elem_of_In in H; simpl in H; destruct H as [H|[]]; discriminate H.
Qed.

(** ** Turn signals from upstream *)

Lemma step_GeminiMessage key model s g id payload :
  listeners_of g s = Some (GeminiListeners id) →
  step key model s (GeminiMessage g payload) = exec (gemini_on_message id payload) s.
Proof. intros Hl. unfold step, exec, handler. unfold bind at 1, gets at 1. by rewrite Hl. Qed.





Lemma send_open_alter h f s :
  readyState_of h s = OPEN →
  send h f s = (Ok tt, with_heap (alter (push f) h) s).
Proof.
  intros Ho. destruct (readyState_of_open _ _ Ho) as (w & Hw & Hst).
  rewrite (send_open _ _ _ _ Hw Hst). unfold with_heap. do 2 f_equal.
  apply map_eq. intros h'. rewrite lookup_insert, lookup_alter.
  case_decide; subst; [by rewrite Hw|done].
Qed.




(** ** Teardown *)

Lemma cleanupConnection_absent id s :
  activeConnections s !! id = None → cleanupConnection id s = (Ok tt, s).
Proof. intros H. unfold cleanupConnection. unfold_js. by rewrite H. Qed.

Lemma cleanupConnection_present id s c :
  activeConnections s !! id = Some c →
  cleanupConnection id s =
    (Ok tt, with_connections (delete id)
              (if bool_decide (readyState_of (geminiWs c) s = OPEN)
               then with_heap (alter closed_by_call (geminiWs c)) s else s)).
Proof.
  intros H. unfold cleanupConnection. unfold_js. rewrite H.
  by case_bool_decide.
Qed.

(** C6. Teardown never throws; after it the id is absent and no other
    record is affected; a second teardown of the same id changes nothing,
    so that over both calls [close] is called at most once on any socket;
    and teardown of an absent id changes nothing. *)
Theorem C6_cleanup_idempotent id s :
  let s1 := exec (cleanupConnection id) s in
  let s2 := exec (cleanupConnection id) s1 in
  fst (cleanupConnection id s) = Ok tt
  ∧ activeConnections s1 !! id = None
  ∧ activeConnections s1 = delete id (activeConnections s)
  ∧ cleanupConnection id s1 = (Ok tt, s1)
  ∧ s2 = s1
  ∧ (∀ h, closeCalls_of h s2 ≤ S (closeCalls_of h s))%nat
  ∧ (activeConnections s !! id = None ↔ cleanupConnection id s = (Ok tt, s)).
Proof.
  intros s1 s2. subst s2 s1.
  assert (activeConnections (exec (cleanupConnection id) s)
          = delete id (activeConnections s)) as Hdel.
  { destruct (activeConnections s !! id) as [c|] eqn:E; unfold exec.
    - rewrite (cleanupConnection_present _ _ _ E). simpl. by case_bool_decide.
    - rewrite (cleanupConnection_absent _ _ E). simpl. symmetry. by apply delete_id. }
  assert (activeConnections (exec (cleanupConnection id) s) !! id = None) as Hgone.
  { rewrite Hdel. apply lookup_delete_eq. }
  assert (exec (cleanupConnection id) (exec (cleanupConnection id) s)
          = exec (cleanupConnection id) s) as Hidem.
  { unfold exec at 1. by rewrite (cleanupConnection_absent _ _ Hgone). }
  split_and!.
  - destruct (activeConnections s !! id) as [c|] eqn:E.
    + by rewrite (cleanupConnection_present _ _ _ E).
    + by rewrite (cleanupConnection_absent _ _ E).
  - done.
  - done.
  - by apply cleanupConnection_absent.
  - done.
  - intros h. rewrite Hidem.
    destruct (activeConnections s !! id) as [c|] eqn:E; unfold exec.
    + rewrite (cleanupConnection_present _ _ _ E). simpl.
      unfold closeCalls_of. case_bool_decide; simpl; [|lia].
      rewrite lookup_alter. case_decide; [|simpl; lia]. subst.
      destruct (heap s !! geminiWs c); simpl; lia.
    + rewrite (cleanupConnection_absent _ _ E). simpl. lia.
  - split; [apply cleanupConnection_absent|].
    intros Hs. destruct (activeConnections s !! id) as [c|] eqn:E; [|done].
    rewrite (cleanupConnection_present _ _ _ E) in Hs.
    injection Hs as Hs. apply (f_equal (fun s => activeConnections s !! id)) in Hs.
    revert Hs. case_bool_decide; simpl; rewrite lookup_delete_eq, E; done.
Qed.

(** ** Without a credential *)

Section Keyless.
Variable key : option string.
Variable model : string.
Hypothesis no_key : truthy (JString <$> key) = false.









End Keyless.

Section KeylessClient.
Variable key : option string.
Variable model : string.
Hypothesis no_key : truthy (JString <$> key) = false.



End KeylessClient.





(** Where the two ways of handing over differ: text that does not parse,
    handed over as a string, is answered with a processing error although
    the connection has no record. *)
Lemma unparseable_string_is_answered :
  let s := run None "m" init [Connect 1700000000000 x00 x01 xfe xff 1700000000001] in
  let s' := step None "m" s (ClientMessage 0%nat (TextData None) 1700000000500) in
  activeConnections s = ∅
  ∧ sent_of 0%nat s' = (sent_of 0%nat s ++ [text processError])%list
  ∧ s' ≠ s.
Proof.
  vm_compute. split_and!; [reflexivity..|]. intros H. discriminate H.
Qed.

(** ** Connection ids *)

Lemma from_hex_toString_hex b : from_hex (Buffer.toString_hex b) = b.
Proof.
  induction b as [|x b IH]; [done|]. simpl. rewrite IH. f_equal.
  by destruct x.
Qed.

Lemma toString_hex_length b :
  String.length (Buffer.toString_hex b) = (2 * length b)%nat.
Proof. induction b as [|x b IH]; simpl; [done|]. rewrite IH. lia. Qed.

Lemma append_cons c (s t : string) : String c s +:+ t = String c (s +:+ t).
Proof. reflexivity. Qed.

Lemma append_assoc (a b c : string) : a +:+ b +:+ c = (a +:+ b) +:+ c.
Proof.
  induction a as [|x a IH]; [reflexivity|]. rewrite !append_cons. by rewrite IH.
Qed.

Lemma string_length_app (s t : string) :
  String.length (s +:+ t) = (String.length s + String.length t)%nat.
Proof.
  induction s as [|c s IH]; [reflexivity|]. rewrite append_cons. simpl. by rewrite IH.
Qed.

Lemma string_app_inj_suffix (s1 s2 t1 t2 : string) :
  String.length t1 = String.length t2 →
  s1 +:+ t1 = s2 +:+ t2 → s1 = s2 ∧ t1 = t2.
Proof.
  revert s2. induction s1 as [|c s1 IH]; intros [|d s2] Hlen Heq.
  - done.
  - apply (f_equal String.length) in Heq.
    rewrite !string_length_app in Heq. simpl in Heq. lia.
  - apply (f_equal String.length) in Heq.
    rewrite !string_length_app in Heq. simpl in Heq. lia.
  - rewrite !append_cons in Heq. injection Heq as -> Heq.
    destruct (IH s2 Hlen Heq) as [-> ->]. done.
Qed.

(** X20. Two ids are equal only if both the clock reading and the random
    bytes are. *)
Lemma generateConnectionId_inj now rnd now' rnd' :
  length rnd = length rnd' →
  generateConnectionId now rnd = generateConnectionId now' rnd' →
  now = now' ∧ rnd = rnd'.
Proof.
  intros Hlen. unfold generateConnectionId. intros Heq.
  apply (inj (String.app "conn_")) in Heq.
  assert (String.length (Buffer.toString_hex rnd) = String.length (Buffer.toString_hex rnd'))
    as Hl by (rewrite !toString_hex_length; lia).
  change (pretty now +:+ "_" +:+ Buffer.toString_hex rnd
          = pretty now' +:+ "_" +:+ Buffer.toString_hex rnd') in Heq.
  rewrite !append_assoc in Heq.
  destruct (string_app_inj_suffix _ _ _ _ Hl Heq) as [Hp Hh].
  split.
  - assert (String.length "_" = String.length "_") as H1 by done.
    destruct (string_app_inj_suffix _ _ _ _ H1 Hp) as [Hz _].
    by apply (inj pretty) in Hz.
  - apply (f_equal from_hex) in Hh. by rewrite !from_hex_toString_hex in Hh.
Qed.

(** C10. The code does not keep ids apart: two connections accepted at
    the same clock reading for which [crypto.randomBytes] returns the same
    four bytes get the same id.  Both client sockets then carry listeners
    for that id, and the second registration has replaced the record of
    the first. *)
Theorem C10_connection_ids_collide :
  let e := Connect 1700000000000 x00 x01 xfe xff 1700000000001 in
  let id := generateConnectionId 1700000000000 [x00; x01; xfe; xff] in
  let s := run (Some "k") "m" init [e; e] in
  listeners_of 0%nat s = Some (ClientListeners id)
  ∧ listeners_of 2%nat s = Some (ClientListeners id)
  ∧ totalConnections s = 1%nat
  ∧ clientWs <$> activeConnections s !! id = Some 2%nat.
Proof. vm_compute. split_and!; reflexivity. Qed.

(** ** What reaches an upstream socket *)

Ltac preserves_step refl trans prim :=
  first
    [ prim
    | apply preserves_ret; exact refl
    | apply preserves_throw; exact refl
    | apply preserves_lift; exact refl
    | apply preserves_gets; exact refl
    | apply preserves_is_open; exact refl
    | apply preserves_bind; [exact trans| |intros ?]
    | apply preserves_try_catch; [exact trans| |]
    | apply preserves_when; [exact refl|]
    | apply preserves_forEach; [exact refl|exact trans|intros ?]
    | match goal with
      | |- preserves _ (if ?x then _ else _) => destruct x
      | |- preserves _ (match ?x with _ => _ end) => destruct x
      end ].

Section Quiet.
Variable g : handle.

Lemma quiet_refl s : quiet g s s.
Proof. done. Qed.

Lemma quiet_trans s1 s2 s3 : quiet g s1 s2 → quiet g s2 s3 → quiet g s1 s3.
Proof. unfold quiet. congruence. Qed.

Lemma quiet_send h f : is_audio_envelope f = false → preserves (quiet g) (send h f).
Proof.
  intros Hf s. unfold send. destruct (heap s !! h) as [w|] eqn:E; [|done].
  destruct (readyState w); try done. simpl. unfold quiet, audio_sent, sent_of. simpl.
  destruct (decide (h = g)) as [->|Hne].
  - rewrite lookup_insert_eq, E. simpl. rewrite filter_app, filter_cons_False by congruence.
    by rewrite filter_nil, app_nil_r.
  - by rewrite lookup_insert_ne.
Qed.

Lemma quiet_alter_socket (f : WebSocket → WebSocket) h :
  (∀ w, sent (f w) = sent w) → preserves (quiet g) (modify (with_heap (alter f h))).
Proof.
  intros Hf s. simpl. unfold quiet, audio_sent, sent_of. simpl. rewrite lookup_alter.
  case_decide; subst; [|done]. destruct (heap s !! g); simpl; by rewrite ?Hf.
Qed.

Lemma quiet_close h : preserves (quiet g) (close h).
Proof. by apply quiet_alter_socket. Qed.

Lemma quiet_set_readyState h st : preserves (quiet g) (set_readyState h st).
Proof. by apply quiet_alter_socket. Qed.

Lemma quiet_alloc st l : preserves (quiet g) (alloc st l).
Proof.
  intros s. simpl. unfold quiet, audio_sent, sent_of. simpl.
  destruct (decide (fresh (dom (heap s)) = g)) as [<-|Hne].
  - rewrite lookup_insert_eq. simpl.
    pose proof (is_fresh (dom (heap s))) as Hf. apply not_elem_of_dom in Hf. by rewrite Hf.
  - by rewrite lookup_insert_ne.
Qed.

Lemma quiet_registry f : preserves (quiet g) (modify (with_connections f)).
Proof. done. Qed.

Lemma quiet_update id f : preserves (quiet g) (update id f).
Proof. done. Qed.

Local Ltac quiet_prim :=
  first
    [ apply quiet_send; vm_compute; reflexivity
    | apply quiet_close
    | apply quiet_set_readyState
    | apply quiet_alloc
    | apply quiet_update
    | apply quiet_registry ].

Local Ltac solve_quiet := repeat (preserves_step quiet_refl quiet_trans quiet_prim).

Lemma quiet_handleGeminiMessage id m : preserves (quiet g) (handleGeminiMessage id m).
Proof. unfold handleGeminiMessage, forOfParts, forwardPart. solve_quiet. Qed.

Lemma quiet_handleClientMessage id m : preserves (quiet g) (handleClientMessage id m).
Proof. unfold handleClientMessage. solve_quiet. Qed.

Lemma quiet_cleanupConnection id : preserves (quiet g) (cleanupConnection id).
Proof. unfold cleanupConnection. solve_quiet. Qed.

Lemma quiet_notifyClient id v :
  is_audio_envelope (text v) = false → preserves (quiet g) (notifyClient id v).
Proof.
  intros Hv. unfold notifyClient.
  repeat (preserves_step quiet_refl quiet_trans ltac:(by apply quiet_send)).
Qed.

Lemma quiet_sweep now : preserves (quiet g) (sweep now).
Proof.
  unfold sweep.
  repeat (preserves_step quiet_refl quiet_trans ltac:(apply quiet_cleanupConnection)).
Qed.

Lemma quiet_shutdown : preserves (quiet g) shutdown.
Proof.
  unfold shutdown.
  repeat (preserves_step quiet_refl quiet_trans ltac:(apply quiet_cleanupConnection)).
Qed.

Lemma quiet_on_connection key now rnd now' :
  preserves (quiet g) (on_connection key now rnd now').
Proof. unfold on_connection, initializeGeminiSession. solve_quiet. Qed.

Lemma quiet_gemini_on_open model h : preserves (quiet g) (gemini_on_open model h).
Proof. unfold gemini_on_open. apply quiet_send. vm_compute. reflexivity. Qed.

End Quiet.

Lemma forwarded_audio_sent id c audio now s g :
  readyState_of (geminiWs c) s = OPEN →
  audio_sent g (forwarded id c audio now s)
  = (audio_sent g s
     ++ if bool_decide (geminiWs c = g) then [text (audioInput audio)] else [])%list.
Proof.
  intros Ho. destruct (readyState_of_open _ _ Ho) as (w & Hw & _).
  unfold audio_sent, sent_of, forwarded. simpl. rewrite lookup_alter.
  case_bool_decide as Hg; case_decide; try congruence; subst.
  - rewrite Hw. simpl. rewrite filter_app. f_equal.
  - by rewrite app_nil_r.
Qed.

Section AudioTrace.
Variable key : option string.
Variable model : string.

(** Only binary frames of clients add audio envelopes anywhere. *)
Lemma quiet_handler g e :
  (∀ ws audio now, e ≠ ClientMessage ws (BinaryData audio) now) →
  preserves (quiet g) (handler key model e).
Proof.
  pose proof (quiet_refl g) as QR. pose proof (quiet_trans g) as QT.
  intros Hne.
  destruct e as [now r0 r1 r2 r3 now'|ws data now|ws|ws|h|h payload|h|h|now|sig];
    simpl handler.
  - apply quiet_on_connection.
  - destruct data as [audio|parsed]; [by destruct (Hne ws audio now)|].
    unfold client_on_message.
    repeat (preserves_step QR QT
              ltac:(first [ apply quiet_handleClientMessage
                          | apply quiet_send; vm_compute; reflexivity ])).
  - repeat (preserves_step QR QT
              ltac:(first [apply quiet_cleanupConnection|apply quiet_set_readyState])).
  - repeat (preserves_step QR QT
              ltac:(first [apply quiet_cleanupConnection|apply quiet_set_readyState])).
  - repeat (preserves_step QR QT
              ltac:(first [apply quiet_gemini_on_open|apply quiet_set_readyState])).
  - unfold gemini_on_message.
    repeat (preserves_step QR QT ltac:(apply quiet_handleGeminiMessage)).
  - unfold gemini_on_close.
    repeat (preserves_step QR QT
              ltac:(first [ apply quiet_notifyClient; vm_compute; reflexivity
                          | apply quiet_set_readyState ])).
  - unfold gemini_on_error.
    repeat (preserves_step QR QT
              ltac:(first [ apply quiet_notifyClient; vm_compute; reflexivity
                          | apply quiet_set_readyState ])).
  - apply quiet_sweep.
  - apply quiet_shutdown.
Qed.

(** One step adds to the audio envelopes on [g] exactly the frame it
    forwards there, if any. *)
Lemma step_audio_sent g s e :
  audio_sent g (step key model s e)
  = (audio_sent g s ++ ((fun a => text (audioInput a)) <$> forwards_to g s e))%list.
Proof.
  destruct (forwards_to g s e) as [|a l] eqn:Hf.
  - simpl. rewrite app_nil_r.
    destruct e as [now r0 r1 r2 r3 now'|ws [audio|parsed] now|ws|ws|h|h payload|h|h|now|sig];
      try (by apply quiet_handler).
    simpl in Hf. unfold step, exec, handler. unfold bind at 1, gets at 1.
    destruct (listeners_of ws s) as [[id|id]|] eqn:Hl; try done.
    unfold client_on_message, try_catch.
    destruct (activeConnections s !! id) as [c|] eqn:Hc.
    + rewrite (handleAudioInput_registered _ _ _ _ _ Hc). simpl.
      destruct (connected c); simpl in *; [|done].
      case_bool_decide as Ho; simpl in *; [|done].
      rewrite forwarded_audio_sent by done.
      case_bool_decide; [done|by rewrite app_nil_r].
    + by rewrite handleAudioInput_unregistered.
  - destruct e as [now r0 r1 r2 r3 now'|ws [audio|parsed] now|ws|ws|h|h payload|h|h|now|sig];
      try done.
    simpl in Hf.
    destruct (listeners_of ws s) as [[id|id]|] eqn:Hl; try done.
    destruct (activeConnections s !! id) as [c|] eqn:Hc; [|done].
    rewrite (step_binary_registered _ _ _ _ _ _ _ _ Hl Hc).
    destruct (connected c); simpl in *; [|done].
    case_bool_decide as Ho; simpl in *; [|done].
    case_bool_decide as Hg; simpl in *; [|done].
    injection Hf as <- <-. rewrite forwarded_audio_sent by done.
    by rewrite bool_decide_eq_true_2.
Qed.

(** The audio envelopes on an upstream socket are, in order, those of the
    binary frames that arrived while the sender's record was ready and
    owned that socket, open. *)
Lemma upstream_audio_trace g es s :
  audio_sent g (run key model s es)
  = (audio_sent g s
     ++ ((fun a => text (audioInput a)) <$> forwarded_frames key model g s es))%list.
Proof.
  revert s. induction es as [|e es IH]; intros s; [by rewrite app_nil_r|].
  change (run key model s (e :: es)) with (run key model (step key model s e) es).
  rewrite IH, step_audio_sent. simpl. by rewrite fmap_app, app_assoc.
Qed.

End AudioTrace.

(** ** Records own different upstream sockets *)

Lemma keeps_distinct_refl s : keeps_distinct s s.
Proof. by intros ?. Qed.

Lemma keeps_distinct_trans s1 s2 s3 :
  keeps_distinct s1 s2 → keeps_distinct s2 s3 → keeps_distinct s1 s3.
Proof. unfold keeps_distinct. eauto. Qed.

Lemma kd_heap (f : gmap handle WebSocket → gmap handle WebSocket) s :
  (∀ h, is_Some (heap s !! h) → is_Some (f (heap s) !! h)) →
  keeps_distinct s (with_heap f s).
Proof. intros Hf [Ha Hi]. split; simpl; eauto. Qed.

Lemma kd_send h f : preserves keeps_distinct (send h f).
Proof.
  intros s. unfold send. destruct (heap s !! h) as [w|] eqn:E; [|apply keeps_distinct_refl].
  destruct (readyState w); try apply keeps_distinct_refl. simpl.
  apply kd_heap. intros h' Hs. rewrite lookup_insert. by case_decide.
Qed.

Lemma kd_alter_socket (f : WebSocket → WebSocket) h :
  preserves keeps_distinct (modify (with_heap (alter f h))).
Proof.
  intros s. simpl. apply kd_heap. intros h' [w Hw]. rewrite lookup_alter.
  case_decide; subst; rewrite Hw; simpl; eauto.
Qed.

Lemma kd_alloc st l : preserves keeps_distinct (alloc st l).
Proof.
  intros s. simpl. apply kd_heap. intros h' Hs. rewrite lookup_insert. by case_decide.
Qed.

Lemma kd_update id (f : Connection → Connection) :
  (∀ c, geminiWs (f c) = geminiWs c) → preserves keeps_distinct (update id f).
Proof.
  intros Hf s [Ha Hi]. simpl.
  assert (∀ id' c', alter f id (activeConnections s) !! id' = Some c' →
            ∃ c, activeConnections s !! id' = Some c ∧ geminiWs c' = geminiWs c) as Hold.
  { intros id' c'. rewrite lookup_alter. case_decide; subst; [|eauto].
    destruct (activeConnections s !! id') as [c|]; simpl; [|done].
    intros [= <-]. eauto. }
  split; simpl.
  - intros id' c' Hc'. destruct (Hold _ _ Hc') as (c & Hc & ->). eauto.
  - intros id1 id2 c1 c2 H1 H2 Hg.
    destruct (Hold _ _ H1) as (c1' & H1' & E1). destruct (Hold _ _ H2) as (c2' & H2' & E2).
    eapply Hi; [done..|congruence].
Qed.

Lemma kd_delete id : preserves keeps_distinct (modify (with_connections (delete id))).
Proof.
  intros s [Ha Hi]. simpl. split; simpl.
  - intros id' c'. rewrite lookup_delete. case_decide; [done|]. eauto.
  - intros id1 id2 c1 c2. rewrite !lookup_delete. repeat case_decide; try done. eauto.
Qed.

Lemma kd_initializeGeminiSession key id ws now :
  preserves keeps_distinct (initializeGeminiSession key id ws now).
Proof.
  pose proof keeps_distinct_refl as KR. pose proof keeps_distinct_trans as KT.
  unfold initializeGeminiSession.
  apply preserves_try_catch; [exact KT| |apply kd_send].
  destruct (negb _).
  - repeat (preserves_step KR KT ltac:(apply kd_send)).
  - intros s [Ha Hi]. unfold bind, alloc, modify. simpl.
    pose proof (is_fresh (dom (heap s))) as Hf. rewrite elem_of_dom in Hf.
    split; simpl.
    + intros id' c'. rewrite lookup_insert. case_decide; subst.
      * intros [= <-]. simpl. rewrite lookup_insert_eq. eauto.
      * intros Hc. rewrite lookup_insert. case_decide; eauto.
    + intros id1 id2 c1 c2. rewrite !lookup_insert.
      repeat case_decide; subst; try done.
      * intros [= <-] H2 Hg. simpl in Hg. destruct Hf. rewrite Hg. eauto.
      * intros H1 [= <-] Hg. simpl in Hg. destruct Hf. rewrite <- Hg. eauto.
      * eauto.
Qed.

Local Ltac kd_prim :=
  first
    [ apply kd_send
    | apply kd_alter_socket
    | apply kd_alloc
    | apply kd_update; reflexivity
    | apply kd_delete
    | apply kd_initializeGeminiSession ].

Lemma kd_handler key model e : preserves keeps_distinct (handler key model e).
Proof.
  pose proof keeps_distinct_refl as KR. pose proof keeps_distinct_trans as KT.
  destruct e; simpl handler;
    unfold on_connection, client_on_message, handleAudioInput, handleClientMessage,
      cleanupConnection, gemini_on_open, gemini_on_message, handleGeminiMessage, forOfParts,
      forwardPart, gemini_on_close, gemini_on_error, notifyClient, sweep, shutdown,
      close, set_readyState;
    repeat (preserves_step KR KT kd_prim).
Qed.

Lemma distinct_upstreams_init : distinct_upstreams init.
Proof. split; intros *; simpl; by rewrite lookup_empty. Qed.

Lemma distinct_upstreams_run key model es s :
  distinct_upstreams s → distinct_upstreams (run key model s es).
Proof.
  revert s. induction es as [|e es IH]; intros s Hs; [done|].
  change (run key model s (e :: es)) with (run key model (step key model s e) es).
  apply IH. by apply (kd_handler key model e s).
Qed.

(** ** The base64 text of a frame *)

Lemma list_ind3 {A} (P : list A → Prop) :
  P [] → (∀ x, P [x]) → (∀ x y, P [x; y]) → (∀ x y z l, P l → P (x :: y :: z :: l)) →
  ∀ l, P l.
Proof.
  intros H0 H1 H2 H3 l.
  assert (P l ∧ (∀ x, P (x :: l)) ∧ (∀ x y, P (x :: y :: l))) as [H _].
  { induction l as [|a l (IH0 & IH1 & IH2)]; [by split_and!|].
    split_and!; [exact (IH1 a)|intros x; exact (IH2 x a)|intros x y; by apply H3]. }
  exact H.
Qed.

(** The 64 characters of the alphabet: each decodes to its index, none is
    the padding character, and [JSON.stringify] leaves each as it is. *)
Lemma sextet_spec n :
  (n < 64)%N →
  Buffer.unbase64 (Buffer.sextet n) = Some n
  ∧ Ascii.eqb (Buffer.sextet n) "="%char = false
  ∧ escape_char (Buffer.sextet n) = String (Buffer.sextet n) EmptyString.
Proof.
  intros Hn.
  assert (forallb (fun k => match Buffer.unbase64 (Buffer.sextet k) with
                            | Some m => N.eqb m k
                            | None => false
                            end
                            && negb (Ascii.eqb (Buffer.sextet k) "="%char)
                            && String.eqb (escape_char (Buffer.sextet k))
                                 (String (Buffer.sextet k) EmptyString))
            (List.map N.of_nat (seq 0 64)) = true) as Hall by (vm_compute; reflexivity).
  rewrite forallb_forall in Hall.
  assert (In n (List.map N.of_nat (seq 0 64))) as Hin.
  { apply in_map_iff. exists (N.to_nat n). split; [apply N2Nat.id|]. apply in_seq. lia. }
  specialize (Hall n Hin). apply andb_prop in Hall as [H12 H3].
  apply andb_prop in H12 as [H1 H2].
  destruct (Buffer.unbase64 (Buffer.sextet n)) as [m|]; [|done].
  apply N.eqb_eq in H1 as ->. apply String.eqb_eq in H3.
  split_and!; [done| |done]. by destruct (Ascii.eqb _ _).
Qed.

Lemma sextets_cons n s :
  (n < 64)%N → Buffer.sextets (String (Buffer.sextet n) s) = n :: Buffer.sextets s.
Proof. intros Hn. destruct (sextet_spec n Hn) as (H1 & H2 & _). simpl. by rewrite H2, H1. Qed.

Lemma escape_cons n s :
  (n < 64)%N → escape (String (Buffer.sextet n) s) = String (Buffer.sextet n) (escape s).
Proof. intros Hn. destruct (sextet_spec n Hn) as (_ & _ & H3). simpl. by rewrite H3. Qed.

Lemma byte_of_to_N k x : (k mod 256 = Byte.to_N x)%N → Buffer.byte_of k = x.
Proof. intros H. unfold Buffer.byte_of. by rewrite H, Byte.of_to_N. Qed.

Lemma byte_bounded x : (Byte.to_N x < 256)%N.
Proof. destruct x; vm_compute; reflexivity. Qed.

Local Ltac euclid := zify; Z.to_euclidean_division_equations; lia.

(** [Buffer.from(buf.toString("base64"), "base64")] gives the bytes of
    [buf] back. *)
Lemma from_base64_toString_base64 (b : Buffer.t) :
  Buffer.from_base64 (Buffer.toString_base64 b) = b.
Proof.
  unfold Buffer.from_base64. induction b as [|x|x y|x y z b IH] using list_ind3.
  - reflexivity.
  - pose proof (byte_bounded x) as Hx. cbn [Buffer.toString_base64].
    rewrite !sextets_cons by euclid. simpl. f_equal. apply byte_of_to_N. euclid.
  - pose proof (byte_bounded x) as Hx. pose proof (byte_bounded y) as Hy.
    cbn [Buffer.toString_base64].
    rewrite !sextets_cons by euclid. simpl. f_equal; [|f_equal]; apply byte_of_to_N; euclid.
  - pose proof (byte_bounded x) as Hx. pose proof (byte_bounded y) as Hy.
    pose proof (byte_bounded z) as Hz.
    cbn [Buffer.toString_base64].
    rewrite !sextets_cons by euclid. cbn [Buffer.pack]. rewrite IH.
    f_equal; [|f_equal; [|f_equal]]; apply byte_of_to_N; euclid.
Qed.

(** The base64 text of a buffer needs no escaping. *)
Lemma escape_toString_base64 (b : Buffer.t) :
  escape (Buffer.toString_base64 b) = Buffer.toString_base64 b.
Proof.
  induction b as [|x|x y|x y z b IH] using list_ind3.
  - reflexivity.
  - pose proof (byte_bounded x) as Hx. cbn [Buffer.toString_base64].
    rewrite !escape_cons by euclid. reflexivity.
  - pose proof (byte_bounded x) as Hx. pose proof (byte_bounded y) as Hy.
    cbn [Buffer.toString_base64]. rewrite !escape_cons by euclid. reflexivity.
  - pose proof (byte_bounded x) as Hx. pose proof (byte_bounded y) as Hy.
    pose proof (byte_bounded z) as Hz.
    cbn [Buffer.toString_base64]. rewrite !escape_cons by euclid. by rewrite IH.
Qed.

(** The envelope of lines 281-290 as it goes over the wire. *)
Lemma audioInput_text (audio : Buffer.t) :
  text (audioInput audio) = Text (audioInputText (Buffer.toString_base64 audio)).
Proof.
  unfold text, audioInput, audioInputText. f_equal.
  cbn [JSON_stringify List.map join fst snd]. unfold quote at 6.
  rewrite escape_toString_base64. generalize (Buffer.toString_base64 audio). intros d.
  rewrite <- !append_assoc. vm_compute. reflexivity.
Qed.

Lemma forwards_to_ready id g s e :
  distinct_upstreams s → ready id g s = true → forwards_to g s e = audio_from id s e.
Proof.
  intros [_ Hinj] Hr. unfold ready in Hr.
  destruct (activeConnections s !! id) as [c|] eqn:Hc; [|done].
  apply andb_prop in Hr as [Hr Ho]. apply andb_prop in Hr as [Hr Hg].
  apply bool_decide_eq_true_1 in Ho, Hg.
  destruct e as [now r0 r1 r2 r3 now'|ws [audio|parsed] now|ws|ws|h|h payload|h|h|now|sig];
    try done.
  simpl. destruct (listeners_of ws s) as [[id'|id']|]; try done.
  case_bool_decide as Hid.
  - subst id'. rewrite Hc, Hr, Hg, Ho. by rewrite !bool_decide_eq_true_2.
  - destruct (activeConnections s !! id') as [c'|] eqn:Hc'; [|done].
    destruct (connected c' && _); simpl; [|done].
    case_bool_decide as Hg'; [|done].
    destruct Hid. eapply Hinj; [done..|congruence].
Qed.

Lemma toString_base64_length (b : Buffer.t) :
  String.length (Buffer.toString_base64 b) = (4 * ((List.length b + 2) / 3))%nat.
Proof.
  induction b as [|x|x y|x y z b IH] using list_ind3; [reflexivity..|].
  cbn [Buffer.toString_base64 String.length List.length]. rewrite IH.
  replace (S (S (S (List.length b))) + 2)%nat with (List.length b + 2 + 1 * 3)%nat by lia.
  rewrite Nat.div_add by lia. lia.
Qed.

(** C7. While the record of a connection is ready and its upstream
    socket open, the audio envelopes that reach the upstream socket are
    those of the binary frames of the connection's client: one envelope per
    frame, in the order in which the frames arrived, whatever other events
    come in between.  Each envelope is the text
    [{"realtimeInput":{"audio":{"mimeType":"audio/pcm","data":D}}}] with
    [D] the base64 text of its frame: four characters for every three
    bytes begun, which decode to the bytes of the frame. *)
Theorem C7_audio_forwarded_in_order key model es0 es id g :
  let s := run key model init es0 in
  ready_throughout key model id g s es = true →
  audio_sent g (run key model s es)
  = (audio_sent g s
     ++ ((fun audio => Text (audioInputText (Buffer.toString_base64 audio)))
           <$> client_audio key model id s es))%list
  ∧ (∀ audio : Buffer.t,
       Buffer.from_base64 (Buffer.toString_base64 audio) = audio
       ∧ String.length (Buffer.toString_base64 audio)
         = (4 * ((List.length audio + 2) / 3))%nat).
Proof.
  intros s Hr. split; [|intros audio; split;
                         [apply from_base64_toString_base64|apply toString_base64_length]].
  rewrite upstream_audio_trace. f_equal.
  transitivity ((fun audio => text (audioInput audio)) <$> client_audio key model id s es);
    [|apply list_fmap_ext; intros _ audio _; apply audioInput_text].
  f_equal.
  assert (distinct_upstreams s) as Hd.
  { apply distinct_upstreams_run, distinct_upstreams_init. }
  clearbody s. revert s Hr Hd. induction es as [|e es IH]; intros s Hr Hd; [done|].
  simpl in Hr |- *. apply andb_prop in Hr as [Hr Hrest].
  rewrite (forwards_to_ready id g s e Hd Hr). f_equal.
  apply IH; [done|]. by apply (kd_handler key model e s).
Qed.

Lemma C7_audio_forwarded_in_order_witness :
  let key := Some "k" in
  let id := generateConnectionId 1700000000000 [x00; x01; xfe; xff] in
  let s := run key "m" init [Connect 1700000000000 x00 x01 xfe xff 1700000000001;
                             GeminiOpen 1%nat;
                             GeminiMessage 1%nat (Some (JObject [("setupComplete", JBool true)]))] in
  let es := [ClientMessage 0%nat (BinaryData ["M"%byte; "a"%byte; "n"%byte]) 1700000000500;
             ClientMessage 0%nat (TextData (Some (JObject [("type", JString "interrupt")])))
               1700000000550;
             ClientMessage 0%nat (BinaryData ["M"%byte; "a"%byte]) 1700000000600;
             GeminiMessage 1%nat (signal "turnComplete");
             ClientMessage 0%nat (BinaryData ["M"%byte]) 1700000000700] in
  audio_sent 1%nat (run key "m" s es)
  = [Text (audioInputText "TWFu"); Text (audioInputText "TWE="); Text (audioInputText "TQ==")]
  ∧ Buffer.from_base64 "TWE=" = ["M"%byte; "a"%byte].
Proof.
  pose proof (C7_audio_forwarded_in_order (Some "k") "m"
    [Connect 1700000000000 x00 x01 xfe xff 1700000000001;
     GeminiOpen 1%nat;
     GeminiMessage 1%nat (Some (JObject [("setupComplete", JBool true)]))]
    [ClientMessage 0%nat (BinaryData ["M"%byte; "a"%byte; "n"%byte]) 1700000000500;
     ClientMessage 0%nat (TextData (Some (JObject [("type", JString "interrupt")])))
       1700000000550;
     ClientMessage 0%nat (BinaryData ["M"%byte; "a"%byte]) 1700000000600;
     GeminiMessage 1%nat (signal "turnComplete");
     ClientMessage 0%nat (BinaryData ["M"%byte]) 1700000000700]
    (generateConnectionId 1700000000000 [x00; x01; xfe; xff]) 1%nat) as H.
  destruct H as [H1 H2]; [vm_compute; reflexivity|].
  split; [exact H1|]. exact (proj1 (H2 ["M"%byte; "a"%byte])).
Defined.

(** ** No exception escapes a listener *)

Lemma kcc_refl s : keeps_clients_connected s s.
Proof. by intros ?. Qed.

Lemma kcc_trans s1 s2 s3 :
  keeps_clients_connected s1 s2 → keeps_clients_connected s2 s3 →
  keeps_clients_connected s1 s3.
Proof. unfold keeps_clients_connected. eauto. Qed.

Lemma kcc_send h f : preserves keeps_clients_connected (send h f).
Proof.
  intros s. unfold send. destruct (heap s !! h) as [w|] eqn:E; [|apply kcc_refl].
  destruct (readyState w) eqn:Est; try apply kcc_refl. simpl.
  intros Hc h' w'. simpl. rewrite lookup_insert. case_decide; subst; [|apply Hc].
  intros [= <-]. unfold is_client. simpl. intros _. by rewrite Est.
Qed.

Lemma kcc_alter_socket (f : WebSocket → WebSocket) h :
  (∀ w, listeners (f w) = listeners w) →
  (∀ w, readyState w ≠ CONNECTING → readyState (f w) ≠ CONNECTING) →
  preserves keeps_clients_connected (modify (with_heap (alter f h))).
Proof.
  intros Hl Hst s Hc h' w'. simpl. rewrite lookup_alter. case_decide; subst; [|apply Hc].
  destruct (heap s !! h') as [w|] eqn:E; simpl; [|done].
  intros [= <-]. unfold is_client. rewrite Hl. intros Hcl. apply Hst. by apply (Hc h').
Qed.

Lemma kcc_close h : preserves keeps_clients_connected (close h).
Proof.
  apply kcc_alter_socket; [done|]. intros w Hw. simpl. by destruct (readyState w).
Qed.

Lemma kcc_set_readyState h st :
  st ≠ CONNECTING → preserves keeps_clients_connected (set_readyState h st).
Proof. intros Hst. by apply kcc_alter_socket. Qed.

Lemma kcc_alloc st l :
  (st ≠ CONNECTING ∨ ∃ id, l = GeminiListeners id) →
  preserves keeps_clients_connected (alloc st l).
Proof.
  intros Hst s Hc h w. simpl. rewrite lookup_insert. case_decide; subst; [|apply Hc].
  intros [= <-]. unfold is_client. simpl. destruct Hst as [?|[id ->]]; done.
Qed.

Lemma kcc_registry f : preserves keeps_clients_connected (modify (with_connections f)).
Proof. by intros s Hc. Qed.

Lemma kcc_update id f : preserves keeps_clients_connected (update id f).
Proof. by intros s Hc. Qed.

Local Ltac kcc_prim :=
  first
    [ apply kcc_send
    | apply kcc_close
    | apply kcc_set_readyState; discriminate
    | apply kcc_alloc; first [left; discriminate|right; eauto]
    | apply kcc_update
    | apply kcc_registry ].

Lemma kcc_handler key model e : preserves keeps_clients_connected (handler key model e).
Proof.
  pose proof kcc_refl as KR. pose proof kcc_trans as KT.
  destruct e; simpl handler;
    unfold on_connection, initializeGeminiSession, client_on_message, handleAudioInput,
      handleClientMessage, cleanupConnection, gemini_on_open, gemini_on_message,
      handleGeminiMessage, forOfParts, forwardPart, gemini_on_close, gemini_on_error,
      notifyClient, sweep, shutdown;
    repeat (preserves_step KR KT kcc_prim).
Qed.

Lemma clients_connected_run key model es :
  clients_connected (run key model init es).
Proof.
  assert (∀ s, clients_connected s → clients_connected (run key model s es)) as H.
  { induction es as [|e es IH]; intros s Hs; [done|].
    change (run key model s (e :: es)) with (run key model (step key model s e) es).
    apply IH. by apply (kcc_handler key model e s). }
  apply H. intros h w. simpl. by rewrite lookup_empty.
Qed.

Lemma returns_bind (m k : M unit) s :
  returns m s → returns k (exec m s) → returns (bind m (fun _ => k)) s.
Proof.
  unfold returns, exec, bind. destruct (m s) as [[[]|e] s1]; simpl; [done|].
  intros [=].
Qed.

Lemma returns_forEach {A} (body : A → M unit) l s :
  (∀ x s', returns (body x) s') → returns (forEach body l) s.
Proof.
  intros Hb. revert s. induction l as [|x l IH]; intros s; [done|].
  simpl. apply returns_bind; [apply Hb|apply IH].
Qed.

Lemma returns_cleanupConnection id s : returns (cleanupConnection id) s.
Proof.
  unfold returns. destruct (activeConnections s !! id) as [c|] eqn:E.
  - by rewrite (cleanupConnection_present _ _ _ E).
  - by rewrite (cleanupConnection_absent _ _ E).
Qed.

Lemma returns_notifyClient id v s : returns (notifyClient id v) s.
Proof.
  unfold returns, notifyClient. unfold_js.
  destruct (activeConnections s !! id) as [c|]; [|done].
  case_bool_decide as Ho; [|done]. simpl.
  destruct (readyState_of_open _ _ Ho) as (w & Hw & Hst).
  by rewrite (send_open _ _ _ _ Hw Hst).
Qed.

Lemma returns_handleAudioInput id audio now s : returns (handleAudioInput id audio now) s.
Proof.
  unfold returns. destruct (activeConnections s !! id) as [c|] eqn:E.
  - by rewrite (handleAudioInput_registered _ _ _ _ _ E).
  - by rewrite (handleAudioInput_unregistered _ _ _ _ E).
Qed.

Lemma send_returns_on_client ws id f s :
  clients_connected s → listeners_of ws s = Some (ClientListeners id) →
  returns (send ws f) s.
Proof.
  intros Hc Hl. unfold returns, send. unfold listeners_of in Hl.
  destruct (heap s !! ws) as [w|] eqn:Hw; [|done]. simpl in Hl.
  destruct (readyState w) eqn:Hst; try done.
  destruct (Hc ws w Hw); [|done]. unfold is_client. by injection Hl as ->.
Qed.

(** [try { body } catch { ws.send(...) }] on a client socket. *)
Lemma returns_try_catch_send (body : M unit) ws id f s :
  preserves keeps_clients_connected body →
  preserves (evolves (fun _ => eq)) body →
  clients_connected s → listeners_of ws s = Some (ClientListeners id) →
  returns (try_catch body (send ws f)) s.
Proof.
  intros Hk He Hc Hl. specialize (Hk s Hc). specialize (He s).
  apply (evolves_listeners _ _ _ _ _ He) in Hl.
  unfold returns, try_catch. destruct (body s) as [[[]|err] s1]; simpl in *; [done|].
  by apply (send_returns_on_client ws id).
Qed.

Lemma returns_client_on_message id ws data now s :
  clients_connected s → listeners_of ws s = Some (ClientListeners id) →
  returns (client_on_message id ws data now) s.
Proof.
  pose proof kcc_refl as KR. pose proof kcc_trans as KT.
  assert (∀ (id : string) (b : bool), b = b) as ER by done.
  assert (∀ (id : string) (b1 b2 b3 : bool), b1 = b2 → b2 = b3 → b1 = b3) as ET
    by (intros; congruence).
  intros Hc Hl. unfold client_on_message. apply (returns_try_catch_send _ ws id); try done.
  - destruct data as [audio|[m|]];
      unfold handleAudioInput, handleClientMessage; repeat (preserves_step KR KT kcc_prim).
  - destruct data as [audio|[m|]].
    + by apply preserves_handleAudioInput.
    + by apply preserves_handleClientMessage.
    + by apply preserves_throw, evolves_refl.
Qed.

(** X1. In every reachable state a listener runs to completion: whatever is
    thrown inside is caught inside. *)
Theorem no_exception_escapes key model es e :
  returns (handler key model e) (run key model init es).
Proof.
  pose proof (clients_connected_run key model es) as Hc.
  set (s := run key model init es) in *. clearbody s.
  destruct e as [now r0 r1 r2 r3 now'|ws data now|ws|ws|h|h payload|h|h|now|sig];
    simpl handler.
  - unfold returns, on_connection, initializeGeminiSession, alloc. unfold_js.
    destruct (negb _); simpl; [|done].
    unfold readyState_of. simpl. rewrite lookup_insert_eq. simpl.
    unfold send. simpl. by rewrite lookup_insert_eq.
  - unfold returns. unfold bind at 1, gets at 1.
    destruct (listeners_of ws s) as [[id|id]|] eqn:Hl; try done.
    by apply returns_client_on_message.
  - unfold returns. unfold bind at 1, gets at 1.
    destruct (listeners_of ws s) as [[id|id]|] eqn:Hl; try done.
    apply returns_bind; [done|apply returns_cleanupConnection].
  - unfold returns. unfold bind at 1, gets at 1.
    destruct (listeners_of ws s) as [[id|id]|] eqn:Hl; try done.
    apply returns_bind; [done|apply returns_cleanupConnection].
  - unfold returns. unfold bind at 1, gets at 1. unfold bind at 1, gets at 1.
    destruct (listeners_of h s) as [[id|id]|] eqn:Hl; try done.
    destruct (readyState_of h s) eqn:Hst; try done.
    apply returns_bind; [done|].
    unfold returns, exec, set_readyState, modify, gemini_on_open, send. simpl.
    rewrite lookup_alter_eq. unfold readyState_of in Hst.
    by destruct (heap s !! h).
  - unfold returns. unfold bind at 1, gets at 1.
    destruct (listeners_of h s) as [[id|id]|] eqn:Hl; try done.
    unfold gemini_on_message, try_catch, ret.
    destruct payload as [m|]; [|done].
    by destruct (handleGeminiMessage id m s) as [[[]|?] ?].
  - unfold returns. unfold bind at 1, gets at 1.
    destruct (listeners_of h s) as [[id|id]|] eqn:Hl; try done.
    apply returns_bind; [done|apply returns_notifyClient].
  - unfold returns. unfold bind at 1, gets at 1.
    destruct (listeners_of h s) as [[id|id]|] eqn:Hl; try done.
    apply returns_bind; [done|apply returns_notifyClient].
  - unfold sweep, returns. unfold bind at 1, gets at 1.
    apply returns_forEach. intros x s'. destruct (_ >? _); [|done].
    apply returns_cleanupConnection.
  - unfold shutdown, returns. unfold bind at 1, gets at 1.
    apply returns_forEach. intros x s'. apply returns_cleanupConnection.
Qed.

(** ** The ready flag *)

Lemma ks_refl s : keeps_sockets s s.
Proof. by intros ?. Qed.

Lemma ks_trans s1 s2 s3 : keeps_sockets s1 s2 → keeps_sockets s2 s3 → keeps_sockets s1 s3.
Proof. unfold keeps_sockets. eauto. Qed.

Lemma ks_alter (f : WebSocket → WebSocket) h :
  preserves keeps_sockets (modify (with_heap (alter f h))).
Proof.
  intros s h' Hh'. simpl. rewrite lookup_alter. case_decide; subst; by rewrite Hh'.
Qed.

Lemma ks_send h f : preserves keeps_sockets (send h f).
Proof.
  intros s. unfold send. destruct (heap s !! h) as [w|] eqn:E; [|apply ks_refl].
  destruct (readyState w); try apply ks_refl.
  intros h' Hh'. simpl. rewrite lookup_insert_ne; [done|]. intros <-. congruence.
Qed.

Lemma ks_registry (f : gmap string Connection → gmap string Connection) :
  preserves keeps_sockets (modify (with_connections f)).
Proof. by intros s h. Qed.

Local Ltac ks_prim :=
  first [apply ks_send|apply ks_alter|apply ks_registry].

(** Only a new connection creates sockets. *)
Lemma ks_handler key model e :
  (∀ now r0 r1 r2 r3 now', e ≠ Connect now r0 r1 r2 r3 now') →
  preserves keeps_sockets (handler key model e).
Proof.
  pose proof ks_refl as KR. pose proof ks_trans as KT.
  intros He.
  destruct e as [now r0 r1 r2 r3 now'|ws data now|ws|ws|g|g payload|g|g|now|sig];
    [by destruct (He now r0 r1 r2 r3 now')|..];
    simpl handler;
    unfold client_on_message, handleAudioInput, handleClientMessage,
      cleanupConnection, gemini_on_open, gemini_on_message, handleGeminiMessage, forOfParts,
      forwardPart, gemini_on_close, gemini_on_error, notifyClient, sweep, shutdown,
      close, set_readyState, update;
    repeat (preserves_step KR KT ks_prim).
Qed.

(** Without a credential a new connection leaves the registry alone. *)
Lemma step_Connect_unconfigured key model s now r0 r1 r2 r3 now' :
  truthy (JString <$> key) = false →
  activeConnections (step key model s (Connect now r0 r1 r2 r3 now')) = activeConnections s.
Proof.
  intros Hkey. unfold step, exec, handler, on_connection, initializeGeminiSession, alloc.
  unfold_js. rewrite Hkey. simpl.
  unfold readyState_of. simpl. rewrite lookup_insert_eq. simpl.
  unfold send. simpl. by rewrite lookup_insert_eq.
Qed.

(** A record that a step puts into the registry is not ready. *)
Lemma new_record_not_ready key model s e id c' :
  activeConnections (step key model s e) !! id = Some c' →
  (∀ c, activeConnections s !! id = Some c → geminiWs c ≠ geminiWs c') →
  connected c' = false.
Proof.
  intros Hc' Hnew.
  assert (activeConnections s !! id ≠ Some c') as Hold.
  { intros Hc. by apply (Hnew c'). }
  assert ((∃ now r0 r1 r2 r3 now', e = Connect now r0 r1 r2 r3 now')
          ∨ (∀ now r0 r1 r2 r3 now', e ≠ Connect now r0 r1 r2 r3 now')) as He.
  { destruct e; [left; eauto 10|right; intros; discriminate..]. }
  destruct He as [(now & r0 & r1 & r2 & r3 & now' & ->)|Hne].
  - destruct (truthy (JString <$> key)) eqn:Hkey.
    + rewrite step_Connect_configured in Hc' by done. simpl in Hc'.
      rewrite lookup_insert in Hc'. case_decide; [|done]. by injection Hc' as <-.
    + by rewrite step_Connect_unconfigured in Hc'.
  - destruct (step_evolves key model s e) as [_ Hr].
    destruct (Hr _ _ Hc') as [[Hn [w Hw]]|(c & Hc & Hg & _)].
    + assert (heap (step key model s e) !! geminiWs c' = None); [|congruence].
      by apply (ks_handler key model e).
    + by destruct (Hnew c Hc).
Qed.

Section Ready.
Variable id : string.
Variables ws g : handle.

Lemma kr_refl s : keeps_ready id ws g s s.
Proof. by intros ?. Qed.

Lemma kr_trans s1 s2 s3 :
  keeps_ready id ws g s1 s2 → keeps_ready id ws g s2 s3 → keeps_ready id ws g s1 s3.
Proof. unfold keeps_ready. eauto. Qed.

Lemma kr_send h f : preserves (keeps_ready id ws g) (send h f).
Proof.
  intros s. unfold send. destruct (heap s !! h) as [w|]; [|apply kr_refl].
  destruct (readyState w); try apply kr_refl. by intros ?.
Qed.

Lemma kr_update id' (f : Connection → Connection) :
  (∀ c, (connected c = true → connected (f c) = true)
        ∧ geminiWs (f c) = geminiWs c ∧ clientWs (f c) = clientWs c) →
  preserves (keeps_ready id ws g) (update id' f).
Proof.
  intros Hf s (c & Hc & Hr & Hg & Hw). simpl. unfold ready_record. simpl.
  destruct (decide (id' = id)) as [->|Hne].
  - exists (f c). rewrite lookup_alter_eq, Hc. destruct (Hf c) as (H1 & -> & ->).
    split_and!; [done|by apply H1|done..].
  - exists c. by rewrite lookup_alter_ne.
Qed.

Local Ltac kr_prim :=
  first [apply kr_send|apply kr_update; intros ?; split_and!; [by intros|done..]].

(** A message with a truthy [setupComplete], on a record whose client
    socket is open. *)
Lemma handleGeminiMessage_sets_ready m s c :
  activeConnections s !! id = Some c →
  clientWs c = ws → geminiWs c = g →
  readyState_of ws s = OPEN →
  setupComplete_in m →
  ready_record id ws g (snd (handleGeminiMessage id m s)).
Proof.
  pose proof kr_refl as KR. pose proof kr_trans as KT.
  intros Hc Hws Hg Ho (v & Hv & Ht).
  destruct (readyState_of_open _ _ Ho) as (w & Hw & Hst).
  unfold handleGeminiMessage. unfold bind at 1, gets at 1. cbv beta iota.
  rewrite Hc. cbv beta iota. rewrite Hws.
  unfold bind at 1, is_open at 1, gets at 1. cbv beta iota.
  rewrite bool_decide_eq_true_2 by done. cbv beta iota delta [negb].
  unfold bind at 1, lift at 1. rewrite Hv. cbv beta iota. rewrite Ht.
  unfold when at 1. cbv beta iota. unfold bind at 1.
  assert ((update id (set_connected true);; send ws (text (connectedStatus id)))%js s
          = (Ok tt, with_heap (insert ws (push (text (connectedStatus id)) w))
                      (with_connections (alter (set_connected true) id) s))) as ->.
  { unfold bind, update, modify. cbv beta iota.
    by rewrite (send_open ws _ (with_connections (alter (set_connected true) id) s) w Hw Hst). }
  cbv beta iota.
  match goal with
  | |- ready_record _ _ _ (snd (?m ?s1)) =>
      assert (preserves (keeps_ready id ws g) m) as Hp
  end.
  { unfold forOfParts, forwardPart. repeat (preserves_step KR KT kr_prim). }
  apply Hp. exists (set_connected true c). simpl.
  rewrite lookup_alter_eq, Hc. by split_and!.
Qed.

End Ready.

(** C2. A record that a step puts into the registry is not ready: its
    flag [connected] is false.  Between two states of a run in which the
    record lives (the record under the same id still owns the same upstream
    socket) the flag is either unchanged or has gone from false to true,
    and the latter only if a message with a truthy [setupComplete] arrived
    in between on an upstream socket of that connection; so the flag never
    goes back to false and is set at most once.  And such a message does
    set it: after a message with a truthy [setupComplete] on an upstream
    socket of the connection, the record, if its client socket is open
    (line 212), is ready. *)
Theorem C2_ready_flag key model es :
  let s := run key model init es in
  (∀ s0 e id c',
     activeConnections (step key model s0 e) !! id = Some c' →
     (∀ c, activeConnections s0 !! id = Some c → geminiWs c ≠ geminiWs c') →
     connected c' = false)
  ∧ (∀ es' id c c',
       activeConnections s !! id = Some c →
       activeConnections (run key model s es') !! id = Some c' →
       geminiWs c' = geminiWs c →
       connected c' = connected c
       ∨ (connected c = false ∧ connected c' = true
          ∧ setup_among (run key model s es') es' id))
  ∧ (∀ s0 g m id c,
       listeners_of g s0 = Some (GeminiListeners id) →
       activeConnections s0 !! id = Some c →
       readyState_of (clientWs c) s0 = OPEN →
       setupComplete_in m →
       ∃ c', activeConnections (step key model s0 (GeminiMessage g (Some m))) !! id = Some c'
             ∧ connected c' = true ∧ geminiWs c' = geminiWs c ∧ clientWs c' = clientWs c).
Proof.
  intros s. split_and!.
  - intros s0 e id c'. apply new_record_not_ready.
  - intros es' id c c' Hc Hc' Hg.
    assert (is_Some (heap s !! geminiWs c)) as [w Hw].
    { by eapply run_init_upstream_allocated. }
    destruct (run_evolves key model es' s) as [_ Hr].
    destruct (Hr _ _ Hc') as [[Hn _]|(c0 & Hc0 & _ & _ & HP)].
    + rewrite Hg in Hn. congruence.
    + rewrite Hc in Hc0. injection Hc0 as <-.
      destruct HP as [->|(?&?&?)]; [by left|by right].
  - intros s0 g m id c Hl Hc Ho Hm.
    rewrite (step_GeminiMessage _ _ _ _ _ _ Hl).
    pose proof (handleGeminiMessage_sets_ready id (clientWs c) (geminiWs c) m s0 c
                  Hc eq_refl eq_refl Ho Hm) as (c' & Hc' & H1 & H2 & H3).
    exists c'. split_and!; [|done..].
    unfold exec, gemini_on_message, try_catch.
    by destruct (handleGeminiMessage id m s0) as [[[]|err] s1].
Qed.

Lemma C2_ready_flag_witness :
  let key := Some "k" in
  let id := generateConnectionId 1700000000000 [x00; x01; xfe; xff] in
  let setupComplete := JObject [("setupComplete", JObject [])] in
  let s1 := run key "m" init [Connect 1700000000000 x00 x01 xfe xff 1700000000001] in
  let s2 := run key "m" s1 [GeminiOpen 1%nat] in
  let s3 := run key "m" s2 [GeminiMessage 1%nat (Some setupComplete)] in
  let c1 := {| clientWs := 0; geminiWs := 1; connected := false;
               lastActivity := 1700000000001; isGenerating := false |} in
  let c3 := set_connected true c1 in
  activeConnections s1 !! id = Some c1
  ∧ connected c1 = false
  ∧ activeConnections s3 !! id = Some c3
  ∧ (connected c3 = connected c1
     ∨ (connected c1 = false ∧ connected c3 = true
        ∧ setup_among s3 [GeminiMessage 1%nat (Some setupComplete)] id))
  ∧ ∃ c', activeConnections s3 !! id = Some c' ∧ connected c' = true
          ∧ geminiWs c' = 1%nat ∧ clientWs c' = 0%nat.
Proof.
  pose proof (C2_ready_flag (Some "k") "m"
    [Connect 1700000000000 x00 x01 xfe xff 1700000000001; GeminiOpen 1%nat]) as (Ha & Hb & Hc).
  split_and!.
  - vm_compute; reflexivity.
  - apply (Ha init (Connect 1700000000000 x00 x01 xfe xff 1700000000001)
             (generateConnectionId 1700000000000 [x00; x01; xfe; xff])).
    + vm_compute; reflexivity.
    + intros c H. vm_compute in H. discriminate H.
  - vm_compute; reflexivity.
  - apply (Hb [GeminiMessage 1%nat (Some (JObject [("setupComplete", JObject [])]))]
             (generateConnectionId 1700000000000 [x00; x01; xfe; xff]));
      vm_compute; reflexivity.
  - apply (Hc _ 1%nat (JObject [("setupComplete", JObject [])])
             (generateConnectionId 1700000000000 [x00; x01; xfe; xff])
             {| clientWs := 0; geminiWs := 1; connected := false;
                lastActivity := 1700000000001; isGenerating := false |}).
    + vm_compute; reflexivity.
    + vm_compute; reflexivity.
    + vm_compute; reflexivity.
    + exists (Some (JObject [])). split; reflexivity.
Defined.

(** ** The idle sweep *)

Lemma exec_bind_returns (m k : M unit) s :
  returns m s → exec (bind m (fun _ => k)) s = exec k (exec m s).
Proof.
  unfold returns, exec, bind. destruct (m s) as [[[]|e] s1]; simpl; [done|]. intros [=].
Qed.

Lemma cleanupConnection_registry id s :
  activeConnections (exec (cleanupConnection id) s) = delete id (activeConnections s).
Proof.
  destruct (activeConnections s !! id) as [c|] eqn:E; unfold exec.
  - rewrite (cleanupConnection_present _ _ _ E). simpl. by case_bool_decide.
  - rewrite (cleanupConnection_absent _ _ E). simpl. symmetry. by apply delete_id.
Qed.

(** The registry after tearing down the entries of [l] that satisfy [p]. *)
Lemma forEach_cleanup_registry (p : string * Connection → bool) l s :
  activeConnections
    (exec (forEach (fun e => when (p e) (cleanupConnection (fst e))) l) s)
  = foldl (fun m e => if p e then delete (fst e) m else m) (activeConnections s) l.
Proof.
  revert s. induction l as [|e l IH]; intros s; [done|].
  simpl forEach. rewrite exec_bind_returns.
  - rewrite IH. simpl. f_equal. unfold when. destruct (p e); [|done].
    apply cleanupConnection_registry.
  - destruct (p e); [apply returns_cleanupConnection|done].
Qed.

Lemma foldl_delete_lookup (p : string * Connection → bool) l (m : gmap string Connection) id :
  foldl (fun m e => if p e then delete (fst e) m else m) m l !! id
  = if bool_decide (Exists (fun e => fst e = id ∧ p e = true) l) then None else m !! id.
Proof.
  revert m. induction l as [|e l IH]; intros m.
  - rewrite bool_decide_eq_false_2; [done|]. by intros H%Exists_nil.
  - simpl foldl. rewrite IH. case_bool_decide as H1; case_bool_decide as H2; try done.
    + destruct H2. by apply Exists_cons_tl.
    + apply Exists_cons in H2 as [[Hid Hp]|H2]; [|done].
      rewrite Hp, <- Hid. apply lookup_delete_eq.
    + destruct (p e) eqn:Hp; [|done]. rewrite lookup_delete_ne; [done|].
      intros Hid. apply H2. by apply Exists_cons_hd.
Qed.

(** X8. An idle sweep removes exactly the records whose last activity is
    more than five minutes old: a record whose last activity is exactly
    five minutes old stays, and neither [connected] nor [isGenerating]
    plays a part. *)
Theorem sweep_removes_expired key model s now :
  activeConnections (step key model s (Tick now))
  = filter (fun e => (now - lastActivity (snd e) ≤ 5 * 60 * 1000)%Z) (activeConnections s).
Proof.
  unfold step, handler, sweep. unfold exec at 1, bind at 1, gets at 1.
  change (snd ?x) with (exec (fun s => x) s) at 1. cbv beta.
  pose proof (forEach_cleanup_registry (fun e => expired now (snd e))
                (map_to_list (activeConnections s)) s) as H.
  unfold expired, exec in H. unfold timeout in *.
  etransitivity; [exact H|]. apply map_eq. intros id.
  rewrite foldl_delete_lookup, map_lookup_filter.
  destruct (activeConnections s !! id) as [c|] eqn:Hc; simpl.
  - case_bool_decide as He.
    + apply Exists_exists in He as ([id' c'] & Hin & Hid & Hexp). simpl in *. subst id'.
      apply elem_of_map_to_list in Hin. rewrite Hc in Hin. injection Hin as <-.
      rewrite option_guard_False; [done|]. simpl. apply Z.gtb_lt in Hexp. lia.
    + rewrite option_guard_True; [done|]. simpl.
      destruct (decide (now - lastActivity c ≤ 5 * 60 * 1000)%Z) as [|Hgt]; [done|].
      destruct He. apply Exists_exists. exists (id, c).
      split; [by apply elem_of_map_to_list|].
      split; [done|]. simpl. apply Z.gtb_lt. lia.
  - by case_bool_decide.
Qed.

(** Teardown only ever moves a socket from open to closing. *)
Lemma cleanupConnection_readyState id s h :
  readyState_of h (exec (cleanupConnection id) s) = readyState_of h s
  ∨ (readyState_of h s = OPEN ∧ readyState_of h (exec (cleanupConnection id) s) = CLOSING).
Proof.
  destruct (activeConnections s !! id) as [c|] eqn:E; unfold exec.
  - rewrite (cleanupConnection_present _ _ _ E). simpl.
    case_bool_decide as Ho; [|by left]. unfold readyState_of in *. simpl.
    rewrite lookup_alter. case_decide; subst; [|by left].
    destruct (heap s !! geminiWs c) as [w|]; simpl in *; [|done].
    right. by rewrite Ho.
  - rewrite (cleanupConnection_absent _ _ E). by left.
Qed.

Lemma cleanupConnection_closes id s c :
  activeConnections s !! id = Some c → readyState_of (geminiWs c) s = OPEN →
  readyState_of (geminiWs c) (exec (cleanupConnection id) s) = CLOSING.
Proof.
  intros Hc Ho. unfold exec. rewrite (cleanupConnection_present _ _ _ Hc). simpl.
  rewrite bool_decide_eq_true_2 by done. unfold readyState_of in *. simpl.
  rewrite lookup_alter_eq. destruct (heap s !! geminiWs c); simpl in *; [|done].
  by rewrite Ho.
Qed.

Lemma forEach_cleanup_keeps_closing (p : string * Connection → bool) l s h :
  readyState_of h s = CLOSING →
  readyState_of h (exec (forEach (fun e => when (p e) (cleanupConnection (fst e))) l) s)
  = CLOSING.
Proof.
  revert s. induction l as [|e l IH]; intros s Hs; [done|].
  simpl forEach. rewrite exec_bind_returns.
  - apply IH. unfold when. destruct (p e); [|done].
    destruct (cleanupConnection_readyState (fst e) s h) as [Heq|[? ?]]; congruence.
  - destruct (p e); [apply returns_cleanupConnection|done].
Qed.

(** Tearing down the entries of a snapshot of the registry closes the open
    upstream socket of every entry that is selected. *)
Lemma forEach_cleanup_closes (p : string * Connection → bool) l s e :
  NoDup (fst <$> l) →
  (∀ e', e' ∈ l → activeConnections s !! fst e' = Some (snd e')) →
  e ∈ l → p e = true → readyState_of (geminiWs (snd e)) s = OPEN →
  readyState_of (geminiWs (snd e))
    (exec (forEach (fun e => when (p e) (cleanupConnection (fst e))) l) s) = CLOSING.
Proof.
  revert s. induction l as [|e0 l IH]; intros s Hnd Hreg Hin Hp Ho.
  - by apply elem_of_nil in Hin.
  - rewrite fmap_cons in Hnd. apply NoDup_cons in Hnd as [Hnot Hnd].
    simpl forEach. rewrite exec_bind_returns;
      [|destruct (p e0); [apply returns_cleanupConnection|done]].
    apply elem_of_cons in Hin as [->|Hin].
    + rewrite Hp. unfold when. apply forEach_cleanup_keeps_closing.
      apply cleanupConnection_closes; [|done]. apply Hreg. by left.
    + set (s1 := exec (when (p e0) (cleanupConnection (fst e0))) s).
      assert (∀ e', e' ∈ l → activeConnections s1 !! fst e' = Some (snd e')) as Hreg1.
      { intros e' He'. subst s1. unfold when. destruct (p e0); [|simpl].
        - rewrite cleanupConnection_registry, lookup_delete_ne; [apply Hreg; by right|].
          intros Heq. apply Hnot. rewrite Heq. by apply list_elem_of_fmap_2.
        - apply Hreg. by right. }
      assert (readyState_of (geminiWs (snd e)) s1 = OPEN
              ∨ readyState_of (geminiWs (snd e)) s1 = CLOSING) as [Ho1|Hc1].
      { subst s1. unfold when. destruct (p e0); [|by left].
        destruct (cleanupConnection_readyState (fst e0) s (geminiWs (snd e))) as [Heq|[_ Heq]];
          [left; congruence|by right]. }
      * by apply IH.
      * by apply forEach_cleanup_keeps_closing.
Qed.

Lemma step_Tick key model s now :
  step key model s (Tick now)
  = exec (forEach (fun e => when (expired now (snd e)) (cleanupConnection (fst e)))
            (map_to_list (activeConnections s))) s.
Proof. reflexivity. Qed.

Lemma step_Kill key model s sig :
  step key model s (Kill sig)
  = exec (forEach (fun e => when true (cleanupConnection (fst e)))
            (map_to_list (activeConnections s))) s.
Proof. reflexivity. Qed.

Lemma snapshot_entries (s : Server) e :
  e ∈ map_to_list (activeConnections s) → activeConnections s !! fst e = Some (snd e).
Proof. destruct e as [id c]. apply elem_of_map_to_list. Qed.

(** X9. An idle sweep calls [close] on the open upstream socket of every
    record it removes. *)
Theorem sweep_closes_upstream key model s now id c :
  activeConnections s !! id = Some c →
  (now - lastActivity c > 5 * 60 * 1000)%Z →
  readyState_of (geminiWs c) s = OPEN →
  readyState_of (geminiWs c) (step key model s (Tick now)) = CLOSING
  ∧ activeConnections (step key model s (Tick now)) !! id = None.
Proof.
  intros Hc Hexp Ho. split.
  - rewrite step_Tick.
    apply (forEach_cleanup_closes (fun e => expired now (snd e)) _ s (id, c)).
    + apply NoDup_fst_map_to_list.
    + apply snapshot_entries.
    + by apply elem_of_map_to_list.
    + unfold expired, timeout. simpl. apply Z.gtb_lt. lia.
    + done.
  - rewrite sweep_removes_expired, map_lookup_filter, Hc. simpl.
    rewrite option_guard_False; [done|]. simpl. lia.
Qed.

Lemma sweep_closes_upstream_witness :
  let key := Some "k" in
  let id := generateConnectionId 1700000000000 [x00; x01; xfe; xff] in
  let s := run key "m" init [Connect 1700000000000 x00 x01 xfe xff 1700000000001;
                             GeminiOpen 1%nat] in
  readyState_of 1%nat (step key "m" s (Tick 1700000300002)) = CLOSING
  ∧ activeConnections (step key "m" s (Tick 1700000300002)) !! id = None.
Proof.
  apply (sweep_closes_upstream (Some "k") "m"
    (run (Some "k") "m" init [Connect 1700000000000 x00 x01 xfe xff 1700000000001;
                              GeminiOpen 1%nat])
    1700000300002 (generateConnectionId 1700000000000 [x00; x01; xfe; xff])
    {| clientWs := 0; geminiWs := 1; connected := false;
       lastActivity := 1700000000001; isGenerating := false |});
    vm_compute; reflexivity.
Defined.

(** ** Shutdown *)

(** X11. A termination signal empties the registry and calls [close] on
    the open upstream socket of every record; a second signal changes
    nothing. *)
Theorem shutdown_tears_down_all key model s sig sig' id c :
  activeConnections s !! id = Some c →
  readyState_of (geminiWs c) s = OPEN →
  let s' := step key model s (Kill sig) in
  activeConnections s' = ∅
  ∧ readyState_of (geminiWs c) s' = CLOSING
  ∧ step key model s' (Kill sig') = s'.
Proof.
  intros Hc Ho s'.
  assert (activeConnections s' = ∅) as Hempty.
  { subst s'. rewrite step_Kill.
    rewrite (forEach_cleanup_registry (fun _ => true)). apply map_eq. intros id'.
    rewrite (foldl_delete_lookup (fun _ => true)), lookup_empty.
    case_bool_decide as He; [done|].
    destruct (activeConnections s !! id') as [c'|] eqn:Hc'; [|done].
    destruct He. apply Exists_exists. exists (id', c').
    split; [by apply elem_of_map_to_list|done]. }
  split_and!; [done| |].
  - subst s'. rewrite step_Kill.
    apply (forEach_cleanup_closes (fun _ => true) _ s (id, c));
      [apply NoDup_fst_map_to_list|apply snapshot_entries|by apply elem_of_map_to_list|done..].
  - rewrite step_Kill, Hempty, map_to_list_empty. done.
Qed.

Lemma shutdown_tears_down_all_witness :
  let key := Some "k" in
  let s := run key "m" init [Connect 1700000000000 x00 x01 xfe xff 1700000000001;
                             GeminiOpen 1%nat;
                             Connect 1700000000005 x0a x0b x0c x0d 1700000000006] in
  let s' := step key "m" s (Kill SIGTERM) in
  activeConnections s' = ∅
  ∧ readyState_of 1%nat s' = CLOSING
  ∧ step key "m" s' (Kill SIGINT) = s'.
Proof.
  apply (shutdown_tears_down_all (Some "k") "m"
    (run (Some "k") "m" init [Connect 1700000000000 x00 x01 xfe xff 1700000000001;
                              GeminiOpen 1%nat;
                              Connect 1700000000005 x0a x0b x0c x0d 1700000000006])
    SIGTERM SIGINT (generateConnectionId 1700000000000 [x00; x01; xfe; xff])
    {| clientWs := 0; geminiWs := 1; connected := false;
       lastActivity := 1700000000001; isGenerating := false |});
    vm_compute; reflexivity.
Defined.

(** ** Control messages from the client *)

Lemma handleClientMessage_control id m s c ty v :
  activeConnections s !! id = Some c →
  get (Some m) "type" = Ok (Some (JString ty)) →
  control ty v →
  handleClientMessage id m s
  = if bool_decide (readyState_of (geminiWs c) s = OPEN)
    then send (geminiWs c) (text v) s else (Ok tt, s).
Proof.
  intros Hc Hty Hk. unfold handleClientMessage. unfold_js. rewrite Hc, Hty.
  destruct Hk as [[-> ->]|[-> ->]]; simpl; by case_bool_decide.
Qed.

(** X12. Handed to the listener as a string, [interrupt] and
    [audio_stream_end] of a client with a record are passed on upstream
    whenever the upstream socket is open, whether or not the record is
    ready, and are dropped without reply otherwise; the record, its
    [lastActivity] included, is left as it is.  Handed over as a [Buffer],
    the same frame is taken for audio: its characters are forwarded in an
    audio envelope if the record is ready and the upstream socket open,
    and it is dropped otherwise. *)
Theorem control_forwarded_when_upstream_open key model s ws id c chars m now ty v :
  listeners_of ws s = Some (ClientListeners id) →
  activeConnections s !! id = Some c →
  get (Some m) "type" = Ok (Some (JString ty)) →
  control ty v →
  let s' := step key model s (ClientMessage ws (deliver Strings (TextFrame chars (Some m))) now) in
  let s'' := step key model s (ClientMessage ws (deliver Buffers (TextFrame chars (Some m))) now) in
  activeConnections s' = activeConnections s
  ∧ sent_of (geminiWs c) s'
    = (sent_of (geminiWs c) s
       ++ if bool_decide (readyState_of (geminiWs c) s = OPEN) then [text v] else [])%list
  ∧ (∀ h, h ≠ geminiWs c → heap s' !! h = heap s !! h)
  ∧ s'' = (if connected c && bool_decide (readyState_of (geminiWs c) s = OPEN)
           then forwarded id c (list_byte_of_string chars) now s else s).
Proof.
  intros Hl Hc Hty Hk s' s''. subst s' s''. unfold deliver.
  rewrite (step_binary_registered _ _ _ _ _ _ _ _ Hl Hc).
  rewrite (step_ClientMessage _ _ _ _ _ _ _ Hl).
  unfold exec, client_on_message, try_catch.
  rewrite (handleClientMessage_control _ _ _ _ _ _ Hc Hty Hk).
  case_bool_decide as Ho.
  - destruct (readyState_of_open _ _ Ho) as (w & Hw & Hst).
    rewrite (send_open _ _ _ _ Hw Hst). simpl. unfold sent_of. simpl.
    rewrite lookup_insert_eq, Hw. simpl. split_and!; [done..| |done].
    intros h Hne. by rewrite lookup_insert_ne.
  - simpl. by rewrite app_nil_r.
Qed.

Lemma control_forwarded_when_upstream_open_witness :
  let key := Some "k" in
  let id := generateConnectionId 1700000000000 [x00; x01; xfe; xff] in
  let interrupt := JObject [("type", JString "interrupt")] in
  let f := TextFrame (JSON_stringify interrupt) (Some interrupt) in
  let s := run key "m" init [Connect 1700000000000 x00 x01 xfe xff 1700000000001;
                             GeminiOpen 1%nat] in
  let s' := step key "m" s (ClientMessage 0%nat (deliver Strings f) 1700000000500) in
  let s'' := step key "m" s (ClientMessage 0%nat (deliver Buffers f) 1700000000500) in
  connected <$> activeConnections s !! id = Some false
  ∧ sent_of 1%nat s' = (sent_of 1%nat s ++ [text interruptMessage])%list
  ∧ s'' = s.
Proof.
  split; [vm_compute; reflexivity|].
  pose proof (control_forwarded_when_upstream_open (Some "k") "m"
    (run (Some "k") "m" init [Connect 1700000000000 x00 x01 xfe xff 1700000000001;
                              GeminiOpen 1%nat])
    0%nat (generateConnectionId 1700000000000 [x00; x01; xfe; xff])
    {| clientWs := 0; geminiWs := 1; connected := false;
       lastActivity := 1700000000001; isGenerating := false |}
    (JSON_stringify (JObject [("type", JString "interrupt")]))
    (JObject [("type", JString "interrupt")]) 1700000000500
    "interrupt" interruptMessage) as H.
  destruct H as (_ & H & _ & H'); [vm_compute; reflexivity..|by left|].
  split; [exact H|exact H'].
Defined.

(** X13. Handed to the listener as a string, a message whose [type] is
    none of [ping], [interrupt], [audio_stream_end] (or is missing, or is
    not a string) changes nothing and gets no reply. *)
Theorem unknown_type_ignored key model s ws chars m v now :
  get (Some m) "type" = Ok v →
  known_type v = false →
  step key model s (ClientMessage ws (deliver Strings (TextFrame chars (Some m))) now) = s.
Proof.
  intros Hty Hk. unfold deliver, step, exec, handler. unfold bind at 1, gets at 1.
  destruct (listeners_of ws s) as [[id|id]|]; try done.
  unfold client_on_message, try_catch, handleClientMessage. unfold_js.
  destruct (activeConnections s !! id) as [c|]; [|done]. rewrite Hty.
  destruct v as [[| | |ty| |]|]; try done. simpl in Hk.
  destruct (String.eqb ty "ping"); [done|].
  destruct (String.eqb ty "interrupt"); [done|].
  by destruct (String.eqb ty "audio_stream_end").
Qed.

Lemma unknown_type_ignored_witness :
  let s := run (Some "k") "m" init [Connect 1700000000000 x00 x01 xfe xff 1700000000001] in
  let m := JObject [("type", JString "pong")] in
  step (Some "k") "m" s
    (ClientMessage 0%nat (deliver Strings (TextFrame (JSON_stringify m) (Some m))) 1700000000500)
  = s.
Proof.
  apply (unknown_type_ignored (Some "k") "m" _ 0%nat _ (JObject [("type", JString "pong")])
           (Some (JString "pong")) 1700000000500); reflexivity.
Defined.

(** X14. Handed to the listener as a string, text that does not parse is
    answered with the processing error on the socket it came from, whether
    or not the connection has a record; the JSON text [null] is answered
    in the same way when the connection has a record (reading
    [message.type] throws) and is ignored when it has none.  The registry
    is untouched and the socket stays open. *)
Theorem malformed_text_answered key model s ws id chars now :
  listeners_of ws s = Some (ClientListeners id) →
  readyState_of ws s = OPEN →
  let answered s' :=
    activeConnections s' = activeConnections s
    ∧ readyState_of ws s' = OPEN
    ∧ sent_of ws s' = (sent_of ws s ++ [text processError])%list in
  let null := step key model s
                (ClientMessage ws (deliver Strings (TextFrame chars (Some JNull))) now) in
  answered (step key model s (ClientMessage ws (deliver Strings (TextFrame chars None)) now))
  ∧ (is_Some (activeConnections s !! id) → answered null)
  ∧ (activeConnections s !! id = None → null = s).
Proof.
  intros Hl Ho answered null. subst null. unfold deliver.
  destruct (readyState_of_open _ _ Ho) as (w & Hw & Hst).
  assert (answered (exec (send ws (text processError)) s)) as Hans.
  { unfold exec. rewrite (send_open _ _ _ _ Hw Hst). unfold answered, readyState_of, sent_of.
    simpl. by rewrite lookup_insert_eq, Hw. }
  rewrite !(step_ClientMessage _ _ _ _ _ _ _ Hl). split_and!.
  - exact Hans.
  - intros [c Hc]. unfold exec, client_on_message, try_catch, handleClientMessage. unfold_js.
    rewrite Hc. exact Hans.
  - intros Hc. unfold exec, client_on_message, try_catch, handleClientMessage. unfold_js.
    by rewrite Hc.
Qed.

Lemma malformed_text_answered_witness :
  let s := run None "m" init [Connect 1700000000000 x00 x01 xfe xff 1700000000001] in
  let s' := step None "m" s
              (ClientMessage 0%nat (deliver Strings (TextFrame "{" None)) 1700000000500) in
  let s'' := step None "m" s
               (ClientMessage 0%nat (deliver Strings (TextFrame "null" (Some JNull)))
                  1700000000500) in
  sent_of 0%nat s' = (sent_of 0%nat s ++ [text processError])%list
  ∧ s'' = s.
Proof.
  pose proof (malformed_text_answered None "m"
    (run None "m" init [Connect 1700000000000 x00 x01 xfe xff 1700000000001])
    0%nat (generateConnectionId 1700000000000 [x00; x01; xfe; xff]) "{" 1700000000500) as H.
  destruct H as [(_ & _ & H) _]; [vm_compute; reflexivity..|].
  pose proof (malformed_text_answered None "m"
    (run None "m" init [Connect 1700000000000 x00 x01 xfe xff 1700000000001])
    0%nat (generateConnectionId 1700000000000 [x00; x01; xfe; xff]) "null" 1700000000500) as H'.
  destruct H' as (_ & _ & H'); [vm_compute; reflexivity..|].
  split; [exact H|]. apply H'. vm_compute; reflexivity.
Defined.

(** ** Upstream events *)

Lemma step_upstream_end key model s g id :
  listeners_of g s = Some (GeminiListeners id) →
  step key model s (GeminiClose g)
  = exec (set_readyState g CLOSED;; notifyClient id disconnectedStatus) s
  ∧ step key model s (GeminiError g)
    = exec (set_readyState g CLOSING;; notifyClient id geminiFailedError) s.
Proof.
  intros Hl. unfold step, exec, handler.
  split; unfold bind at 1, gets at 1; by rewrite Hl.
Qed.

Lemma notifyClient_open id v s c :
  activeConnections s !! id = Some c → readyState_of (clientWs c) s = OPEN →
  notifyClient id v s = send (clientWs c) (text v) s.
Proof.
  intros Hc Ho. unfold notifyClient. unfold_js. rewrite Hc.
  by rewrite bool_decide_eq_true_2.
Qed.

Lemma exec_set_readyState_then (k : M unit) g st s :
  exec (set_readyState g st;; k) s = exec k (with_heap (alter (with_readyState st) g) s).
Proof. reflexivity. Qed.

(** The state after the upstream socket [g] of a record went to state [st]
    and the record's client was told [v]. *)
Lemma upstream_end_notifies s g id c st v :
  listeners_of g s = Some (GeminiListeners id) →
  activeConnections s !! id = Some c →
  clientWs c ≠ g →
  readyState_of (clientWs c) s = OPEN →
  let s' := exec (set_readyState g st;; notifyClient id v) s in
  readyState_of g s' = st
  ∧ readyState_of (clientWs c) s' = OPEN
  ∧ sent_of (clientWs c) s' = (sent_of (clientWs c) s ++ [text v])%list
  ∧ activeConnections s' = activeConnections s
  ∧ dom (heap s') = dom (heap s).
Proof.
  intros Hl Hc Hne Ho s'. subst s'.
  destruct (readyState_of_open _ _ Ho) as (w & Hw & Hst).
  unfold listeners_of in Hl. destruct (heap s !! g) as [wg|] eqn:Hg; [|done].
  rewrite exec_set_readyState_then.
  set (s1 := with_heap (alter (with_readyState st) g) s).
  assert (heap s1 !! clientWs c = Some w) as Hw1.
  { subst s1. simpl. by rewrite lookup_alter_ne. }
  assert (readyState_of (clientWs c) s1 = OPEN) as Ho1.
  { unfold readyState_of. by rewrite Hw1. }
  unfold exec. rewrite (notifyClient_open id v s1 c Hc Ho1), (send_open _ _ _ _ Hw1 Hst).
  unfold readyState_of, sent_of. simpl.
  rewrite lookup_insert_ne, lookup_alter_eq, Hg, lookup_insert_eq, Hw by done. simpl.
  split_and!; [done..|].
  rewrite dom_insert_L, dom_alter_L. apply subseteq_union_1_L, singleton_subseteq_l. by apply elem_of_dom_2 with w.
Qed.

(** X18. When the upstream socket of a registered connection closes, the
    client is sent the [disconnected] status; the record stays in the
    registry as it was, and no new socket is opened. *)
Theorem upstream_close_notifies key model s g id c :
  listeners_of g s = Some (GeminiListeners id) →
  activeConnections s !! id = Some c →
  clientWs c ≠ g →
  readyState_of (clientWs c) s = OPEN →
  let s' := step key model s (GeminiClose g) in
  readyState_of g s' = CLOSED
  ∧ sent_of (clientWs c) s' = (sent_of (clientWs c) s ++ [text disconnectedStatus])%list
  ∧ activeConnections s' = activeConnections s
  ∧ dom (heap s') = dom (heap s).
Proof.
  intros Hl Hc Hne Ho s'. subst s'.
  destruct (step_upstream_end key model s g id Hl) as [-> _].
  destruct (upstream_end_notifies s g id c CLOSED disconnectedStatus Hl Hc Hne Ho)
    as (? & _ & ? & ? & ?).
  done.
Qed.

Lemma upstream_close_notifies_witness :
  let key := Some "k" in
  let s := run key "m" init [Connect 1700000000000 x00 x01 xfe xff 1700000000001;
                             GeminiOpen 1%nat;
                             GeminiMessage 1%nat (Some (JObject [("setupComplete", JBool true)]))] in
  let s' := step key "m" s (GeminiClose 1%nat) in
  readyState_of 1%nat s' = CLOSED
  ∧ sent_of 0%nat s' = (sent_of 0%nat s ++ [text disconnectedStatus])%list
  ∧ activeConnections s' = activeConnections s
  ∧ dom (heap s') = dom (heap s).
Proof.
  apply (upstream_close_notifies (Some "k") "m"
    (run (Some "k") "m" init [Connect 1700000000000 x00 x01 xfe xff 1700000000001;
                              GeminiOpen 1%nat;
                              GeminiMessage 1%nat (Some (JObject [("setupComplete", JBool true)]))])
    1%nat (generateConnectionId 1700000000000 [x00; x01; xfe; xff])
    {| clientWs := 0; geminiWs := 1; connected := true;
       lastActivity := 1700000000001; isGenerating := false |});
    [vm_compute; reflexivity|vm_compute; reflexivity|simpl; lia|vm_compute; reflexivity].
Defined.

(** X19. When the upstream socket of a registered connection fails, the
    client is sent the [Gemini connection failed] error; the record is not
    removed by the failure itself. *)
Theorem upstream_error_notifies key model s g id c :
  listeners_of g s = Some (GeminiListeners id) →
  activeConnections s !! id = Some c →
  clientWs c ≠ g →
  readyState_of (clientWs c) s = OPEN →
  let s' := step key model s (GeminiError g) in
  sent_of (clientWs c) s' = (sent_of (clientWs c) s ++ [text geminiFailedError])%list
  ∧ activeConnections s' = activeConnections s
  ∧ readyState_of (clientWs c) s' = OPEN.
Proof.
  intros Hl Hc Hne Ho s'. subst s'.
  destruct (step_upstream_end key model s g id Hl) as [_ ->].
  destruct (upstream_end_notifies s g id c CLOSING geminiFailedError Hl Hc Hne Ho)
    as (_ & Ho' & Hs & Hr & _).
  done.
Qed.

Lemma upstream_error_notifies_witness :
  let key := Some "k" in
  let s := run key "m" init [Connect 1700000000000 x00 x01 xfe xff 1700000000001] in
  let s' := step key "m" s (GeminiError 1%nat) in
  sent_of 0%nat s' = (sent_of 0%nat s ++ [text geminiFailedError])%list
  ∧ activeConnections s' = activeConnections s
  ∧ readyState_of 0%nat s' = OPEN.
Proof.
  apply (upstream_error_notifies (Some "k") "m"
    (run (Some "k") "m" init [Connect 1700000000000 x00 x01 xfe xff 1700000000001])
    1%nat (generateConnectionId 1700000000000 [x00; x01; xfe; xff])
    {| clientWs := 0; geminiWs := 1; connected := false;
       lastActivity := 1700000000001; isGenerating := false |});
    [vm_compute; reflexivity|vm_compute; reflexivity|simpl; lia|vm_compute; reflexivity].
Defined.

(** X15. Every upstream message with a truthy [setupComplete] (and no
    content) marks the record ready and sends the client the [connected]
    status with the connection id, also when the record is ready
    already. *)
Theorem setupComplete_reports_connected key model s g id c m v v' :
  listeners_of g s = Some (GeminiListeners id) →
  activeConnections s !! id = Some c →
  readyState_of (clientWs c) s = OPEN →
  get (Some m) "setupComplete" = Ok v → truthy v = true →
  get (Some m) "serverContent" = Ok v' → truthy v' = false →
  let s' := step key model s (GeminiMessage g (Some m)) in
  activeConnections s' = <[id := set_connected true c]> (activeConnections s)
  ∧ sent_of (clientWs c) s' = (sent_of (clientWs c) s ++ [text (connectedStatus id)])%list.
Proof.
  intros Hl Hc Ho Hv Ht Hv' Ht' s'. subst s'.
  rewrite (step_GeminiMessage _ _ _ _ _ _ Hl).
  destruct (readyState_of_open _ _ Ho) as (w & Hw & Hst).
  unfold exec, gemini_on_message, try_catch, handleGeminiMessage. unfold_js.
  rewrite Hc. rewrite bool_decide_eq_true_2 by done. cbv beta iota delta [negb].
  rewrite Hv, Ht.
  rewrite (send_open (clientWs c) _ (with_connections (alter (set_connected true) id) s)
             w Hw Hst).
  rewrite Hv', Ht'. unfold sent_of. simpl. rewrite lookup_insert_eq, Hw. simpl.
  split; [|done].
  apply map_eq. intros id'. rewrite lookup_alter, lookup_insert.
  case_decide; subst; by rewrite ?Hc.
Qed.

Lemma setupComplete_reports_connected_witness :
  let key := Some "k" in
  let id := generateConnectionId 1700000000000 [x00; x01; xfe; xff] in
  let setup := GeminiMessage 1%nat (Some (JObject [("setupComplete", JObject [])])) in
  let s := run key "m" init [Connect 1700000000000 x00 x01 xfe xff 1700000000001;
                             GeminiOpen 1%nat; setup] in
  sent_of 0%nat (step key "m" s setup)
  = [text (connectedStatus id); text (connectedStatus id)].
Proof.
  pose proof (setupComplete_reports_connected (Some "k") "m"
    (run (Some "k") "m" init [Connect 1700000000000 x00 x01 xfe xff 1700000000001;
                              GeminiOpen 1%nat;
                              GeminiMessage 1%nat (Some (JObject [("setupComplete", JObject [])]))])
    1%nat (generateConnectionId 1700000000000 [x00; x01; xfe; xff])
    {| clientWs := 0; geminiWs := 1; connected := true;
       lastActivity := 1700000000001; isGenerating := false |}
    (JObject [("setupComplete", JObject [])]) (Some (JObject [])) None) as H.
  destruct H as [_ H]; [vm_compute; reflexivity..|exact H].
Defined.

(** ** Audio from upstream *)

Lemma forwardPart_inline client p s :
  forwardPart client (inlinePart p) s
  = if startsWith (fst p) "audio/"
    then send client (Binary (Buffer.from_base64 (snd p))) s else (Ok tt, s).
Proof.
  unfold forwardPart, inlinePart. unfold_js. simpl.
  by destruct (startsWith (fst p) "audio/").
Qed.

Lemma forEach_app {A} (body : A → M unit) l1 l2 s :
  forEach body (l1 ++ l2) s
  = match forEach body l1 s with
    | (Ok _, s1) => forEach body l2 s1
    | (Throw e, s1) => (Throw e, s1)
    end.
Proof.
  revert s. induction l1 as [|x l1 IH]; intros s; [done|].
  simpl. unfold bind. destruct (body x s) as [[[]|e] s1]; [apply IH|done].
Qed.

(** Parts with inline data are forwarded one by one, in order, those that
    are not audio being skipped. *)
Lemma forEach_forwardPart_inline client ps s :
  readyState_of client s = OPEN →
  ∃ s', forEach (forwardPart client) (inlinePart <$> ps) s = (Ok tt, s')
        ∧ sent_of client s' = (sent_of client s ++ audioOut ps)%list
        ∧ activeConnections s' = activeConnections s
        ∧ readyState_of client s' = OPEN.
Proof.
  revert s. induction ps as [|p ps IH]; intros s Ho.
  - exists s. unfold audioOut. simpl. by rewrite app_nil_r.
  - rewrite fmap_cons. simpl forEach. unfold bind. rewrite forwardPart_inline.
    unfold audioOut. simpl List.filter.
    destruct (startsWith (fst p) "audio/").
    + destruct (readyState_of_open _ _ Ho) as (w & Hw & Hst).
      rewrite (send_open _ _ _ _ Hw Hst).
      set (s1 := with_heap (insert client (push (Binary (Buffer.from_base64 (snd p))) w)) s).
      assert (readyState_of client s1 = OPEN) as Ho1.
      { unfold readyState_of, s1. simpl. by rewrite lookup_insert_eq. }
      destruct (IH s1 Ho1) as (s' & -> & Hs & Hr & Ho').
      exists s'. split_and!; [done| |done..].
      rewrite Hs. unfold sent_of, s1. simpl. rewrite lookup_insert_eq, Hw. simpl.
      by rewrite <- app_assoc.
    + destruct (IH s Ho) as (s' & -> & Hs & Hr & Ho'). by exists s'.
Qed.

(** X16. An upstream content message whose parts carry inline data sends
    the client one binary frame per audio part, holding the decoded data,
    in the order of the parts; parts of another MIME type are skipped, and
    the record is not touched. *)
Theorem upstream_audio_forwarded key model s g id c ps :
  listeners_of g s = Some (GeminiListeners id) →
  activeConnections s !! id = Some c →
  readyState_of (clientWs c) s = OPEN →
  let s' := step key model s (GeminiMessage g (Some (contentMessage (inlinePart <$> ps) []))) in
  sent_of (clientWs c) s' = (sent_of (clientWs c) s ++ audioOut ps)%list
  ∧ activeConnections s' = activeConnections s.
Proof.
  intros Hl Hc Ho s'. subst s'. rewrite (step_GeminiMessage _ _ _ _ _ _ Hl).
  destruct (forEach_forwardPart_inline (clientWs c) ps s Ho) as (s1 & Hf & Hs & Hr & _).
  unfold exec, gemini_on_message, try_catch, handleGeminiMessage, contentMessage. unfold_js.
  rewrite Hc. rewrite bool_decide_eq_true_2 by done. cbn -[forEach fmap].
  by rewrite Hf.
Qed.

Lemma upstream_audio_forwarded_witness :
  let key := Some "k" in
  let s := run key "m" init [Connect 1700000000000 x00 x01 xfe xff 1700000000001;
                             GeminiOpen 1%nat] in
  let ps := [("audio/pcm;rate=24000", "TWFu"); ("text/plain", "TWE="); ("audio/pcm", "TQ==")] in
  sent_of 0%nat (step key "m" s (GeminiMessage 1%nat (Some (contentMessage (inlinePart <$> ps) []))))
  = [Binary ["M"%byte; "a"%byte; "n"%byte]; Binary ["M"%byte]].
Proof.
  pose proof (upstream_audio_forwarded (Some "k") "m"
    (run (Some "k") "m" init [Connect 1700000000000 x00 x01 xfe xff 1700000000001;
                              GeminiOpen 1%nat])
    1%nat (generateConnectionId 1700000000000 [x00; x01; xfe; xff])
    {| clientWs := 0; geminiWs := 1; connected := false;
       lastActivity := 1700000000001; isGenerating := false |}
    [("audio/pcm;rate=24000", "TWFu"); ("text/plain", "TWE="); ("audio/pcm", "TQ==")]) as H.
  destruct H as [H _]; [vm_compute; reflexivity..|exact H].
Defined.

(** X17. A part that is [null] aborts the handling of an upstream
    message at that part.  What came before it has been done: a truthy
    [setupComplete] has marked the record ready and the client has been
    sent the connected status, and the audio parts before the [null] have
    been forwarded.  What comes after it is not done: the parts after it
    are not forwarded, and the turn signals of the message are not acted
    upon.  The connection itself is unharmed. *)
Theorem null_part_aborts_message key model s g id c m v ps rest others :
  listeners_of g s = Some (GeminiListeners id) →
  activeConnections s !! id = Some c →
  readyState_of (clientWs c) s = OPEN →
  get (Some m) "setupComplete" = Ok v →
  get (Some m) "serverContent"
  = Ok (Some (JObject (("modelTurn",
                        JObject [("parts", JArray ((inlinePart <$> ps) ++ JNull :: rest))])
                       :: others))) →
  let s' := step key model s (GeminiMessage g (Some m)) in
  sent_of (clientWs c) s'
  = (sent_of (clientWs c) s
     ++ (if truthy v then [text (connectedStatus id)] else []) ++ audioOut ps)%list
  ∧ activeConnections s'
    = (if truthy v then <[id := set_connected true c]> (activeConnections s)
       else activeConnections s)
  ∧ readyState_of (clientWs c) s' = OPEN.
Proof.
  intros Hl Hc Ho Hv Hcont s'. subst s'. rewrite (step_GeminiMessage _ _ _ _ _ _ Hl).
  destruct (readyState_of_open _ _ Ho) as (w & Hw & Hst).
  unfold exec, gemini_on_message, try_catch, handleGeminiMessage. unfold_js.
  rewrite Hc. rewrite bool_decide_eq_true_2 by done. cbv beta iota delta [negb].
  rewrite Hv. destruct (truthy v).
  - rewrite (send_open (clientWs c) _ (with_connections (alter (set_connected true) id) s)
               w Hw Hst).
    set (s1 := with_heap _ _).
    assert (readyState_of (clientWs c) s1 = OPEN) as Ho1.
    { unfold readyState_of, s1. simpl. by rewrite lookup_insert_eq. }
    destruct (forEach_forwardPart_inline (clientWs c) ps s1 Ho1) as (s2 & Hf & Hs & Hr & Ho2).
    rewrite Hcont. cbn -[forEach fmap app]. rewrite forEach_app, Hf. simpl.
    rewrite Hs, Hr. split_and!; [|
      |done].
    + unfold sent_of, s1. simpl. rewrite lookup_insert_eq, Hw. simpl.
      by rewrite <- app_assoc.
    + unfold s1. simpl. apply map_eq. intros id'. rewrite lookup_alter, lookup_insert.
      case_decide; subst; by rewrite ?Hc.
  - destruct (forEach_forwardPart_inline (clientWs c) ps s Ho) as (s2 & Hf & Hs & Hr & Ho2).
    rewrite Hcont. cbn -[forEach fmap app]. rewrite forEach_app, Hf. simpl. done.
Qed.

Lemma null_part_aborts_message_witness :
  let key := Some "k" in
  let id := generateConnectionId 1700000000000 [x00; x01; xfe; xff] in
  let s := run key "m" init [Connect 1700000000000 x00 x01 xfe xff 1700000000001;
                             GeminiOpen 1%nat] in
  let parts := ((inlinePart <$> [("audio/pcm", "TWFu")])
                ++ JNull :: [inlinePart ("audio/pcm", "TQ==")])%list in
  let m := JObject [("setupComplete", JBool true);
                    ("serverContent",
                     JObject [("modelTurn", JObject [("parts", JArray parts)]);
                              ("turnComplete", JBool true)])] in
  let s' := step key "m" s (GeminiMessage 1%nat (Some m)) in
  sent_of 0%nat s' = [text (connectedStatus id); Binary ["M"%byte; "a"%byte; "n"%byte]]
  ∧ connected <$> activeConnections s' !! id = Some true.
Proof.
  pose proof (null_part_aborts_message (Some "k") "m"
    (run (Some "k") "m" init [Connect 1700000000000 x00 x01 xfe xff 1700000000001;
                              GeminiOpen 1%nat])
    1%nat (generateConnectionId 1700000000000 [x00; x01; xfe; xff])
    {| clientWs := 0; geminiWs := 1; connected := false;
       lastActivity := 1700000000001; isGenerating := false |}
    (JObject [("setupComplete", JBool true);
              ("serverContent",
               JObject [("modelTurn",
                         JObject [("parts",
                                   JArray ((inlinePart <$> [("audio/pcm", "TWFu")])
                                           ++ JNull :: [inlinePart ("audio/pcm", "TQ==")])%list)]);
                        ("turnComplete", JBool true)])])
    (Some (JBool true))
    [("audio/pcm", "TWFu")] [inlinePart ("audio/pcm", "TQ==")]
    [("turnComplete", JBool true)]) as H.
  destruct H as (H1 & H2 & _); [vm_compute; reflexivity..|].
  split; [exact H1|]. rewrite H2. vm_compute. reflexivity.
Defined.

(** ** Upstream sockets that lose their record *)

Lemma step_ClientClose key model s ws id :
  listeners_of ws s = Some (ClientListeners id) →
  step key model s (ClientClose ws)
  = exec (cleanupConnection id) (with_heap (alter (with_readyState CLOSED) ws) s).
Proof. intros Hl. unfold step, exec, handler. unfold bind at 1, gets at 1. by rewrite Hl. Qed.

Lemma step_GeminiOpen key model s g id :
  listeners_of g s = Some (GeminiListeners id) →
  readyState_of g s = CONNECTING →
  step key model s (GeminiOpen g)
  = exec (send g (text (setupMessage model))) (with_heap (alter (with_readyState OPEN) g) s).
Proof.
  intros Hl Hst. unfold step, exec, handler. unfold bind at 1, gets at 1.
  unfold bind at 1, gets at 1. by rewrite Hl, Hst.
Qed.

(** X7. If the client goes away while the upstream socket of its record is
    still connecting, the record is removed but [close] is not called on
    the upstream socket; when that socket opens afterwards it is still sent
    the set-up message and stays open, with no record left for it. *)
Theorem upstream_left_connecting key model s ws id c id' :
  listeners_of ws s = Some (ClientListeners id) →
  activeConnections s !! id = Some c →
  listeners_of (geminiWs c) s = Some (GeminiListeners id') →
  readyState_of (geminiWs c) s = CONNECTING →
  let g := geminiWs c in
  let s1 := step key model s (ClientClose ws) in
  let s2 := step key model s1 (GeminiOpen g) in
  activeConnections s1 = delete id (activeConnections s)
  ∧ readyState_of g s1 = CONNECTING
  ∧ closeCalls_of g s1 = closeCalls_of g s
  ∧ activeConnections s2 = delete id (activeConnections s)
  ∧ readyState_of g s2 = OPEN
  ∧ closeCalls_of g s2 = closeCalls_of g s
  ∧ sent_of g s2 = (sent_of g s ++ [text (setupMessage model)])%list.
Proof.
  intros Hl Hc Hlg Hst g s1 s2. fold g in Hlg, Hst.
  assert (geminiWs c = g) as Eg by done. clearbody g.
  assert (ws ≠ g) as Hne by (intros ->; congruence).
  unfold listeners_of in Hlg. destruct (heap s !! g) as [wg|] eqn:Hg; [|done].
  simpl in Hlg. unfold readyState_of in Hst. rewrite Hg in Hst.
  set (s0 := with_heap (alter (with_readyState CLOSED) ws) s).
  assert (heap s0 !! g = Some wg) as Hg0 by (subst s0; simpl; by rewrite lookup_alter_ne).
  assert (s1 = with_connections (delete id) s0) as E1.
  { subst s1. rewrite (step_ClientClose _ _ _ _ _ Hl). fold s0. unfold exec.
    rewrite (cleanupConnection_present id s0 c Hc), Eg.
    rewrite bool_decide_eq_false_2; [done|]. unfold readyState_of. rewrite Hg0. congruence. }
  assert (heap s1 !! g = Some wg) as Hg1 by (by rewrite E1).
  assert (s2 = with_heap (insert g (push (text (setupMessage model))
                                      (with_readyState OPEN wg)))
                 (with_heap (alter (with_readyState OPEN) g) s1)) as E2.
  { subst s2. rewrite (step_GeminiOpen _ _ _ _ id').
    - unfold exec. erewrite send_open; [done| |done]. simpl.
      by rewrite lookup_alter_eq, Hg1.
    - unfold listeners_of. rewrite Hg1. simpl. congruence.
    - unfold readyState_of. by rewrite Hg1. }
  split_and!.
  - by rewrite E1.
  - unfold readyState_of. by rewrite Hg1.
  - unfold closeCalls_of. by rewrite Hg1, Hg.
  - by rewrite E2, E1.
  - rewrite E2. unfold readyState_of. simpl. by rewrite lookup_insert_eq.
  - rewrite E2. unfold closeCalls_of. simpl. by rewrite lookup_insert_eq, Hg.
  - rewrite E2. unfold sent_of. simpl. by rewrite lookup_insert_eq, Hg.
Qed.

Lemma upstream_left_connecting_witness :
  let key := Some "k" in
  let id := generateConnectionId 1700000000000 [x00; x01; xfe; xff] in
  let s := run key "m" init [Connect 1700000000000 x00 x01 xfe xff 1700000000001] in
  let s2 := run key "m" s [ClientClose 0%nat; GeminiOpen 1%nat] in
  activeConnections s2 = delete id (activeConnections s)
  ∧ readyState_of 1%nat s2 = OPEN
  ∧ closeCalls_of 1%nat s2 = closeCalls_of 1%nat s
  ∧ sent_of 1%nat s2 = (sent_of 1%nat s ++ [text (setupMessage "m")])%list.
Proof.
  pose proof (upstream_left_connecting (Some "k") "m"
    (run (Some "k") "m" init [Connect 1700000000000 x00 x01 xfe xff 1700000000001])
    0%nat (generateConnectionId 1700000000000 [x00; x01; xfe; xff])
    {| clientWs := 0; geminiWs := 1; connected := false;
       lastActivity := 1700000000001; isGenerating := false |}
    (generateConnectionId 1700000000000 [x00; x01; xfe; xff])) as H.
  destruct H as (_ & _ & _ & H4 & H5 & H6 & H7); [vm_compute; reflexivity..|].
  split_and!; [exact H4|exact H5|exact H6|exact H7].
Defined.

Section Orphan.
Variable g : handle.

Lemma so_refl s : stays_orphan g s s.
Proof. by intros ?. Qed.

Lemma so_trans s1 s2 s3 : stays_orphan g s1 s2 → stays_orphan g s2 s3 → stays_orphan g s1 s3.
Proof.
  intros H12 H23 Ho. destruct (H12 Ho) as [Ho2 E2]. destruct (H23 Ho2) as [Ho3 E3].
  split; [done|congruence].
Qed.

Lemma so_heap (f : gmap handle WebSocket → gmap handle WebSocket) s :
  (∀ w, heap s !! g = Some w →
        ∃ w', f (heap s) !! g = Some w' ∧ closeCalls w' = closeCalls w) →
  stays_orphan g s (with_heap f s).
Proof.
  intros Hf [[w Hw] Hno]. destruct (Hf w Hw) as (w' & Hw' & Hcc).
  split; [split; [simpl; eauto|done]|]. unfold closeCalls_of. simpl. by rewrite Hw', Hw.
Qed.

Lemma so_send h f : preserves (stays_orphan g) (send h f).
Proof.
  intros s. unfold send. destruct (heap s !! h) as [w|] eqn:E; [|apply so_refl].
  destruct (readyState w); try apply so_refl. simpl.
  apply so_heap. intros wg Hg. rewrite lookup_insert. case_decide; subst; [|eauto].
  rewrite E in Hg. injection Hg as <-. eauto.
Qed.

Lemma so_set_readyState h st : preserves (stays_orphan g) (set_readyState h st).
Proof.
  intros s. simpl. apply so_heap. intros wg Hg. rewrite lookup_alter.
  case_decide; subst; rewrite Hg; simpl; eauto.
Qed.

Lemma so_alloc st l : preserves (stays_orphan g) (alloc st l).
Proof.
  intros s. simpl. apply so_heap. intros wg Hg. rewrite lookup_insert_ne; [eauto|].
  intros <-. pose proof (is_fresh (dom (heap s))) as Hf. apply Hf. by apply elem_of_dom_2 with wg.
Qed.

Lemma so_update id (f : Connection → Connection) :
  (∀ c, geminiWs (f c) = geminiWs c) → preserves (stays_orphan g) (update id f).
Proof.
  intros Hf s [Hg Hno]. simpl. split; [|done]. split; [done|]. simpl.
  intros id' c'. rewrite lookup_alter. case_decide; subst; [|apply Hno].
  destruct (activeConnections s !! id') as [c|] eqn:E; simpl; [|done].
  intros [= <-]. rewrite Hf. by apply (Hno id').
Qed.

Lemma so_cleanupConnection id : preserves (stays_orphan g) (cleanupConnection id).
Proof.
  intros s [[wg Hg] Hno].
  destruct (activeConnections s !! id) as [c|] eqn:E.
  - rewrite (cleanupConnection_present _ _ _ E). simpl.
    assert (geminiWs c ≠ g) as Hne by (by apply (Hno id)).
    split; [split|].
    + case_bool_decide; simpl; rewrite ?lookup_alter_ne by done; eauto.
    + intros id' c'. case_bool_decide; simpl; rewrite lookup_delete;
        case_decide; try done; apply Hno.
    + unfold closeCalls_of. case_bool_decide; simpl; rewrite ?lookup_alter_ne by done; done.
  - rewrite (cleanupConnection_absent _ _ E). simpl. split; [by split; eauto|done].
Qed.

Lemma so_initializeGeminiSession key id ws now :
  preserves (stays_orphan g) (initializeGeminiSession key id ws now).
Proof.
  pose proof so_refl as SR. pose proof so_trans as ST.
  unfold initializeGeminiSession.
  apply preserves_try_catch; [exact ST| |apply so_send].
  destruct (negb _).
  - repeat (preserves_step SR ST ltac:(apply so_send)).
  - intros s [[wg Hg] Hno]. unfold bind, alloc, modify. simpl.
    assert (fresh (dom (heap s)) ≠ g) as Hne.
    { intros <-. pose proof (is_fresh (dom (heap s))) as Hf. apply Hf.
      by apply elem_of_dom_2 with wg. }
    split; [split|]; simpl.
    + rewrite lookup_insert_ne by done. eauto.
    + intros id' c'. rewrite lookup_insert. case_decide; subst; [|apply Hno].
      by intros [= <-].
    + unfold closeCalls_of. simpl. by rewrite lookup_insert_ne.
Qed.

Local Ltac so_prim :=
  first
    [ apply so_send
    | apply so_set_readyState
    | apply so_alloc
    | apply so_update; reflexivity
    | apply so_cleanupConnection
    | apply so_initializeGeminiSession ].

Lemma so_handler key model e : preserves (stays_orphan g) (handler key model e).
Proof.
  pose proof so_refl as SR. pose proof so_trans as ST.
  destruct e; simpl handler;
    unfold on_connection, client_on_message, handleAudioInput, handleClientMessage,
      gemini_on_open, gemini_on_message, handleGeminiMessage, forOfParts,
      forwardPart, gemini_on_close, gemini_on_error, notifyClient, sweep, shutdown;
    repeat (preserves_step SR ST so_prim).
Qed.

End Orphan.

(** X6. The server never calls [close] on an upstream socket that no
    record owns: whatever happens afterwards, such a socket stays without
    record and its count of [close] calls does not move. *)
Theorem orphaned_upstream_never_closed key model g s es :
  orphan g s →
  orphan g (run key model s es)
  ∧ closeCalls_of g (run key model s es) = closeCalls_of g s.
Proof.
  revert s. induction es as [|e es IH]; intros s Ho; [done|].
  change (run key model s (e :: es)) with (run key model (step key model s e) es).
  destruct (so_handler g key model e s Ho) as [Ho1 E1].
  destruct (IH _ Ho1) as [Ho2 E2]. split; [exact Ho2|]. etransitivity; [exact E2|exact E1].
Qed.

Lemma orphaned_upstream_never_closed_witness :
  let key := Some "k" in
  let s := run key "m" init [Connect 1700000000000 x00 x01 xfe xff 1700000000001;
                             ClientClose 0%nat; GeminiOpen 1%nat] in
  let s' := run key "m" s [Tick 1700000900000; Kill SIGTERM] in
  readyState_of 1%nat s = OPEN
  ∧ closeCalls_of 1%nat s' = closeCalls_of 1%nat s.
Proof.
  split; [vm_compute; reflexivity|].
  apply (orphaned_upstream_never_closed (Some "k") "m" 1%nat
    (run (Some "k") "m" init [Connect 1700000000000 x00 x01 xfe xff 1700000000001;
                              ClientClose 0%nat; GeminiOpen 1%nat])
    [Tick 1700000900000; Kill SIGTERM]).
  split; [vm_compute; eauto|]. intros id c. vm_compute. discriminate.
Defined.

(** ** The sockets of a record *)

Lemma kw_refl s : keeps_wired s s.
Proof. by intros ?. Qed.

Lemma kw_trans s1 s2 s3 : keeps_wired s1 s2 → keeps_wired s2 s3 → keeps_wired s1 s3.
Proof. unfold keeps_wired. eauto. Qed.

Lemma kw_heap (f : gmap handle WebSocket → gmap handle WebSocket) s :
  (∀ h w, heap s !! h = Some w →
          ∃ w', f (heap s) !! h = Some w' ∧ listeners w' = listeners w) →
  keeps_wired s (with_heap f s).
Proof.
  intros Hf Hw id c Hc. simpl in Hc. destruct (Hw id c Hc) as [H1 H2].
  assert (∀ h l, listeners_of h s = Some l → listeners_of h (with_heap f s) = Some l) as Hl.
  { intros h l Hl0. unfold listeners_of in *. simpl.
    destruct (heap s !! h) as [w|] eqn:E; simpl in Hl0; [|done].
    destruct (Hf h w E) as (w' & -> & El). simpl. congruence. }
  split; by apply Hl.
Qed.

Lemma kw_send h f : preserves keeps_wired (send h f).
Proof.
  intros s. unfold send. destruct (heap s !! h) as [w|] eqn:E; [|apply kw_refl].
  destruct (readyState w); try apply kw_refl. simpl.
  apply kw_heap. intros h' w' Hw'. rewrite lookup_insert. case_decide; subst; [|eauto].
  rewrite E in Hw'. injection Hw' as <-. eauto.
Qed.

Lemma kw_alter_socket (f : WebSocket → WebSocket) h :
  (∀ w, listeners (f w) = listeners w) →
  preserves keeps_wired (modify (with_heap (alter f h))).
Proof.
  intros Hf s. simpl. apply kw_heap. intros h' w' Hw'. rewrite lookup_alter.
  case_decide; subst; rewrite Hw'; simpl; eauto.
Qed.

Lemma kw_alloc st l : preserves keeps_wired (alloc st l).
Proof.
  intros s. simpl. apply kw_heap. intros h w Hw. rewrite lookup_insert_ne; [eauto|].
  intros <-. pose proof (is_fresh (dom (heap s))) as Hf. apply Hf. by apply elem_of_dom_2 with w.
Qed.

Lemma kw_update id (f : Connection → Connection) :
  (∀ c, clientWs (f c) = clientWs c ∧ geminiWs (f c) = geminiWs c) →
  preserves keeps_wired (update id f).
Proof.
  intros Hf s Hw id' c'. simpl. rewrite lookup_alter. case_decide; subst; [|apply Hw].
  destruct (activeConnections s !! id') as [c|] eqn:E; simpl; [|done].
  intros [= <-]. destruct (Hf c) as [-> ->]. by apply Hw.
Qed.

Lemma kw_delete id : preserves keeps_wired (modify (with_connections (delete id))).
Proof.
  intros s Hw id' c'. simpl. rewrite lookup_delete. case_decide; [done|]. apply Hw.
Qed.

Lemma kw_on_connection key now rnd now' :
  preserves keeps_wired (on_connection key now rnd now').
Proof.
  pose proof kw_refl as KR. pose proof kw_trans as KT.
  unfold on_connection, initializeGeminiSession. intros s Hw.
  unfold bind at 1, alloc at 1. unfold try_catch.
  set (id := generateConnectionId now rnd).
  set (ws := fresh (dom (heap s))).
  set (s0 := with_heap _ s).
  assert (wired s0) as Hw0 by (by apply (kw_alloc OPEN (ClientListeners id) s)).
  destruct (negb _).
  - assert (preserves keeps_wired
              (let* o := is_open ws in
               when o (send ws (text missingKeyError)))) as Hp.
    { repeat (preserves_step KR KT ltac:(apply kw_send)). }
    specialize (Hp s0 Hw0).
    destruct ((let* o := is_open ws in when o (send ws (text missingKeyError))) s0)
      as [[[]|e] s1]; simpl in *; [done|]. by apply (kw_send ws _ s1).
  - assert (listeners_of ws s0 = Some (ClientListeners id)) as Hws.
    { unfold listeners_of, s0. simpl. by rewrite lookup_insert_eq. }
    clearbody s0 ws. unfold bind, alloc, modify. cbn [fst snd].
    set (g := fresh (dom (heap s0))).
    assert (∀ h l, listeners_of h s0 = Some l →
              listeners_of h (with_heap (insert g
                {| readyState := CONNECTING; sent := []; closeCalls := 0;
                   listeners := GeminiListeners id |}) s0) = Some l) as Hl.
    { intros h l Hl0. unfold listeners_of in *. cbn [heap with_heap].
      destruct (heap s0 !! h) as [w|] eqn:E; simpl in Hl0; [|done].
      rewrite lookup_insert_ne; [by rewrite E|].
      intros <-. pose proof (is_fresh (dom (heap s0))) as Hf. apply Hf.
      by apply elem_of_dom_2 with w. }
    intros id' c'. cbn [activeConnections with_connections with_heap].
    rewrite lookup_insert. case_decide; subst.
    + intros [= <-]. cbn [clientWs geminiWs]. split; [by apply Hl|].
      unfold listeners_of. simpl. by rewrite lookup_insert_eq.
    + intros Hc'. destruct (Hw0 id' c' Hc') as [H1 H2]. split; by apply Hl.
Qed.

Local Ltac kw_prim :=
  first
    [ apply kw_send
    | apply kw_alter_socket; reflexivity
    | apply kw_alloc
    | apply kw_update; intros ?; split; reflexivity
    | apply kw_delete
    | apply kw_on_connection ].

Lemma kw_handler key model e : preserves keeps_wired (handler key model e).
Proof.
  pose proof kw_refl as KR. pose proof kw_trans as KT.
  destruct e; simpl handler;
    unfold client_on_message, handleAudioInput, handleClientMessage,
      cleanupConnection, gemini_on_open, gemini_on_message, handleGeminiMessage, forOfParts,
      forwardPart, gemini_on_close, gemini_on_error, notifyClient, sweep, shutdown,
      close, set_readyState;
    repeat (preserves_step KR KT kw_prim).
Qed.

Lemma wired_run key model es : wired (run key model init es).
Proof.
  assert (∀ s, wired s → wired (run key model s es)) as H.
  { induction es as [|e es IH]; intros s Hs; [done|].
    change (run key model s (e :: es)) with (run key model (step key model s e) es).
    apply IH. by apply (kw_handler key model e s). }
  apply H. intros id c. simpl. by rewrite lookup_empty.
Qed.

(** X3. In every reachable state the two sockets of a record are a client
    socket and an upstream socket whose listeners were created for the
    record's own id; so the two are different sockets, and no upstream
    socket belongs to two records. *)
Theorem record_sockets_wired key model es id c id' c' :
  let s := run key model init es in
  activeConnections s !! id = Some c →
  activeConnections s !! id' = Some c' →
  listeners_of (clientWs c) s = Some (ClientListeners id)
  ∧ listeners_of (geminiWs c) s = Some (GeminiListeners id)
  ∧ clientWs c ≠ geminiWs c'
  ∧ (geminiWs c = geminiWs c' → id = id').
Proof.
  intros s Hc Hc'. pose proof (wired_run key model es) as Hw. fold s in Hw.
  destruct (Hw id c Hc) as [H1 H2]. destruct (Hw id' c' Hc') as [H1' H2'].
  split_and!; [done..| |].
  - intros Heq. rewrite Heq in H1. congruence.
  - intros Heq. rewrite Heq in H2. congruence.
Qed.

Lemma record_sockets_wired_witness :
  let key := Some "k" in
  let id := generateConnectionId 1700000000000 [x00; x01; xfe; xff] in
  let id' := generateConnectionId 1700000000005 [x0a; x0b; x0c; x0d] in
  let s := run key "m" init [Connect 1700000000000 x00 x01 xfe xff 1700000000001;
                             Connect 1700000000005 x0a x0b x0c x0d 1700000000006] in
  listeners_of 0%nat s = Some (ClientListeners id)
  ∧ listeners_of 1%nat s = Some (GeminiListeners id)
  ∧ 0%nat ≠ 3%nat
  ∧ (1%nat = 3%nat → id = id').
Proof.
  apply (record_sockets_wired (Some "k") "m"
    [Connect 1700000000000 x00 x01 xfe xff 1700000000001;
     Connect 1700000000005 x0a x0b x0c x0d 1700000000006]
    (generateConnectionId 1700000000000 [x00; x01; xfe; xff])
    {| clientWs := 0; geminiWs := 1; connected := false;
       lastActivity := 1700000000001; isGenerating := false |}
    (generateConnectionId 1700000000005 [x0a; x0b; x0c; x0d])
    {| clientWs := 2; geminiWs := 3; connected := false;
       lastActivity := 1700000000006; isGenerating := false |});
    vm_compute; reflexivity.
Defined.

(** ** Calls of [close] *)

Lemma kcd_refl s : keeps_close_discipline s s.
Proof. by intros ?. Qed.

Lemma kcd_trans s1 s2 s3 :
  keeps_close_discipline s1 s2 → keeps_close_discipline s2 s3 → keeps_close_discipline s1 s3.
Proof. unfold keeps_close_discipline. eauto. Qed.

(** A change of one socket that keeps its listeners and its own
    discipline. *)
Lemma kcd_alter (f : WebSocket → WebSocket) h s :
  (∀ w, heap s !! h = Some w → closed_once w →
        closed_once (f w) ∧ listeners (f w) = listeners w) →
  keeps_close_discipline s (with_heap (alter f h) s).
Proof.
  intros Hf [Hs Hr]. split.
  - intros h' w'. simpl. rewrite lookup_alter. case_decide; subst; [|apply Hs].
    destruct (heap s !! h') as [w|] eqn:E; simpl; [|done].
    intros [= <-]. by apply Hf, (Hs h').
  - intros id c Hc. simpl in *. destruct (Hr id c Hc) as (w & Hw & Hcl).
    rewrite lookup_alter. case_decide; subst; rewrite Hw; simpl; [|eauto].
    eexists. split; [done|]. unfold is_client in *.
    destruct (Hf w Hw (Hs _ _ Hw)) as [_ ->]. done.
Qed.

Lemma exec_send h f s :
  exec (send h f) s
  = if bool_decide (readyState_of h s = OPEN) then with_heap (alter (push f) h) s else s.
Proof.
  case_bool_decide as Ho.
  - unfold exec. by rewrite send_open_alter.
  - unfold exec, send, readyState_of in *. destruct (heap s !! h) as [w|]; [|done].
    by destruct (readyState w).
Qed.

Lemma kcd_send h f : preserves keeps_close_discipline (send h f).
Proof.
  intros s. change (snd (send h f s)) with (exec (send h f) s). rewrite exec_send.
  case_bool_decide; [|apply kcd_refl].
  apply (kcd_alter (push f) h s). by intros w' _ ?.
Qed.

Lemma kcd_set_readyState h st :
  st = CLOSING ∨ st = CLOSED → preserves keeps_close_discipline (set_readyState h st).
Proof.
  intros Hst s. simpl. apply (kcd_alter (with_readyState st) h s).
  intros w _ (H1 & H2 & H3). split; [|done]. split_and!; [done..|]. simpl. right. done.
Qed.

Lemma kcd_alloc st l : preserves keeps_close_discipline (alloc st l).
Proof.
  intros s [Hs Hr]. simpl. split; simpl.
  - apply map_Forall_insert_2; [|done]. split_and!; simpl; [lia|by left..].
  - intros id c Hc. destruct (Hr id c Hc) as (w & Hw & Hcl). exists w.
    split; [|done]. rewrite lookup_insert_ne; [done|].
    intros Heq. pose proof (is_fresh (dom (heap s))) as Hf. apply Hf. rewrite Heq.
    by apply elem_of_dom_2 with w.
Qed.

Lemma kcd_update id (f : Connection → Connection) :
  (∀ c, geminiWs (f c) = geminiWs c) → preserves keeps_close_discipline (update id f).
Proof.
  intros Hf s [Hs Hr]. simpl. split; [done|]. simpl.
  intros id' c'. rewrite lookup_alter. case_decide; subst; [|apply Hr].
  destruct (activeConnections s !! id') as [c|] eqn:E; simpl; [|done].
  intros [= <-]. rewrite Hf. by apply (Hr id').
Qed.

Lemma kcd_cleanupConnection id : preserves keeps_close_discipline (cleanupConnection id).
Proof.
  intros s Hcd. destruct (activeConnections s !! id) as [c|] eqn:E.
  - rewrite (cleanupConnection_present _ _ _ E). simpl.
    assert (close_discipline
              (if bool_decide (readyState_of (geminiWs c) s = OPEN)
               then with_heap (alter closed_by_call (geminiWs c)) s else s)) as [Hs Hr].
    { case_bool_decide as Ho; [|done].
      destruct (Hcd) as [_ Hr0]. destruct (Hr0 id c E) as (w & Hw & Hcl).
      apply (kcd_alter closed_by_call (geminiWs c) s); [|done].
      intros w' Hw' (H1 & H2 & H3). rewrite Hw in Hw'. injection Hw' as <-.
      unfold readyState_of in Ho. rewrite Hw in Ho.
      assert (closeCalls w = 0%nat) as H0.
      { destruct H3 as [?|[?|?]]; [done|congruence..]. }
      split; [|done]. split_and!; simpl; [lia|by right|].
      right. rewrite Ho. by left. }
    split; [exact Hs|]. intros id' c'. cbn [activeConnections with_connections heap].
    destruct (decide (id = id')) as [->|Hne];
      [by rewrite lookup_delete_eq|rewrite lookup_delete_ne by done]. apply Hr.
  - by rewrite (cleanupConnection_absent _ _ E).
Qed.

Lemma kcd_initializeGeminiSession key id ws now :
  preserves keeps_close_discipline (initializeGeminiSession key id ws now).
Proof.
  pose proof kcd_refl as KR. pose proof kcd_trans as KT.
  unfold initializeGeminiSession.
  apply preserves_try_catch; [exact KT| |apply kcd_send].
  destruct (negb _).
  - repeat (preserves_step KR KT ltac:(apply kcd_send)).
  - intros s Hcd. destruct (kcd_alloc CONNECTING (GeminiListeners id) s Hcd) as [Hs Hr].
    unfold bind, alloc, modify in *. simpl in *. split; [done|]. simpl.
    intros id' c'. rewrite lookup_insert. case_decide; subst; [|apply Hr].
    intros [= <-]. simpl. rewrite lookup_insert_eq. eauto.
Qed.

(** [open] on an upstream socket that is connecting. *)
Lemma kcd_open g s :
  readyState_of g s = CONNECTING →
  keeps_close_discipline s (with_heap (alter (with_readyState OPEN) g) s).
Proof.
  intros Hst. apply (kcd_alter (with_readyState OPEN) g s).
  intros w Hw (H1 & H2 & H3). unfold readyState_of in Hst. rewrite Hw in Hst.
  split; [|done]. split_and!; [done..|]. left.
  destruct H3 as [?|[?|?]]; [done|congruence..].
Qed.

Local Ltac kcd_prim :=
  first
    [ apply kcd_send
    | apply kcd_set_readyState; first [by left|by right]
    | apply kcd_alloc
    | apply kcd_update; reflexivity
    | apply kcd_cleanupConnection
    | apply kcd_initializeGeminiSession ].

Lemma kcd_handler key model e : preserves keeps_close_discipline (handler key model e).
Proof.
  pose proof kcd_refl as KR. pose proof kcd_trans as KT.
  destruct e as [now r0 r1 r2 r3 now'|ws data now|ws|ws|g|g payload|g|g|now|sig];
    simpl handler;
    try (unfold on_connection, client_on_message, handleAudioInput, handleClientMessage,
           gemini_on_message, handleGeminiMessage, forOfParts,
           forwardPart, gemini_on_close, gemini_on_error, notifyClient, sweep, shutdown;
         repeat (preserves_step KR KT kcd_prim); fail).
  intros s. unfold bind at 1, gets at 1. unfold bind at 1, gets at 1.
  destruct (listeners_of g s) as [[id|id]|]; try apply KR.
  destruct (readyState_of g s) eqn:Hst; try apply KR.
  change (keeps_close_discipline s
            (exec (gemini_on_open model g) (with_heap (alter (with_readyState OPEN) g) s))).
  eapply KT; [by apply kcd_open|]. apply kcd_send.
Qed.

Lemma close_discipline_run key model es : close_discipline (run key model init es).
Proof.
  assert (∀ s, close_discipline s → close_discipline (run key model s es)) as H.
  { induction es as [|e es IH]; intros s Hs; [done|].
    change (run key model s (e :: es)) with (run key model (step key model s e) es).
    apply IH. by apply (kcd_handler key model e s). }
  apply H. split; [apply map_Forall_empty|]. intros id c. simpl. by rewrite lookup_empty.
Qed.

(** X2. In every reachable state the server has called [close] at most
    once on any socket and never on a client socket (not on teardown, not
    in an idle sweep, not at shutdown), and a socket it has called [close]
    on is closing or closed. *)
Theorem close_called_at_most_once key model es h w :
  heap (run key model init es) !! h = Some w →
  (closeCalls w ≤ 1)%nat
  ∧ (closeCalls w = 0%nat ∨ is_client w = false)
  ∧ (closeCalls w = 0%nat ∨ readyState w = CLOSING ∨ readyState w = CLOSED).
Proof.
  intros Hw. destruct (close_discipline_run key model es) as [Hs _]. by apply (Hs h).
Qed.

Lemma close_called_at_most_once_witness :
  let s := run (Some "k") "m" init
             [Connect 1700000000000 x00 x01 xfe xff 1700000000001; GeminiOpen 1%nat;
              Tick 1700000900000; ClientClose 0%nat; Kill SIGTERM] in
  heap s !! 1%nat = Some {| readyState := CLOSING; sent := [text (setupMessage "m")];
                            closeCalls := 1;
                            listeners := GeminiListeners
                              (generateConnectionId 1700000000000 [x00; x01; xfe; xff]) |}
  ∧ (1 ≤ 1)%nat.
Proof.
  split; [vm_compute; reflexivity|].
  pose proof (close_called_at_most_once (Some "k") "m"
    [Connect 1700000000000 x00 x01 xfe xff 1700000000001; GeminiOpen 1%nat;
     Tick 1700000900000; ClientClose 0%nat; Kill SIGTERM] 1%nat
    {| readyState := CLOSING; sent := [text (setupMessage "m")]; closeCalls := 1;
       listeners := GeminiListeners
                      (generateConnectionId 1700000000000 [x00; x01; xfe; xff]) |}) as H.
  destruct H as [H _]; [vm_compute; reflexivity|exact H].
Defined.

(** ** The set-up message *)

Section Handshake.
Variable model : string.

Lemma kh_refl s : keeps_handshaken model s s.
Proof. by intros ?. Qed.

Lemma kh_trans s1 s2 s3 :
  keeps_handshaken model s1 s2 → keeps_handshaken model s2 s3 → keeps_handshaken model s1 s3.
Proof. unfold keeps_handshaken. eauto. Qed.

Lemma kh_alter (f : WebSocket → WebSocket) h s :
  (∀ w, heap s !! h = Some w → handshake model w → handshake model (f w)) →
  keeps_handshaken model s (with_heap (alter f h) s).
Proof.
  intros Hf Hs h' w'. simpl. rewrite lookup_alter. case_decide; subst; [|apply Hs].
  destruct (heap s !! h') as [w|] eqn:E; simpl; [|done].
  intros [= <-]. by apply Hf, (Hs h').
Qed.

Lemma handshake_push f w :
  is_setup f = false → readyState w = OPEN → handshake model w → handshake model (push f w).
Proof.
  intros Hf Ho. unfold handshake, is_client. simpl. destruct (listeners w).
  - intros Hall. apply Forall_app. split; [done|]. by apply Forall_singleton.
  - intros [[_ Hn]|(rest & Hs & Hall & Hc)]; [done|]. right.
    exists (rest ++ [f])%list. rewrite Hs. split_and!; [done| |done].
    apply Forall_app. split; [done|]. by apply Forall_singleton.
Qed.

Lemma handshake_state st w :
  st ≠ OPEN → (st ≠ CONNECTING ∨ sent w = []) → handshake model w →
  handshake model (with_readyState st w).
Proof.
  intros Hno Hnc. unfold handshake, is_client. simpl. destruct (listeners w); [done|].
  intros [[Hs _]|(rest & Hs & Hall & _)]; [by left|]. right.
  exists rest. split_and!; [done..|]. destruct Hnc as [|Hnil]; [done|]. congruence.
Qed.

Lemma kh_send h f : is_setup f = false → preserves (keeps_handshaken model) (send h f).
Proof.
  intros Hf s. change (snd (send h f s)) with (exec (send h f) s). rewrite exec_send.
  case_bool_decide as Ho; [|apply kh_refl].
  apply kh_alter. intros w Hw. apply handshake_push; [done|].
  unfold readyState_of in Ho. by rewrite Hw in Ho.
Qed.

Lemma kh_set_readyState h st :
  st = CLOSING ∨ st = CLOSED → preserves (keeps_handshaken model) (set_readyState h st).
Proof.
  intros Hst s. simpl. apply kh_alter. intros w _.
  apply handshake_state; destruct Hst as [->| ->]; try done; by left.
Qed.

Lemma kh_close h : preserves (keeps_handshaken model) (close h).
Proof.
  intros s. simpl. apply kh_alter. intros w _. unfold handshake, is_client. simpl.
  destruct (listeners w); [done|].
  intros [[Hs Hn]|(rest & Hs & Hall & Hn)].
  - left. split; [done|]. by destruct (readyState w).
  - right. exists rest. split_and!; [done..|]. by destruct (readyState w).
Qed.

Lemma kh_alloc st l :
  (st = OPEN ∧ ∃ id, l = ClientListeners id) ∨ (st = CONNECTING ∧ ∃ id, l = GeminiListeners id) →
  preserves (keeps_handshaken model) (alloc st l).
Proof.
  intros Hst s Hs. simpl. apply map_Forall_insert_2; [|done].
  unfold handshake, is_client. simpl.
  destruct Hst as [[-> [id ->]]|[-> [id ->]]]; [done|by left].
Qed.

Lemma kh_registry f : preserves (keeps_handshaken model) (modify (with_connections f)).
Proof. by intros s Hs. Qed.

Lemma kh_update id f : preserves (keeps_handshaken model) (update id f).
Proof. by intros s Hs. Qed.

Lemma is_setup_setupMessage : is_setup (text (setupMessage model)) = true.
Proof. reflexivity. Qed.

(** [open] on an upstream socket that is connecting, followed by the
    set-up message. *)
Lemma kh_open g id s :
  listeners_of g s = Some (GeminiListeners id) →
  readyState_of g s = CONNECTING →
  keeps_handshaken model s
    (exec (gemini_on_open model g) (with_heap (alter (with_readyState OPEN) g) s)).
Proof.
  intros Hl Hst Hs. unfold gemini_on_open.
  unfold listeners_of, readyState_of in *.
  destruct (heap s !! g) as [w|] eqn:Hw; [|done]. simpl in Hl. injection Hl as Hl.
  rewrite exec_send, bool_decide_eq_true_2.
  2:{ unfold readyState_of. simpl. by rewrite lookup_alter_eq, Hw. }
  intros h' w'. simpl. destruct (decide (h' = g)) as [->|Hne].
  2:{ rewrite !lookup_alter_ne by done. apply Hs. }
  rewrite !lookup_alter_eq, Hw. simpl. intros [= <-]. specialize (Hs _ _ Hw).
  unfold handshake, is_client in *. simpl. rewrite Hl in *.
  destruct Hs as [[Hnil _]|(rest & _ & _ & Hn)]; [|done].
  right. exists []. rewrite Hnil. done.
Qed.

Local Ltac kh_prim :=
  first
    [ apply kh_send; vm_compute; reflexivity
    | apply kh_set_readyState; first [by left|by right]
    | apply kh_close
    | apply kh_alloc; first [left; split; [reflexivity|eauto]|right; split; [reflexivity|eauto]]
    | apply kh_update
    | apply kh_registry ].

Lemma kh_handler key e : preserves (keeps_handshaken model) (handler key model e).
Proof.
  pose proof kh_refl as KR. pose proof kh_trans as KT.
  destruct e as [now r0 r1 r2 r3 now'|ws data now|ws|ws|g|g payload|g|g|now|sig];
    simpl handler;
    try (unfold on_connection, initializeGeminiSession, client_on_message, handleAudioInput,
           handleClientMessage, cleanupConnection, gemini_on_message, handleGeminiMessage,
           forOfParts, forwardPart, gemini_on_close, gemini_on_error, notifyClient, sweep,
           shutdown;
         repeat (preserves_step KR KT kh_prim); fail).
  intros s. unfold bind at 1, gets at 1. unfold bind at 1, gets at 1.
  destruct (listeners_of g s) as [[id|id]|] eqn:Hl; try apply KR.
  destruct (readyState_of g s) eqn:Hst; try apply KR.
  by apply (kh_open g id s).
Qed.

Lemma handshaken_run key es : handshaken model (run key model init es).
Proof.
  assert (∀ s, handshaken model s → handshaken model (run key model s es)) as H.
  { induction es as [|e es IH]; intros s Hs; [done|].
    change (run key model s (e :: es)) with (run key model (step key model s e) es).
    apply IH. by apply (kh_handler key e s). }
  apply H. apply map_Forall_empty.
Qed.

End Handshake.

(** X5. In every reachable state, an upstream socket has either been sent
    nothing at all and is not open, or the first frame it was sent is the
    set-up message and none of the frames after it is one: nothing goes
    upstream before the set-up message, and the set-up message goes out
    once. *)
Theorem setup_sent_first_and_once key model es g w id :
  heap (run key model init es) !! g = Some w →
  listeners w = GeminiListeners id →
  is_setup (text (setupMessage model)) = true
  ∧ ((sent w = [] ∧ readyState w ≠ OPEN)
     ∨ (∃ rest, sent w = text (setupMessage model) :: rest
                ∧ Forall (fun f => is_setup f = false) rest
                ∧ readyState w ≠ CONNECTING)).
Proof.
  intros Hw Hl. split; [reflexivity|].
  pose proof (handshaken_run model key es g w Hw) as H.
  unfold handshake, is_client in H. by rewrite Hl in H.
Qed.

Lemma setup_sent_first_and_once_witness :
  let key := Some "k" in
  let id := generateConnectionId 1700000000000 [x00; x01; xfe; xff] in
  let s := run key "m" init
             [Connect 1700000000000 x00 x01 xfe xff 1700000000001; GeminiOpen 1%nat;
              ClientMessage 0%nat (TextData (Some (JObject [("type", JString "interrupt")])))
                1700000000500] in
  let w := {| readyState := OPEN; sent := [text (setupMessage "m"); text interruptMessage];
              closeCalls := 0; listeners := GeminiListeners id |} in
  heap s !! 1%nat = Some w
  ∧ ((sent w = [] ∧ readyState w ≠ OPEN)
     ∨ (∃ rest, sent w = text (setupMessage "m") :: rest
                ∧ Forall (fun f => is_setup f = false) rest
                ∧ readyState w ≠ CONNECTING)).
Proof.
  split; [vm_compute; reflexivity|].
  apply (setup_sent_first_and_once (Some "k") "m"
    [Connect 1700000000000 x00 x01 xfe xff 1700000000001; GeminiOpen 1%nat;
     ClientMessage 0%nat (TextData (Some (JObject [("type", JString "interrupt")])))
       1700000000500] 1%nat _ (generateConnectionId 1700000000000 [x00; x01; xfe; xff]));
    vm_compute; reflexivity.
Defined.

(** ** What counts as activity *)

Section Activity.
Variable id : string.
Variable t : Z.

Lemma ka_refl s : keeps_activity id t s s.
Proof. by intros ?. Qed.

Lemma ka_trans s1 s2 s3 :
  keeps_activity id t s1 s2 → keeps_activity id t s2 s3 → keeps_activity id t s1 s3.
Proof. unfold keeps_activity. eauto. Qed.

Lemma ka_send h f : preserves (keeps_activity id t) (send h f).
Proof.
  intros s. change (snd (send h f s)) with (exec (send h f) s). rewrite exec_send.
  case_bool_decide; by intros Hs.
Qed.

Lemma ka_heap (f : gmap handle WebSocket → gmap handle WebSocket) :
  preserves (keeps_activity id t) (modify (with_heap f)).
Proof. by intros s Hs. Qed.

Lemma ka_alloc st l : preserves (keeps_activity id t) (alloc st l).
Proof. by intros s Hs. Qed.

Lemma ka_update id' (f : Connection → Connection) :
  (∀ c, lastActivity (f c) = lastActivity c) →
  preserves (keeps_activity id t) (update id' f).
Proof.
  intros Hf s Hs c'. simpl. destruct (decide (id' = id)) as [->|Hne].
  - rewrite lookup_alter_eq. destruct (activeConnections s !! id) as [c|] eqn:E; [|done].
    simpl. intros [= <-]. rewrite Hf. by apply Hs.
  - rewrite lookup_alter_ne by done. apply Hs.
Qed.

Lemma ka_delete id' :
  preserves (keeps_activity id t) (modify (with_connections (delete id'))).
Proof.
  intros s Hs c'. simpl. destruct (decide (id' = id)) as [->|Hne].
  - by rewrite lookup_delete_eq.
  - rewrite lookup_delete_ne by done. apply Hs.
Qed.

Lemma ka_insert id' c :
  id' ≠ id → preserves (keeps_activity id t) (modify (with_connections (insert id' c))).
Proof. intros Hne s Hs c'. simpl. rewrite lookup_insert_ne by done. apply Hs. Qed.

Local Ltac ka_prim :=
  first
    [ apply ka_send
    | apply ka_heap
    | apply ka_alloc
    | apply ka_update; reflexivity
    | apply ka_delete
    | apply ka_insert; assumption ].

Lemma ka_handler key model e :
  refreshes id e = false → preserves (keeps_activity id t) (handler key model e).
Proof.
  pose proof ka_refl as KR. pose proof ka_trans as KT.
  intros Hq.
  destruct e as [now r0 r1 r2 r3 now'|ws data now|ws|ws|g|g payload|g|g|now|sig];
    simpl in Hq; [apply bool_decide_eq_false in Hq|destruct data; [done|]|..];
    simpl handler;
    unfold on_connection, initializeGeminiSession, client_on_message, handleClientMessage,
      cleanupConnection, gemini_on_open, gemini_on_message, handleGeminiMessage, forOfParts,
      forwardPart, gemini_on_close, gemini_on_error, notifyClient, sweep, shutdown,
      close, set_readyState;
    repeat (preserves_step KR KT ka_prim).
Qed.

Lemma activity_run key model es s :
  Forall (fun e => refreshes id e = false) es →
  activity_is id t s → activity_is id t (run key model s es).
Proof.
  intros Hes. revert s. induction Hes as [|e es He _ IH]; intros s Hs; [done|].
  change (run key model s (e :: es)) with (run key model (step key model s e) es).
  apply IH. by apply (ka_handler key model e He s).
Qed.

End Activity.

(** X10. The [lastActivity] of a record is written only when the message
    listener is handed a [Buffer] (line 278) or a new connection is given
    the record's id (line 97).  However many other events are handled
    (messages handed over as strings, whatever their type; upstream events;
    socket closes and errors; sweeps; connections under other ids), the
    record keeps its [lastActivity], and the first sweep later than five
    minutes after it removes the record. *)
Theorem activity_written_only_for_buffers key model s es id c now :
  activeConnections s !! id = Some c →
  Forall (fun e => refreshes id e = false) es →
  (now - lastActivity c > 5 * 60 * 1000)%Z →
  (∀ c', activeConnections (run key model s es) !! id = Some c' →
         lastActivity c' = lastActivity c)
  ∧ activeConnections (step key model (run key model s es) (Tick now)) !! id = None.
Proof.
  intros Hc Hes Hnow.
  assert (activity_is id (lastActivity c) (run key model s es)) as Ha.
  { apply activity_run; [done|]. intros c0 Hc0. congruence. }
  split; [exact Ha|].
  rewrite sweep_removes_expired. apply map_lookup_filter_None. right.
  intros c' Hc'. simpl. rewrite (Ha c' Hc'). lia.
Qed.

Lemma activity_written_only_for_buffers_witness :
  let key := Some "k" in
  let id := generateConnectionId 1700000000000 [x00; x01; xfe; xff] in
  let interrupt := JObject [("type", JString "interrupt")] in
  let s := run key "m" init [Connect 1700000000000 x00 x01 xfe xff 1700000000001] in
  let es := [GeminiOpen 1%nat;
             GeminiMessage 1%nat (Some (JObject [("setupComplete", JObject [])]));
             ClientMessage 0%nat (deliver Strings pingFrame) 1700000100000;
             ClientMessage 0%nat
               (deliver Strings (TextFrame (JSON_stringify interrupt) (Some interrupt)))
               1700000200000;
             Tick 1700000300001] in
  is_Some (activeConnections (run key "m" s es) !! id)
  ∧ activeConnections (step key "m" (run key "m" s es) (Tick 1700000300002)) !! id = None.
Proof.
  split; [vm_compute; eauto|].
  apply (activity_written_only_for_buffers (Some "k") "m"
    (run (Some "k") "m" init [Connect 1700000000000 x00 x01 xfe xff 1700000000001])
    [GeminiOpen 1%nat;
     GeminiMessage 1%nat (Some (JObject [("setupComplete", JObject [])]));
     ClientMessage 0%nat (deliver Strings pingFrame) 1700000100000;
     ClientMessage 0%nat
       (deliver Strings (TextFrame (JSON_stringify (JObject [("type", JString "interrupt")]))
                           (Some (JObject [("type", JString "interrupt")]))))
       1700000200000;
     Tick 1700000300001]
    (generateConnectionId 1700000000000 [x00; x01; xfe; xff])
    {| clientWs := 0; geminiWs := 1; connected := false;
       lastActivity := 1700000000001; isGenerating := false |}
    1700000300002).
  - vm_compute; reflexivity.
  - repeat constructor.
  - vm_compute; reflexivity.
Defined.

(** ** Connections side by side *)

Section Confined.
Variable H : handle → Prop.
Variable id : string.

Lemma cf_refl s : confined H id s s.
Proof. by split. Qed.

Lemma cf_trans s1 s2 s3 : confined H id s1 s2 → confined H id s2 s3 → confined H id s1 s3.
Proof.
  intros [A1 B1] [A2 B2]. split.
  - intros id' Hne. by rewrite A2, A1.
  - intros h Hh. by rewrite B2, B1.
Qed.

Lemma cf_alter (f : WebSocket → WebSocket) h :
  H h → preserves (confined H id) (modify (with_heap (alter f h))).
Proof.
  intros Hh s. split; [done|]. intros h' Hh'. simpl. apply lookup_alter_ne. by intros ->.
Qed.

Lemma cf_send h f : H h → preserves (confined H id) (send h f).
Proof.
  intros Hh s. change (snd (send h f s)) with (exec (send h f) s). rewrite exec_send.
  case_bool_decide; [|apply cf_refl]. by apply (cf_alter (push f) h Hh s).
Qed.

Lemma cf_update (f : Connection → Connection) : preserves (confined H id) (update id f).
Proof. intros s. split; [|done]. intros id' Hne. simpl. by apply lookup_alter_ne. Qed.

Lemma cf_delete : preserves (confined H id) (modify (with_connections (delete id))).
Proof. intros s. split; [|done]. intros id' Hne. simpl. by apply lookup_delete_ne. Qed.

Lemma cf_try_catch_at (body handler : M unit) s :
  confined H id s (snd (body s)) → preserves (confined H id) handler →
  confined H id s (snd (try_catch body handler s)).
Proof.
  intros Hb Hh. unfold try_catch. destruct (body s) as [[a|e] s1]; simpl in *; [done|].
  eapply cf_trans; [exact Hb|apply Hh].
Qed.

(** A function that starts by looking up the record under [id] and then
    works on the sockets of that record. *)
Lemma cf_with_record (k : option Connection → M unit) s :
  (∀ c, activeConnections s !! id = Some c → preserves (confined H id) (k (Some c))) →
  preserves (confined H id) (k None) →
  confined H id s (snd ((let* c := gets (fun s => activeConnections s !! id) in k c)%js s)).
Proof.
  intros Hs Hn. unfold bind, gets. simpl.
  destruct (activeConnections s !! id) as [c|] eqn:E; [by apply Hs|apply Hn].
Qed.

Section AtState.
Variable s : Server.
Hypothesis sockets :
  ∀ c, activeConnections s !! id = Some c → H (clientWs c) ∧ H (geminiWs c).

Local Ltac cf_prim c Hc :=
  first
    [ apply cf_send; apply (sockets c Hc)
    | apply cf_alter; apply (sockets c Hc)
    | apply cf_update
    | apply cf_delete ].

Local Ltac cf_record :=
  let c := fresh "c" in
  let Hc := fresh "Hc" in
  pose proof cf_refl as KR; pose proof cf_trans as KT;
  apply cf_with_record; [intros c Hc|]; cbv beta iota;
  unfold forOfParts, forwardPart, close;
  repeat (preserves_step KR KT ltac:(cf_prim c Hc)).

Lemma cf_handleAudioInput audio now :
  confined H id s (snd (handleAudioInput id audio now s)).
Proof. unfold handleAudioInput. cf_record. Qed.

Lemma cf_handleClientMessage m : confined H id s (snd (handleClientMessage id m s)).
Proof. unfold handleClientMessage. cf_record. Qed.

Lemma cf_handleGeminiMessage m : confined H id s (snd (handleGeminiMessage id m s)).
Proof. unfold handleGeminiMessage. cf_record. Qed.

Lemma cf_cleanupConnection : confined H id s (snd (cleanupConnection id s)).
Proof. unfold cleanupConnection. cf_record. Qed.

Lemma cf_notifyClient v : confined H id s (snd (notifyClient id v s)).
Proof. unfold notifyClient. cf_record. Qed.

End AtState.
End Confined.

Lemma cf_step key model s e h l :
  socket_of e = Some h → listeners_of h s = Some l →
  confined (touched (id_of l) h s) (id_of l) s (step key model s e).
Proof.
  intros He Hl. set (H := touched (id_of l) h s).
  assert (H h) as Hh by (by left).
  assert (∀ s0, activeConnections s0 = activeConnections s →
            ∀ c, activeConnections s0 !! id_of l = Some c →
                 H (clientWs c) ∧ H (geminiWs c)) as HH.
  { intros s0 E c Hc. rewrite E in Hc. split; right; exists c; eauto. }
  pose proof (cf_refl H (id_of l)) as KR. pose proof (cf_trans H (id_of l)) as KT.
  destruct e as [now r0 r1 r2 r3 now'|ws data now|ws|ws|g|g payload|g|g|now|sig];
    simpl in He; try done; injection He as ->.
  - unfold step, exec, handler. unfold bind at 1, gets at 1. rewrite Hl. cbv beta iota.
    destruct l as [id|id]; [|apply KR]. simpl id_of in *.
    unfold client_on_message. apply cf_try_catch_at; [|by apply cf_send].
    destruct data as [audio|[m|]].
    + by apply cf_handleAudioInput, HH.
    + by apply cf_handleClientMessage, HH.
    + apply KR.
  - unfold step, exec, handler. unfold bind at 1, gets at 1. rewrite Hl. cbv beta iota.
    destruct l as [id|id]; [|apply KR]. simpl id_of in *.
    set (s0 := with_heap (alter (with_readyState CLOSED) h) s).
    apply (KT _ s0).
    + exact (cf_alter H id _ h Hh s).
    + exact (cf_cleanupConnection H id s0 (HH s0 eq_refl)).
  - unfold step, exec, handler. unfold bind at 1, gets at 1. rewrite Hl. cbv beta iota.
    destruct l as [id|id]; [|apply KR]. simpl id_of in *.
    set (s0 := with_heap (alter (with_readyState CLOSING) h) s).
    apply (KT _ s0).
    + exact (cf_alter H id _ h Hh s).
    + exact (cf_cleanupConnection H id s0 (HH s0 eq_refl)).
  - assert (preserves (confined H (id_of l)) (handler key model (GeminiOpen h))) as Hp.
    { simpl handler. unfold gemini_on_open, set_readyState.
      repeat (preserves_step KR KT
                ltac:(first [apply cf_send; exact Hh|apply cf_alter; exact Hh])). }
    exact (Hp s).
  - unfold step, exec, handler. unfold bind at 1, gets at 1. rewrite Hl. cbv beta iota.
    destruct l as [id|id]; [apply KR|]. simpl id_of in *.
    unfold gemini_on_message. apply cf_try_catch_at.
    + destruct payload as [m|]; [|apply KR]. by apply cf_handleGeminiMessage, HH.
    + intros s0. apply KR.
  - unfold step, exec, handler. unfold bind at 1, gets at 1. rewrite Hl. cbv beta iota.
    destruct l as [id|id]; [apply KR|]. simpl id_of in *.
    set (s0 := with_heap (alter (with_readyState CLOSED) h) s).
    apply (KT _ s0).
    + exact (cf_alter H id _ h Hh s).
    + exact (cf_notifyClient H id s0 (HH s0 eq_refl) disconnectedStatus).
  - unfold step, exec, handler. unfold bind at 1, gets at 1. rewrite Hl. cbv beta iota.
    destruct l as [id|id]; [apply KR|]. simpl id_of in *.
    set (s0 := with_heap (alter (with_readyState CLOSING) h) s).
    apply (KT _ s0).
    + exact (cf_alter H id _ h Hh s).
    + exact (cf_notifyClient H id s0 (HH s0 eq_refl) geminiFailedError).
Qed.

(** X4. Connections do not interfere.  In a reachable state, handling an
    event of a socket (a client message, close or error; an upstream open,
    message, close or error) changes no record under another id than the
    one the socket's listeners were created with, and no socket whose
    listeners were created with another id. *)
Theorem connections_isolated key model es e h l :
  let s := run key model init es in
  let s' := step key model s e in
  socket_of e = Some h →
  listeners_of h s = Some l →
  (∀ id', id' ≠ id_of l → activeConnections s' !! id' = activeConnections s !! id')
  ∧ (∀ h' l', listeners_of h' s = Some l' → id_of l' ≠ id_of l →
              heap s' !! h' = heap s !! h').
Proof.
  intros s s' He Hl. destruct (cf_step key model s e h l He Hl) as [A B].
  split; [exact A|]. intros h' l' Hl' Hne. apply B.
  intros [->|(c & Hc & Hh')].
  - rewrite Hl in Hl'. by injection Hl' as ->.
  - destruct (wired_run key model es _ _ Hc) as [H1 H2]. fold s in H1, H2.
    destruct Hh' as [-> | ->].
    + rewrite H1 in Hl'. by injection Hl' as <-.
    + rewrite H2 in Hl'. by injection Hl' as <-.
Qed.

Lemma connections_isolated_witness :
  let key := Some "k" in
  let id' := generateConnectionId 1700000000005 [x0a; x0b; x0c; x0d] in
  let s := run key "m" init [Connect 1700000000000 x00 x01 xfe xff 1700000000001;
                             Connect 1700000000005 x0a x0b x0c x0d 1700000000006;
                             GeminiOpen 1%nat; GeminiOpen 3%nat] in
  let s' := step key "m" s (ClientMessage 0%nat
                              (TextData (Some (JObject [("type", JString "interrupt")])))
                              1700000000500) in
  activeConnections s' !! id' = activeConnections s !! id'
  ∧ heap s' !! 2%nat = heap s !! 2%nat
  ∧ heap s' !! 3%nat = heap s !! 3%nat.
Proof.
  pose proof (connections_isolated (Some "k") "m"
    [Connect 1700000000000 x00 x01 xfe xff 1700000000001;
     Connect 1700000000005 x0a x0b x0c x0d 1700000000006;
     GeminiOpen 1%nat; GeminiOpen 3%nat]
    (ClientMessage 0%nat (TextData (Some (JObject [("type", JString "interrupt")])))
       1700000000500)
    0%nat (ClientListeners (generateConnectionId 1700000000000 [x00; x01; xfe; xff]))) as H.
  destruct H as [A B]; [vm_compute; reflexivity..|].
  split_and!.
  - apply A. vm_compute. discriminate.
  - apply (B 2%nat (ClientListeners (generateConnectionId 1700000000005 [x0a; x0b; x0c; x0d]))).
    + vm_compute; reflexivity.
    + vm_compute. discriminate.
  - apply (B 3%nat (GeminiListeners (generateConnectionId 1700000000005 [x0a; x0b; x0c; x0d]))).
    + vm_compute; reflexivity.
    + vm_compute. discriminate.
Defined.

(** ** Connection ids *)

Lemma generateConnectionId_inj_witness :
  1700000000000 = 1700000000000 ∧ [x00; x01; xfe; xff] = [x00; x01; xfe; xff].
Proof.
  apply (generateConnectionId_inj 1700000000000 [x00; x01; xfe; xff]
           1700000000000 [x00; x01; xfe; xff]); reflexivity.
Defined.
